(** * roller: rotation and retention engine

    A shallow embedding of the two engine variants of the repository:

    - [LumberjackRoller] (lumberjack_roller.go): strategy-selected rotation
      (size or direct), timestamped backups, retention pass ("mill") with
      total-size / count / age filters and gzip compression;
    - [Roller] (roller.go, second variant): composable size / duration
      predicates, user-supplied rotate name, retention delegated to an
      external shredder.

    Go code is embedded as state-passing functions over an explicit model of
    the operating system: a file table, a table of open handles, a clock and
    a fault plan that lets every system call fail.  Every system call is
    recorded in a trace so that ordering claims ("rotates before writing",
    "removes the source only after the copy is closed") are statements about
    the trace. *)

From Stdlib Require Import ZArith Lia String Ascii List Sorting.Sorted Permutation.
From stdpp Require Import base option list gmap strings sorting.

Open Scope Z_scope.

(** ** Go strings

    A Go string is modelled by [string]; the operations of package [strings]
    and the slice expression [s[lo:hi]] work on its character list. *)

Module GoStrings.

Definition chars (s : string) : list ascii := String.list_ascii_of_string s.
Definition of_chars (l : list ascii) : string := String.string_of_list_ascii l.

(** [len(s)] as a Go [int]. *)
Definition len (s : string) : Z := Z.of_nat (length (chars s)).

(** [strings.HasPrefix(s, prefix)]. *)
Definition HasPrefix (s prefix : string) : bool :=
  bool_decide (chars prefix `prefix_of` chars s).

(** [strings.HasSuffix(s, suffix)]. *)
Definition HasSuffix (s suffix : string) : bool :=
  bool_decide (chars suffix `suffix_of` chars s).

(** [s[lo:hi]]; Go panics unless [0 <= lo <= hi <= len(s)]. *)
Definition slice (s : string) (lo hi : Z) : option string :=
  if bool_decide (0 <= lo /\ lo <= hi /\ hi <= len s)
  then Some (of_chars (take (Z.to_nat (hi - lo)) (drop (Z.to_nat lo) (chars s))))
  else None.

(** [strings.TrimSuffix(s, suffix)]. *)
Definition TrimSuffix (s suffix : string) : string :=
  if HasSuffix s suffix
  then of_chars (take (length (chars s) - length (chars suffix))%nat (chars s))
  else s.

End GoStrings.

(** ** Package [path/filepath] (Unix flavour, separator [/]) *)

Module Filepath.
Import GoStrings.

Definition sep : ascii := "/"%char.
Definition dot : ascii := "."%char.

Definition is_sep (c : ascii) : bool := bool_decide (c = sep).

(** Components of a path: the maximal separator-free runs. *)
Fixpoint split_go (cur : list ascii) (l : list ascii) : list (list ascii) :=
  match l with
  | [] => [rev cur]
  | c :: l' => if is_sep c then rev cur :: split_go [] l'
               else split_go (c :: cur) l'
  end.
Definition components (l : list ascii) : list (list ascii) := split_go [] l.

Fixpoint join_sep (cs : list (list ascii)) : list ascii :=
  match cs with
  | [] => []
  | [c] => c
  | c :: cs' => c ++ sep :: join_sep cs'
  end.

(** One step of [Clean]'s scan: [stack] holds the kept components, newest
    first. *)
Definition clean_step (rooted : bool) (stack : list (list ascii))
    (c : list ascii) : list (list ascii) :=
  if bool_decide (c = []) || bool_decide (c = [dot]) then stack
  else if bool_decide (c = [dot; dot]) then
    match stack with
    | top :: rest =>
        if bool_decide (top = [dot; dot]) then c :: stack else rest
    | [] => if rooted then [] else [c]
    end
  else c :: stack.

(** [filepath.Clean]. *)
Definition Clean_chars (l : list ascii) : list ascii :=
  let rooted := match l with c :: _ => is_sep c | [] => false end in
  let kept := rev (fold_left (clean_step rooted) (components l) []) in
  let body := join_sep kept in
  if rooted then sep :: body
  else match body with [] => [dot] | _ => body end.

Definition Clean (p : string) : string := of_chars (Clean_chars (chars p)).

(** Index just past the last separator of [l] (0 when there is none). *)
Fixpoint after_last_sep (l : list ascii) : list ascii :=
  match l with
  | [] => []
  | c :: l' =>
      if existsb is_sep l then
        (if existsb is_sep l' then after_last_sep l' else l')
      else l
  end.

Fixpoint strip_trailing_sep_rev (r : list ascii) : list ascii :=
  match r with
  | c :: r' => if is_sep c then strip_trailing_sep_rev r' else r
  | [] => []
  end.

(** [filepath.Base]. *)
Definition Base (p : string) : string :=
  match chars p with
  | [] => "."
  | l =>
      match rev (strip_trailing_sep_rev (rev l)) with
      | [] => "/"
      | l' => of_chars (after_last_sep l')
      end
  end.

(** [filepath.Dir]: everything up to the last separator, cleaned. *)
Definition Dir (p : string) : string :=
  let l := chars p in
  let last := after_last_sep l in
  of_chars (Clean_chars (take (length l - length last)%nat l)).

(** [filepath.Ext]: the suffix starting at the final dot of the final
    element; empty when the final element has no dot. *)
Fixpoint ext_rev (r : list ascii) (acc : list ascii) : list ascii :=
  match r with
  | [] => []
  | c :: r' =>
      if is_sep c then []
      else if bool_decide (c = dot) then c :: acc
      else ext_rev r' (c :: acc)
  end.
Definition Ext (p : string) : string := of_chars (ext_rev (rev (chars p)) []).

(** [filepath.Join(dir, name)] for two elements: empty elements are
    ignored, the rest is joined by the separator and cleaned. *)
Definition Join (d n : string) : string :=
  match chars d, chars n with
  | [], [] => ""
  | [], _ => Clean n
  | _, [] => Clean d
  | ld, ln => of_chars (Clean_chars (ld ++ sep :: ln))
  end.

End Filepath.

(** ** Machine integers *)

Definition max_int64 : Z := 2 ^ 63 - 1.
Definition min_int64 : Z := - 2 ^ 63.

(** Two's-complement wrap-around of [int64] arithmetic. *)
Definition wrap64 (z : Z) : Z := (z + 2 ^ 63) mod 2 ^ 64 - 2 ^ 63.

Definition add64 (a b : Z) : Z := wrap64 (a + b).

(** ** Package [time]

    Instants are nanoseconds since the Unix epoch; a location gives the
    offset east of UTC (in seconds) in force at an instant.  Calendar
    conversions follow the proleptic Gregorian calendar, as package [time]
    does.  A layout string is represented by the sequence of chunks that
    [time]'s layout scanner cuts it into; only the chunks occurring in the
    default backup layout are represented. *)

Module GoTime.
Import GoStrings.

Record Location := { zone_offset : Z -> Z }.

Definition UTC : Location := {| zone_offset := fun _ => 0 |}.

Record Time := { unix_ns : Z; loc : Location }.

(** [time.Duration]: an [int64] count of nanoseconds. *)
Definition Duration := Z.

(** The zero [Time{}]: January 1, year 1, 00:00:00 UTC. *)
Definition zero_unix_sec : Z := -62135596800.
Definition zeroTime : Time := {| unix_ns := zero_unix_sec * 10^9; loc := UTC |}.

Definition In (t : Time) (l : Location) : Time :=
  {| unix_ns := unix_ns t; loc := l |}.

Definition Before (t u : Time) : bool := unix_ns t <? unix_ns u.
Definition After (t u : Time) : bool := unix_ns u <? unix_ns t.

(** [t.Add(d)]. *)
Definition Add (t : Time) (d : Duration) : Time :=
  {| unix_ns := unix_ns t + d; loc := loc t |}.

(** [t.Sub(u)]: saturates at the bounds of [Duration]. *)
Definition Sub (t u : Time) : Duration :=
  let d := unix_ns t - unix_ns u in
  if d >? max_int64 then max_int64
  else if d <? min_int64 then min_int64 else d.

(** *** Calendar *)

Definition isLeap (year : Z) : bool :=
  (year mod 4 =? 0) && (negb (year mod 100 =? 0) || (year mod 400 =? 0)).

Definition daysIn (month year : Z) : Z :=
  if month =? 2 then (if isLeap year then 29 else 28)
  else if (month =? 4) || (month =? 6) || (month =? 9) || (month =? 11)
       then 30 else 31.

(** Days since 1970-01-01 of a civil date. *)
Definition days_from_civil (year month day : Z) : Z :=
  let y := if month <=? 2 then year - 1 else year in
  let era := y / 400 in
  let yoe := y - era * 400 in
  let mp := if month >? 2 then month - 3 else month + 9 in
  let doy := (153 * mp + 2) / 5 + day - 1 in
  let doe := yoe * 365 + yoe / 4 - yoe / 100 + doy in
  era * 146097 + doe - 719468.

(** Civil date of a day number (days since 1970-01-01). *)
Definition civil_from_days (z : Z) : Z * Z * Z :=
  let z := z + 719468 in
  let era := z / 146097 in
  let doe := z - era * 146097 in
  let yoe := (doe - doe / 1460 + doe / 36524 - doe / 146096) / 365 in
  let doy := doe - (365 * yoe + yoe / 4 - yoe / 100) in
  let mp := (5 * doy + 2) / 153 in
  let d := doy - (153 * mp + 2) / 5 + 1 in
  let m := if mp <? 10 then mp + 3 else mp - 9 in
  let y := yoe + era * 400 in
  (if m <=? 2 then y + 1 else y, m, d).

(** Broken-down wall-clock reading. *)
Record Civil := {
  c_year : Z; c_month : Z; c_day : Z;
  c_hour : Z; c_min : Z; c_sec : Z; c_nsec : Z
}.

(** The wall-clock reading of [t] in its location. *)
Definition civil (t : Time) : Civil :=
  let usec := unix_ns t / 10^9 in
  let nsec := unix_ns t mod 10^9 in
  let lsec := usec + zone_offset (loc t) usec in
  let '(y, m, d) := civil_from_days (lsec / 86400) in
  let sod := lsec mod 86400 in
  {| c_year := y; c_month := m; c_day := d;
     c_hour := sod / 3600; c_min := (sod mod 3600) / 60; c_sec := sod mod 60;
     c_nsec := nsec |}.

(** [time.Date(...)] in UTC, for fields already in range. *)
Definition Date_UTC (c : Civil) : Time :=
  let days := days_from_civil (c_year c) (c_month c) (c_day c) in
  let sec := days * 86400 + c_hour c * 3600 + c_min c * 60 + c_sec c in
  {| unix_ns := sec * 10^9 + c_nsec c; loc := UTC |}.

(** *** Layouts *)

Inductive chunk :=
| Lit (s : string)          (* literal text *)
| stdLongYear               (* "2006" *)
| stdZeroMonth              (* "01" *)
| stdZeroDay                (* "02" *)
| stdHour                   (* "15" *)
| stdZeroMinute             (* "04" *)
| stdZeroSecond             (* "05" *)
| stdFracSecond0 (n : nat). (* ".000", n zeros *)

Definition Layout := list chunk.

Definition digit (n : Z) : ascii := ascii_of_nat (48 + Z.to_nat n).

Definition digit_val (c : ascii) : option Z :=
  let n := Z.of_nat (nat_of_ascii c) in
  if (48 <=? n) && (n <=? 57) then Some (n - 48) else None.

Fixpoint digits_rev (fuel : nat) (n : Z) : list ascii :=
  match fuel with
  | O => []
  | S f => if n <? 10 then [digit n]
           else digit (n mod 10) :: digits_rev f (n / 10)
  end.

(** [appendInt(b, x, width)]: decimal, zero-padded to at least [width]. *)
Definition appendInt (x : Z) (width : nat) : list ascii :=
  let u := Z.abs x in
  let ds := rev (digits_rev (S (Z.to_nat (Z.log2 u))) u) in
  (if x <? 0 then ["-"%char] else [])
    ++ repeat "0"%char (width - length ds) ++ ds.

(** [formatNano(nanosec, n, trim=false)]: a period and [n] digits. *)
Definition formatNano (nsec : Z) (n : nat) : list ascii :=
  let ds := take n (repeat "0"%char (9 - length (appendInt nsec 0))
                      ++ appendInt nsec 0) in
  "."%char :: ds ++ repeat "0"%char (n - 9).

Definition format_chunk (c : Civil) (k : chunk) : list ascii :=
  match k with
  | Lit s => chars s
  | stdLongYear => appendInt (c_year c) 4
  | stdZeroMonth => appendInt (c_month c) 2
  | stdZeroDay => appendInt (c_day c) 2
  | stdHour => appendInt (c_hour c) 2
  | stdZeroMinute => appendInt (c_min c) 2
  | stdZeroSecond => appendInt (c_sec c) 2
  | stdFracSecond0 n => formatNano (c_nsec c) n
  end.

(** [t.Format(layout)]. *)
Definition Format (t : Time) (layout : Layout) : string :=
  of_chars (concat (map (format_chunk (civil t)) layout)).

(** *** Parsing *)

Definition is_digit (c : ascii) : bool :=
  match digit_val c with Some _ => true | None => false end.

Fixpoint cutspace (l : list ascii) : list ascii :=
  match l with
  | c :: l' => if bool_decide (c = " "%char) then cutspace l' else l
  | [] => []
  end.

(** [skip(value, prefix)]: consume the literal [prefix]; a run of spaces
    in the layout matches any run of spaces (also none at the end of the
    value).  [in_space] tells that the previous layout character was a
    space whose run has already been cut from the value. *)
Fixpoint skip_go (in_space : bool) (value prefix : list ascii)
    : option (list ascii) :=
  match prefix with
  | [] => Some value
  | p :: prefix' =>
      if bool_decide (p = " "%char) then
        if in_space then skip_go true value prefix'
        else
          match value with
          | v :: _ =>
              if bool_decide (v = " "%char)
              then skip_go true (cutspace value) prefix'
              else None
          | [] => skip_go true value prefix'
          end
      else
        match value with
        | v :: value' =>
            if bool_decide (v = p) then skip_go false value' prefix'
            else None
        | [] => None
        end
  end.
Definition skip := skip_go false.

(** [getnum(s, fixed)]: one or two digits, exactly two when [fixed]. *)
Definition getnum (s : list ascii) (fixed : bool) : option (Z * list ascii) :=
  match s with
  | c0 :: rest0 =>
      match digit_val c0 with
      | None => None
      | Some d0 =>
          match rest0 with
          | c1 :: rest1 =>
              match digit_val c1 with
              | Some d1 => Some (d0 * 10 + d1, rest1)
              | None => if fixed then None else Some (d0, rest0)
              end
          | [] => if fixed then None else Some (d0, rest0)
          end
      end
  | [] => None
  end.

Fixpoint leading_digits (acc : Z) (s : list ascii) : option Z :=
  match s with
  | [] => Some acc
  | c :: s' =>
      match digit_val c with
      | Some d => leading_digits (acc * 10 + d) s'
      | None => None
      end
  end.

(** [atoi(s)]: optional sign, then digits only. *)
Definition atoi (s : list ascii) : option Z :=
  match s with
  | c :: s' =>
      if bool_decide (c = "-"%char) then Z.opp <$> leading_digits 0 s'
      else if bool_decide (c = "+"%char) then leading_digits 0 s'
      else leading_digits 0 s
  | [] => Some 0
  end.

Definition commaOrPeriod (c : ascii) : bool :=
  bool_decide (c = "."%char) || bool_decide (c = ","%char).

(** [parseNanoseconds(value, nbytes)]. *)
Definition parseNanoseconds (value : list ascii) (nbytes : nat) : option Z :=
  match value with
  | c :: _ =>
      if commaOrPeriod c then
        let nbytes := Nat.min nbytes 10 in
        match atoi (drop 1 (take nbytes value)) with
        | Some ns => if ns <? 0 then None
                     else Some (ns * 10 ^ Z.of_nat (10 - nbytes))
        | None => None
        end
      else None
  | [] => None
  end.

Definition in_range (lo hi x : Z) : bool := (lo <=? x) && (x <=? hi).

(** One iteration of [Parse]'s loop for the element [k]. *)
Definition parse_chunk (k : chunk) (value : list ascii) (c : Civil)
    : option (list ascii * Civil) :=
  match k with
  | Lit s => v ← skip value (chars s); Some (v, c)
  | stdLongYear =>
      match value with
      | c0 :: _ =>
          if (4 <=? length value)%nat && is_digit c0 then
            y ← atoi (take 4 value);
            Some (drop 4 value,
                  {| c_year := y; c_month := c_month c; c_day := c_day c;
                     c_hour := c_hour c; c_min := c_min c; c_sec := c_sec c;
                     c_nsec := c_nsec c |})
          else None
      | [] => None
      end
  | stdZeroMonth =>
      '(m, v) ← getnum value true;
      if in_range 1 12 m then
        Some (v, {| c_year := c_year c; c_month := m; c_day := c_day c;
                    c_hour := c_hour c; c_min := c_min c; c_sec := c_sec c;
                    c_nsec := c_nsec c |})
      else None
  | stdZeroDay =>
      '(d, v) ← getnum value true;
      Some (v, {| c_year := c_year c; c_month := c_month c; c_day := d;
                  c_hour := c_hour c; c_min := c_min c; c_sec := c_sec c;
                  c_nsec := c_nsec c |})
  | stdHour =>
      '(h, v) ← getnum value false;
      if in_range 0 23 h then
        Some (v, {| c_year := c_year c; c_month := c_month c; c_day := c_day c;
                    c_hour := h; c_min := c_min c; c_sec := c_sec c;
                    c_nsec := c_nsec c |})
      else None
  | stdZeroMinute =>
      '(m, v) ← getnum value true;
      if in_range 0 59 m then
        Some (v, {| c_year := c_year c; c_month := c_month c; c_day := c_day c;
                    c_hour := c_hour c; c_min := m; c_sec := c_sec c;
                    c_nsec := c_nsec c |})
      else None
  | stdZeroSecond =>
      '(s, v) ← getnum value true;
      if in_range 0 59 s then
        Some (v, {| c_year := c_year c; c_month := c_month c; c_day := c_day c;
                    c_hour := c_hour c; c_min := c_min c; c_sec := s;
                    c_nsec := c_nsec c |})
      else None
  | stdFracSecond0 n =>
      let ndigit := S n in
      if (length value <? ndigit)%nat then None
      else
        ns ← parseNanoseconds value ndigit;
        Some (drop ndigit value,
              {| c_year := c_year c; c_month := c_month c; c_day := c_day c;
                 c_hour := c_hour c; c_min := c_min c; c_sec := c_sec c;
                 c_nsec := ns |})
  end.

Fixpoint parse_chunks (layout : Layout) (value : list ascii) (c : Civil)
    : option Civil :=
  match layout with
  | [] => match value with [] => Some c | _ => None end
  | k :: layout' =>
      '(v, c') ← parse_chunk k value c;
      parse_chunks layout' v c'
  end.

(** Fields omitted from the layout: zero, or one where zero is impossible. *)
Definition civil0 : Civil :=
  {| c_year := 0; c_month := 1; c_day := 1;
     c_hour := 0; c_min := 0; c_sec := 0; c_nsec := 0 |}.

(** [time.Parse(layout, value)]: without zone information in the layout
    the reading is interpreted in UTC.  [None] is a parse error. *)
Definition Parse (layout : Layout) (value : string) : option Time :=
  c ← parse_chunks layout (chars value) civil0;
  if (c_day c <? 1) || (c_day c >? daysIn (c_month c) (c_year c)) then None
  else Some (Date_UTC c).

End GoTime.

(** ** Errors *)

(** Error numbers of the operating system, and the sentinel errors of
    package [os] that the code can meet. *)
Inductive errno :=
| ENOENT | EEXIST | EISDIR | ENOTDIR | EACCES | ENOSPC | EIO
| ErrInvalid   (* os.ErrInvalid: method called on a nil *os.File *)
| ErrClosed.   (* os.ErrClosed: method called on a closed file *)

(** Go [error] values.  [nil] is [None] of [option error]. *)
Inductive error :=
| ErrWriteTooLong                      (* the package's sentinel error *)
| ErrNew (msg : string)                (* errors.New(msg) *)
| ErrOS (e : errno)                    (* an error coming from package os *)
| Errorf (msg : string) (args : list Z) (wrapped : error).
                                       (* fmt.Errorf("msg: %w", args..., err) *)

(** [errors.Is(err, ErrWriteTooLong)]: follow the [%w] chain. *)
Fixpoint is_WriteTooLong (e : error) : bool :=
  match e with
  | ErrWriteTooLong => true
  | Errorf _ _ e' => is_WriteTooLong e'
  | _ => false
  end.

(** [os.IsNotExist(err)]. *)
Definition IsNotExist (e : errno) : bool :=
  match e with ENOENT => true | _ => false end.

(** ** Operating system model *)

Module OS.
Import GoStrings.

(** A file-table entry. *)
Record node := {
  n_isdir : bool;
  n_mode : Z;
  n_data : list Byte.byte;
  n_mtime : Z                 (* modification time, Unix nanoseconds *)
}.

(** [os.FileInfo]. *)
Record FileInfo := {
  fi_name : string;
  fi_size : Z;
  fi_mode : Z;
  fi_modtime : Z;
  fi_isdir : bool
}.

(** An open [*os.File]. *)
Record handle := {
  h_path : string;            (* cleaned path it was opened at *)
  h_append : bool;            (* O_APPEND *)
  h_off : nat                 (* file offset *)
}.

(** A planned failure of one system call; [f_partial] is the number of
    bytes a failing write still transfers. *)
Record fault := { f_err : errno; f_partial : nat }.

Inductive syscall :=
| SysStat (p : string)
| SysMkdirAll (p : string)
| SysRename (old new : string)
| SysOpenFile (p : string) (fd : nat)
| SysFstat (fd : nat)
| SysWrite (fd : nat) (n : nat)
| SysCopyGzip (dst src : nat) (n : nat)
| SysGzipClose (dst : nat) (n : nat)
| SysClose (fd : nat)
| SysRemove (p : string)
| SysChown (p : string)
| SysReadDir (p : string).

(** Trace entries: a completed system call with its error ([None] on
    success), or the entry into a method of the engine. *)
Inductive event :=
| Ev (call : syscall) (err : option errno)
| Call (method : string).

Record World := {
  w_fs : gmap string node;        (* file table, keyed by cleaned path *)
  w_open : gmap nat handle;       (* open descriptors *)
  w_nextfd : nat;
  w_faults : list (option fault); (* fault plan, one entry per system call *)
  w_now : Z;                      (* clock reading, Unix nanoseconds *)
  w_local : GoTime.Location;      (* time.Local *)
  w_gzip : list Byte.byte -> list Byte.byte * list Byte.byte;
                                  (* gzip encoder: stream body and trailer *)
  w_args0 : string;               (* os.Args[0] *)
  w_tmpdir : string;              (* os.TempDir() *)
  w_umask : Z;                    (* file mode creation mask of the process *)
  w_trace : list event            (* system calls so far, oldest first *)
}.

Definition set_fs (w : World) (fs : gmap string node) : World :=
  {| w_fs := fs; w_open := w_open w; w_nextfd := w_nextfd w;
     w_faults := w_faults w; w_now := w_now w; w_local := w_local w;
     w_gzip := w_gzip w; w_args0 := w_args0 w; w_tmpdir := w_tmpdir w;
     w_umask := w_umask w; w_trace := w_trace w |}.

Definition set_open (w : World) (o : gmap nat handle) : World :=
  {| w_fs := w_fs w; w_open := o; w_nextfd := w_nextfd w;
     w_faults := w_faults w; w_now := w_now w; w_local := w_local w;
     w_gzip := w_gzip w; w_args0 := w_args0 w; w_tmpdir := w_tmpdir w;
     w_umask := w_umask w; w_trace := w_trace w |}.

Definition set_nextfd (w : World) (n : nat) : World :=
  {| w_fs := w_fs w; w_open := w_open w; w_nextfd := n;
     w_faults := w_faults w; w_now := w_now w; w_local := w_local w;
     w_gzip := w_gzip w; w_args0 := w_args0 w; w_tmpdir := w_tmpdir w;
     w_umask := w_umask w; w_trace := w_trace w |}.

Definition set_faults (w : World) (fl : list (option fault)) : World :=
  {| w_fs := w_fs w; w_open := w_open w; w_nextfd := w_nextfd w;
     w_faults := fl; w_now := w_now w; w_local := w_local w;
     w_gzip := w_gzip w; w_args0 := w_args0 w; w_tmpdir := w_tmpdir w;
     w_umask := w_umask w; w_trace := w_trace w |}.

Definition record (w : World) (ev : event) : World :=
  {| w_fs := w_fs w; w_open := w_open w; w_nextfd := w_nextfd w;
     w_faults := w_faults w; w_now := w_now w; w_local := w_local w;
     w_gzip := w_gzip w; w_args0 := w_args0 w; w_tmpdir := w_tmpdir w;
     w_umask := w_umask w; w_trace := w_trace w ++ [ev] |}.

Definition log (w : World) (c : syscall) (e : option errno) : World :=
  record w (Ev c e).

(** Take the next entry of the fault plan; an exhausted plan injects no
    further failure. *)
Definition next_fault (w : World) : option fault * World :=
  match w_faults w with
  | [] => (None, w)
  | f :: fl => (f, set_faults w fl)
  end.

Definition info_of (name : string) (n : node) : FileInfo :=
  {| fi_name := name; fi_size := Z.of_nat (length (n_data n));
     fi_mode := n_mode n; fi_modtime := n_mtime n; fi_isdir := n_isdir n |}.

Definition new_file (mode : Z) (now : Z) : node :=
  {| n_isdir := false; n_mode := mode; n_data := []; n_mtime := now |}.

Definition new_dir (mode : Z) (now : Z) : node :=
  {| n_isdir := true; n_mode := mode; n_data := []; n_mtime := now |}.

(** The mode a file or directory is created with: the permission bits
    asked for, less those of the process's mask. *)
Definition created_mode (perm : Z) (w : World) : Z :=
  Z.ldiff perm (w_umask w).

(** [os.Stat(name)]. *)
Definition Stat (name : string) (w : World) : (FileInfo + errno) * World :=
  let p := Filepath.Clean name in
  let '(f, w) := next_fault w in
  match f with
  | Some ft => (inr (f_err ft), log w (SysStat p) (Some (f_err ft)))
  | None =>
      match w_fs w !! p with
      | Some n => (inl (info_of (Filepath.Base p) n), log w (SysStat p) None)
      | None => (inr ENOENT, log w (SysStat p) (Some ENOENT))
      end
  end.

(** [os.MkdirAll(path, perm)]: a directory it creates gets [perm] before
    the mask. *)
Definition MkdirAll (path : string) (perm : Z) (w : World)
    : option errno * World :=
  let p := Filepath.Clean path in
  let '(f, w) := next_fault w in
  match f with
  | Some ft => (Some (f_err ft), log w (SysMkdirAll p) (Some (f_err ft)))
  | None =>
      match w_fs w !! p with
      | Some n =>
          if n_isdir n then (None, log w (SysMkdirAll p) None)
          else (Some ENOTDIR, log w (SysMkdirAll p) (Some ENOTDIR))
      | None =>
          (None, log (set_fs w (<[p := new_dir (created_mode perm w) (w_now w)]>
                                  (w_fs w)))
                     (SysMkdirAll p) None)
      end
  end.

(** [os.Rename(oldpath, newpath)]: replaces an existing regular file. *)
Definition Rename (oldpath newpath : string) (w : World)
    : option errno * World :=
  let po := Filepath.Clean oldpath in
  let pn := Filepath.Clean newpath in
  let '(f, w) := next_fault w in
  let fail e := (Some e, log w (SysRename po pn) (Some e)) in
  match f with
  | Some ft => fail (f_err ft)
  | None =>
      match w_fs w !! po with
      | None => fail ENOENT
      | Some n =>
          match w_fs w !! pn with
          | Some n' =>
              if n_isdir n' then fail EEXIST
              else (None, log (set_fs w (<[pn := n]> (delete po (w_fs w))))
                              (SysRename po pn) None)
          | None =>
              (None, log (set_fs w (<[pn := n]> (delete po (w_fs w))))
                         (SysRename po pn) None)
          end
      end
  end.

(** Flags of [os.OpenFile] that matter: O_CREATE, O_TRUNC, O_APPEND. *)
Record flags := { O_CREATE : bool; O_TRUNC : bool; O_APPEND : bool }.

Definition truncate (n : node) (now : Z) : node :=
  {| n_isdir := n_isdir n; n_mode := n_mode n; n_data := [];
     n_mtime := now |}.

(** [os.OpenFile(name, flag, perm)]; the result is the descriptor.  A file
    it creates gets mode [perm] before the mask; an existing file keeps its
    mode. *)
Definition OpenFile (name : string) (fl : flags) (perm : Z) (w : World)
    : (nat + errno) * World :=
  let p := Filepath.Clean name in
  let fd := w_nextfd w in
  let '(f, w) := next_fault w in
  let fail e := (inr e, log w (SysOpenFile p fd) (Some e)) in
  let ok fs :=
    (inl fd,
     log (set_nextfd
            (set_open (set_fs w fs)
               (<[fd := {| h_path := p; h_append := O_APPEND fl;
                           h_off := 0 |}]> (w_open w)))
            (S fd))
         (SysOpenFile p fd) None) in
  match f with
  | Some ft => fail (f_err ft)
  | None =>
      match w_fs w !! p with
      | Some n =>
          if n_isdir n then fail EISDIR
          else if O_TRUNC fl
               then ok (<[p := truncate n (w_now w)]> (w_fs w))
               else ok (w_fs w)
      | None =>
          if O_CREATE fl
          then ok (<[p := new_file (created_mode perm w) (w_now w)]> (w_fs w))
          else fail ENOENT
      end
  end.

(** [os.Open(name)]: read-only. *)
Definition Open (name : string) : World -> (nat + errno) * World :=
  OpenFile name {| O_CREATE := false; O_TRUNC := false; O_APPEND := false |} 0.

(** Bytes of a file after writing [p] at offset [off]. *)
Definition write_at (data : list Byte.byte) (off : nat) (p : list Byte.byte)
    : list Byte.byte :=
  take off data ++ repeat Byte.x00 (off - length data) ++ p
    ++ drop (off + length p) data.

(** Transfer [p] through descriptor [fd]: the file table entry the handle
    was opened at receives the bytes (at the end for O_APPEND, at the
    offset otherwise); a file unlinked meanwhile absorbs them. *)
Definition put_bytes (fd : nat) (h : handle) (p : list Byte.byte) (w : World)
    : World :=
  match w_fs w !! h_path h with
  | Some n =>
      let off := if h_append h then length (n_data n) else h_off h in
      let n' := {| n_isdir := n_isdir n; n_mode := n_mode n;
                   n_data := write_at (n_data n) off p;
                   n_mtime := w_now w |} in
      set_open (set_fs w (<[h_path h := n']> (w_fs w)))
        (<[fd := {| h_path := h_path h; h_append := h_append h;
                    h_off := (off + length p)%nat |}]> (w_open w))
  | None => w
  end.

(** [File.Write(p)] on an open descriptor. *)
Definition FdWrite (fd : nat) (p : list Byte.byte) (w : World)
    : (Z * option errno) * World :=
  match w_open w !! fd with
  | None => ((0, Some ErrClosed), w)
  | Some h =>
      let '(f, w) := next_fault w in
      match f with
      | Some ft =>
          let k := Nat.min (f_partial ft) (length p) in
          ((Z.of_nat k, Some (f_err ft)),
           log (put_bytes fd h (take k p) w) (SysWrite fd k)
               (Some (f_err ft)))
      | None =>
          ((Z.of_nat (length p), None),
           log (put_bytes fd h p w) (SysWrite fd (length p)) None)
      end
  end.

(** [File.Close()]: the descriptor is released even when the call
    reports an error. *)
Definition FdClose (fd : nat) (w : World) : option errno * World :=
  match w_open w !! fd with
  | None => (Some ErrClosed, w)
  | Some _ =>
      let '(f, w) := next_fault w in
      let e := f_err <$> f in
      (e, log (set_open w (delete fd (w_open w))) (SysClose fd) e)
  end.

(** [File.Stat()]. *)
Definition FdStat (fd : nat) (w : World) : (FileInfo + errno) * World :=
  match w_open w !! fd with
  | None => (inr ErrClosed, w)
  | Some h =>
      let '(f, w) := next_fault w in
      match f with
      | Some ft => (inr (f_err ft), log w (SysFstat fd) (Some (f_err ft)))
      | None =>
          match w_fs w !! h_path h with
          | Some n => (inl (info_of (Filepath.Base (h_path h)) n),
                       log w (SysFstat fd) None)
          | None => (inl (info_of (Filepath.Base (h_path h))
                            (new_file 0 (w_now w))),
                     log w (SysFstat fd) None)
          end
      end
  end.

(** [os.Remove(name)]. *)
Definition Remove (name : string) (w : World) : option errno * World :=
  let p := Filepath.Clean name in
  let '(f, w) := next_fault w in
  match f with
  | Some ft => (Some (f_err ft), log w (SysRemove p) (Some (f_err ft)))
  | None =>
      match w_fs w !! p with
      | Some _ => (None, log (set_fs w (delete p (w_fs w))) (SysRemove p) None)
      | None => (Some ENOENT, log w (SysRemove p) (Some ENOENT))
      end
  end.

Definition name_le (a b : FileInfo) : Prop :=
  String.le (fi_name a) (fi_name b).

Global Instance name_le_dec : RelDecision name_le.
Proof. intros a b. unfold name_le. apply _. Defined.

(** Entries of directory [p]: the file-table entries directly below it. *)
Definition children (p : string) (fs : gmap string node) : list FileInfo :=
  omap (fun '(k, n) =>
          if bool_decide (Filepath.Dir k = p) && negb (bool_decide (k = p))
          then Some (info_of (Filepath.Base k) n) else None)
       (map_to_list fs).

(** [ioutil.ReadDir(dirname)]: the entries sorted by file name. *)
Definition ReadDir (dirname : string) (w : World)
    : (list FileInfo + errno) * World :=
  let p := Filepath.Clean dirname in
  let '(f, w) := next_fault w in
  match f with
  | Some ft => (inr (f_err ft), log w (SysReadDir p) (Some (f_err ft)))
  | None => (inl (merge_sort name_le (children p (w_fs w))),
             log w (SysReadDir p) None)
  end.

(** The state of a [gzip.Writer]: the descriptor it writes to and the
    bytes its [Close] still has to flush. *)
Record gzWriter := { gz_dst : nat; gz_pending : list Byte.byte }.

(** [gzip.NewWriter(f)]: nothing is read or written yet; closing it now
    would emit the encoding of the empty input. *)
Definition gzip_NewWriter (dst : nat) (w : World) : gzWriter :=
  {| gz_dst := dst;
     gz_pending := fst (w_gzip w []) ++ snd (w_gzip w []) |}.

Definition contents (h : handle) (w : World) : list Byte.byte :=
  match w_fs w !! h_path h with
  | Some n => n_data n
  | None => []
  end.

(** [io.Copy(gz, f)]: read all of [src] and write the compressed stream
    body to the writer's descriptor, as one step. *)
Definition CopyGzip (gz : gzWriter) (src : nat) (w : World)
    : (gzWriter * option errno) * World :=
  match w_open w !! src, w_open w !! gz_dst gz with
  | Some hs, Some hd =>
      let data := contents hs w in
      let body := fst (w_gzip w data) in
      let gz' := {| gz_dst := gz_dst gz; gz_pending := snd (w_gzip w data) |} in
      let '(f, w) := next_fault w in
      match f with
      | Some ft =>
          let k := Nat.min (f_partial ft) (length body) in
          ((gz', Some (f_err ft)),
           log (put_bytes (gz_dst gz) hd (take k body) w)
               (SysCopyGzip (gz_dst gz) src k) (Some (f_err ft)))
      | None =>
          ((gz', None),
           log (put_bytes (gz_dst gz) hd body w)
               (SysCopyGzip (gz_dst gz) src (length body)) None)
      end
  | _, _ => ((gz, Some ErrClosed), w)
  end.

(** [gz.Close()]: flush the pending bytes; the descriptor stays open. *)
Definition GzipClose (gz : gzWriter) (w : World) : option errno * World :=
  match w_open w !! gz_dst gz with
  | Some hd =>
      let '(f, w) := next_fault w in
      match f with
      | Some ft =>
          let k := Nat.min (f_partial ft) (length (gz_pending gz)) in
          (Some (f_err ft),
           log (put_bytes (gz_dst gz) hd (take k (gz_pending gz)) w)
               (SysGzipClose (gz_dst gz) k) (Some (f_err ft)))
      | None =>
          (None,
           log (put_bytes (gz_dst gz) hd (gz_pending gz) w)
               (SysGzipClose (gz_dst gz) (length (gz_pending gz))) None)
      end
  | None => (Some ErrClosed, w)
  end.

(** Modelled from the spec: [chown(name, info)] is not among the sources.
    The spec describes it as preserving the source file's mode and
    ownership where resolvable, a silent no-op elsewhere: it changes no
    file contents and may fail. *)
Definition chown (name : string) (info : FileInfo) (w : World)
    : option errno * World :=
  let p := Filepath.Clean name in
  let '(f, w) := next_fault w in
  (f_err <$> f, log w (SysChown p) (f_err <$> f)).

(** [time.Now()] / [currentTime()]. *)
Definition Now (w : World) : GoTime.Time :=
  {| GoTime.unix_ns := w_now w; GoTime.loc := w_local w |}.

End OS.

(** ** Sequencing

    A Go method is a state transformer that returns a value or panics. *)

Inductive outcome (A : Type) :=
| Ret (a : A)
| Panic (msg : string).
Arguments Ret {A} a.
Arguments Panic {A} msg.

Definition M (S A : Type) : Type := S -> outcome A * S.

Definition ret {S A} (a : A) : M S A := fun s => (Ret a, s).

Definition bind {S A B} (m : M S A) (k : A -> M S B) : M S B :=
  fun s => match m s with
           | (Ret a, s') => k a s'
           | (Panic msg, s') => (Panic msg, s')
           end.

Definition panic {S A} (msg : string) : M S A := fun s => (Panic msg, s).

Declare Scope go_scope.
Delimit Scope go_scope with go.
Notation "x <- m ; k" := (bind m (fun x => k))
  (at level 20, m at level 100, k at level 200, only parsing) : go_scope.
Notation "' pat <- m ; k" := (bind m (fun x => match x with pat => k end))
  (at level 20, pat pattern, m at level 100, k at level 200, only parsing)
  : go_scope.

Section StateOps.
Context {R : Type}.

(** A receiver [R] together with the world it runs in. *)
Definition get_self : M (R * OS.World) R := fun s => (Ret (fst s), s).
Definition put_self (r : R) : M (R * OS.World) unit :=
  fun s => (Ret tt, (r, snd s)).
Definition get_world : M (R * OS.World) OS.World := fun s => (Ret (snd s), s).

(** Run a system call. *)
Definition sys {A} (f : OS.World -> A * OS.World) : M (R * OS.World) A :=
  fun s => let '(a, w') := f (snd s) in (Ret a, (fst s, w')).
End StateOps.

Open Scope go_scope.

(** ** The strategy-mode engine (lumberjack_roller.go) *)

Module Lumberjack.
Import GoStrings OS.

Definition RotateStrategy := Z.   (* int32 *)
Definition SizeRotateStrategy : RotateStrategy := 0.
Definition DirectRotateStrategy : RotateStrategy := 1.

Definition DefaultCompressSuffix : string := ".gz".

(** "2006-01-02T15-04-05.000" as cut by the layout scanner. *)
Definition DefaultBackupTimeFormat : GoTime.Layout :=
  [GoTime.stdLongYear; GoTime.Lit "-"; GoTime.stdZeroMonth; GoTime.Lit "-";
   GoTime.stdZeroDay; GoTime.Lit "T"; GoTime.stdHour; GoTime.Lit "-";
   GoTime.stdZeroMinute; GoTime.Lit "-"; GoTime.stdZeroSecond;
   GoTime.stdFracSecond0 3].

Record Options := {
  FileName : string;
  FileMaxAge : GoTime.Duration;
  FileMaxCount : Z;                      (* int *)
  MaxSize : Z;                           (* int64 *)
  Strategy : RotateStrategy;             (* field RotateStrategy *)
  FileMaxSize : Z;                       (* int64 *)
  Compress : bool;
  CompressSuffix : string;
  BackupTimeFormat : GoTime.Layout;
  BackupTimeLocation : option GoTime.Location   (* *time.Location, nil = None *)
}.

(** [NewOptions()] without option functions; [local] is [time.Local]. *)
Definition NewOptions (local : GoTime.Location) : Options :=
  {| FileName := ""; FileMaxAge := 0; FileMaxCount := 0; MaxSize := 0;
     Strategy := 0; FileMaxSize := 0; Compress := false;
     CompressSuffix := DefaultCompressSuffix;
     BackupTimeFormat := DefaultBackupTimeFormat;
     BackupTimeLocation := Some local |}.

(** The struct [LumberjackRoller]; the mutex is not represented (calls
    are sequential).  [millCh] is the buffered channel of capacity one:
    [None] while nil, [Some n] with [n] queued signals. *)
Record LumberjackRoller := {
  opts : Options;
  size : Z;                   (* int64 *)
  file : option nat;          (* *os.File, nil = None *)
  millCh : option nat;
  startMill : bool            (* sync.Once already done *)
}.

Definition State : Type := LumberjackRoller * World.

Definition set_size (r : LumberjackRoller) (n : Z) : LumberjackRoller :=
  {| opts := opts r; size := n; file := file r; millCh := millCh r;
     startMill := startMill r |}.
Definition set_file (r : LumberjackRoller) (f : option nat) : LumberjackRoller :=
  {| opts := opts r; size := size r; file := f; millCh := millCh r;
     startMill := startMill r |}.
Definition set_mill (r : LumberjackRoller) (ch : option nat) (started : bool)
    : LumberjackRoller :=
  {| opts := opts r; size := size r; file := file r; millCh := ch;
     startMill := started |}.

(** [logInfo]: a directory entry with the timestamp parsed from its
    name. *)
Record logInfo := { timestamp : GoTime.Time; info : FileInfo }.
Definition Name (f : logInfo) : string := fi_name (info f).
Definition Size (f : logInfo) : Z := fi_size (info f).

(** Note the trace entry of a method. *)
Definition enter (method : string) : M State unit :=
  fun s => (Ret tt, (fst s, record (snd s) (Call method))).

(** [r.file.Write(p)]; a nil receiver yields [os.ErrInvalid]. *)
Definition file_Write (f : option nat) (p : list Byte.byte)
    : M State (Z * option error) :=
  match f with
  | None => ret (0, Some (ErrOS ErrInvalid))
  | Some fd => '(n, e) <- sys (FdWrite fd p) ; ret (n, ErrOS <$> e)
  end.

(** [newFilename]. *)
Definition newFilename (r : LumberjackRoller) (w : World) : string :=
  if negb (bool_decide (FileName (opts r) = "")) then FileName (opts r)
  else
    let name := Filepath.Base (w_args0 w) +:+ "-lumberjack.log" in
    Filepath.Join (w_tmpdir w) name.

(** [dir]. *)
Definition dir (r : LumberjackRoller) (w : World) : string :=
  Filepath.Dir (newFilename r w).

(** [filename[:len(filename)-len(ext)]]; in range because [Ext] returns a
    suffix of its argument. *)
Definition cut_ext (filename ext : string) : string :=
  of_chars (take (length (chars filename) - length (chars ext))%nat
                 (chars filename)).

(** [prefixAndExt]. *)
Definition prefixAndExt (r : LumberjackRoller) (w : World) : string * string :=
  let filename := Filepath.Base (newFilename r w) in
  let ext := Filepath.Ext filename in
  let prefix := cut_ext filename ext +:+ "-" in
  (prefix, ext).

(** [backupName(name, l)]; [In] panics on a nil location. *)
Definition backupName (name : string) (l : option GoTime.Location)
    : M State string :=
  r <- get_self ;
  w <- get_world ;
  let dir := Filepath.Dir name in
  let filename := Filepath.Base name in
  let ext := Filepath.Ext filename in
  let prefix := cut_ext filename ext in
  match l with
  | None => panic "time: missing Location in call to Time.In"
  | Some l =>
      let t := GoTime.In (Now w) l in
      let timestamp := GoTime.Format t (BackupTimeFormat (opts r)) in
      ret (Filepath.Join dir (prefix +:+ "-" +:+ timestamp +:+ ext))
  end.

(** [mill]: start the worker once, then signal without blocking. *)
Definition mill : M State unit :=
  r <- get_self ;
  let r := if startMill r then r else set_mill r (Some 0%nat) true in
  match millCh r with
  | Some 0%nat => put_self (set_mill r (Some 1%nat) (startMill r))
  | _ => put_self r
  end.

(** [close]. *)
Definition close : M State (option error) :=
  r <- get_self ;
  match file r with
  | None => ret None
  | Some fd =>
      err <- sys (FdClose fd) ;
      r <- get_self ;
      _ <- put_self (set_file r None) ;
      ret (ErrOS <$> err)
  end.

Definition O_CREATE_WRONLY_TRUNC : flags :=
  {| O_CREATE := true; O_TRUNC := true; O_APPEND := false |}.
Definition O_APPEND_WRONLY : flags :=
  {| O_CREATE := false; O_TRUNC := false; O_APPEND := true |}.

(** [openNew]. *)
Definition openNew : M State (option error) :=
  r <- get_self ;
  w <- get_world ;
  err <- sys (MkdirAll (dir r w) 493 (* 0755 *)) ;
  match err with
  | Some e =>
      ret (Some (Errorf "can't make directories for new logfile: %w" []
                        (ErrOS e)))
  | None =>
      let name := newFilename r w in
      st <- sys (Stat name) ;
      moved <-
        match st with
        | inl info =>
            (* Copy the mode off the old logfile, move the existing file. *)
            newname <- backupName name (BackupTimeLocation (opts r)) ;
            err <- sys (Rename name newname) ;
            match err with
            | Some e =>
                ret (inr (Errorf "can't rename log file: %w" [] (ErrOS e)))
            | None =>
                err <- sys (chown name info) ;
                match err with
                | Some e => ret (inr (ErrOS e))
                | None => ret (inl (fi_mode info))
                end
            end
        | inr _ => ret (inl 384 (* 0600 *))
        end ;
      match moved with
      | inr e => ret (Some e)
      | inl mode =>
          f <- sys (OpenFile name O_CREATE_WRONLY_TRUNC mode) ;
          match f with
          | inr e =>
              ret (Some (Errorf "can't open new logfile: %w" [] (ErrOS e)))
          | inl fd =>
              r <- get_self ;
              _ <- put_self (set_size (set_file r (Some fd)) 0) ;
              ret None
          end
      end
  end.

(** [rotate]. *)
Definition rotate : M State (option error) :=
  _ <- enter "rotate" ;
  err <- close ;
  match err with
  | Some e => ret (Some e)
  | None =>
      err <- openNew ;
      match err with
      | Some e => ret (Some e)
      | None => _ <- mill ; ret None
      end
  end.

(** [Write]. *)
Definition Write (p : list Byte.byte) : M State (Z * option error) :=
  r <- get_self ;
  let writeLen := Z.of_nat (length p) in
  if (FileMaxSize (opts r) >? 0) && (writeLen >? FileMaxSize (opts r)) then
    ret (0, Some (Errorf "write length %d, max size %d: %w"
                         [writeLen; FileMaxSize (opts r)] ErrWriteTooLong))
  else if Strategy (opts r) =? SizeRotateStrategy then
    err <- (if add64 (size r) writeLen >? FileMaxSize (opts r)
            then rotate else ret None) ;
    match err with
    | Some e => ret (0, Some e)
    | None =>
        r <- get_self ;
        '(n, err) <- file_Write (file r) p ;
        r <- get_self ;
        _ <- put_self (set_size r (add64 (size r) n)) ;
        ret (n, err)
    end
  else if Strategy (opts r) =? DirectRotateStrategy then
    '(n, err) <- file_Write (file r) p ;
    r <- get_self ;
    _ <- put_self (set_size r (add64 (size r) n)) ;
    rerr <- rotate ;
    match rerr with
    | Some e => ret (0, Some e)
    | None => ret (n, err)
    end
  else ret (0, None).

(** [Close]. *)
Definition Close : M State (option error) := close.

(** [Rotate]. *)
Definition Rotate : M State (option error) := rotate.

(** [openExistingOrNew(writeLen)]. *)
Definition openExistingOrNew (writeLen : Z) : M State (option error) :=
  _ <- mill ;
  r <- get_self ;
  w <- get_world ;
  let filename := newFilename r w in
  st <- sys (Stat filename) ;
  match st with
  | inr e =>
      if IsNotExist e then openNew
      else ret (Some (Errorf "error getting log file info: %w" [] (ErrOS e)))
  | inl info =>
      if (Strategy (opts r) =? SizeRotateStrategy)
         && (add64 (fi_size info) writeLen >=? FileMaxSize (opts r))
      then rotate
      else if (Strategy (opts r) =? DirectRotateStrategy)
              && (fi_size info >? 0)
      then rotate
      else
        f <- sys (OpenFile filename O_APPEND_WRONLY 420 (* 0644 *)) ;
        match f with
        | inr _ => openNew
        | inl fd =>
            r <- get_self ;
            _ <- put_self (set_size (set_file r (Some fd)) (fi_size info)) ;
            ret None
        end
  end.

(** [NewLumberjackRollerFromOptions]: on success the new engine is the
    receiver of the resulting state. *)
Definition NewLumberjackRollerFromOptions (options : Options) (w : World)
    : outcome (option error) * State :=
  let r := {| opts := options; size := 0; file := None; millCh := None;
              startMill := false |} in
  if (Strategy options =? SizeRotateStrategy) && (FileMaxSize options <=? 0)
  then (Ret (Some (ErrNew "max size cannot be 0")), (r, w))
  else if bool_decide (FileName options = "")
  then (Ret (Some (ErrNew "filename cannot be empty")), (r, w))
  else
    (err <- openExistingOrNew 0 ;
     match err with
     | Some e => ret (Some (Errorf "can't open file: %w" [] e))
     | None => ret None
     end) (r, w).

(** *** Backup catalog *)

(** [timeFromName(filename, prefix, ext)]: the parsed time, an error, or
    the panic of an out-of-range slice expression. *)
Definition timeFromName (r : LumberjackRoller) (filename prefix ext : string)
    : outcome (GoTime.Time + error) :=
  if negb (HasPrefix filename prefix) then
    Ret (inr (ErrNew "mismatched prefix"))
  else if negb (HasSuffix filename ext) then
    Ret (inr (ErrNew "mismatched extension"))
  else
    match slice filename (len prefix) (len filename - len ext) with
    | None => Panic "slice bounds out of range"
    | Some ts =>
        match GoTime.Parse (BackupTimeFormat (opts r)) ts with
        | Some t => Ret (inl t)
        | None => Ret (inr (ErrNew "parsing time"))
        end
    end.

(** [byFormatTime.Less] on two elements. *)
Definition Less (a b : logInfo) : bool :=
  GoTime.After (timestamp a) (timestamp b).

(** [sort.Sort(byFormatTime(logFiles))].  Package [sort] promises a
    permutation ordered by [Less] and no stability; the model is the
    insertion sort it runs on short slices: each element moves left past
    the elements it is [Less] than.  [rp] is the sorted part, last element
    first. *)
Fixpoint sink (x : logInfo) (rp : list logInfo) : list logInfo :=
  match rp with
  | y :: rp' => if Less x y then y :: sink x rp' else x :: rp
  | [] => [x]
  end.

Definition sort_Sort (l : list logInfo) : list logInfo :=
  rev (fold_left (fun rp x => sink x rp) l []).

(** The loop body of [oldLogFiles] for one directory entry: the catalog
    entry it contributes, if any. *)
Definition classify (r : LumberjackRoller) (prefix ext : string)
    (f : FileInfo) : outcome (option logInfo) :=
  if fi_isdir f then Ret None
  else
    match timeFromName r (fi_name f) prefix ext with
    | Panic msg => Panic msg
    | Ret (inl t) => Ret (Some {| timestamp := t; info := f |})
    | Ret (inr _) =>
        match timeFromName r (fi_name f) prefix
                (ext +:+ CompressSuffix (opts r)) with
        | Panic msg => Panic msg
        | Ret (inl t) => Ret (Some {| timestamp := t; info := f |})
        | Ret (inr _) => Ret None
        end
    end.

Fixpoint collect (r : LumberjackRoller) (prefix ext : string)
    (files : list FileInfo) (logFiles : list logInfo)
    : outcome (list logInfo) :=
  match files with
  | [] => Ret logFiles
  | f :: files' =>
      match classify r prefix ext f with
      | Panic msg => Panic msg
      | Ret (Some li) => collect r prefix ext files' (logFiles ++ [li])
      | Ret None => collect r prefix ext files' logFiles
      end
  end.

(** [oldLogFiles]. *)
Definition oldLogFiles : M State (list logInfo + error) :=
  r <- get_self ;
  w <- get_world ;
  files <- sys (ReadDir (dir r w)) ;
  match files with
  | inr e =>
      ret (inr (Errorf "can't read log file directory: %w" [] (ErrOS e)))
  | inl files =>
      let '(prefix, ext) := prefixAndExt r w in
      match collect r prefix ext files [] with
      | Panic msg => panic msg
      | Ret logFiles => ret (inl (sort_Sort logFiles))
      end
  end.

(** *** Retention pass *)

(** The total-size loop: [(total, remove, remaining)] after each entry. *)
Definition size_step (maxSize : Z) (acc : Z * list logInfo * list logInfo)
    (f : logInfo) : Z * list logInfo * list logInfo :=
  let '(total, remove, remaining) := acc in
  let total := add64 total (Size f) in
  if total >? maxSize then (total, remove ++ [f], remaining)
  else (total, remove, remaining ++ [f]).

(** The count loop: [(preserved, remove, remaining)] after each entry. *)
Definition count_step (suffix : string) (maxCount : Z)
    (acc : gset string * list logInfo * list logInfo) (f : logInfo)
    : gset string * list logInfo * list logInfo :=
  let '(preserved, remove, remaining) := acc in
  (* Only count the uncompressed log file or the compressed log file,
     not both. *)
  let fn := TrimSuffix (Name f) suffix in
  let preserved := {[fn]} ∪ preserved in
  if Z.of_nat (base.size preserved) >? maxCount
  then (preserved, remove ++ [f], remaining)
  else (preserved, remove, remaining ++ [f]).

(** The age loop: [(remove, remaining)] after each entry. *)
Definition age_step (cutoff : GoTime.Time)
    (acc : list logInfo * list logInfo) (f : logInfo)
    : list logInfo * list logInfo :=
  let '(remove, remaining) := acc in
  if GoTime.Before (timestamp f) cutoff then (remove ++ [f], remaining)
  else (remove, remaining ++ [f]).

(** The three filters of [millRunOnce], each from the current [files]
    and [remove] to the next ones. *)
Definition size_filter (o : Options) (files remove : list logInfo)
    : list logInfo * list logInfo :=
  if MaxSize o >? 0 then
    let '(_, remove, remaining) :=
      fold_left (size_step (MaxSize o)) files (0, remove, []) in
    (remaining, remove)
  else (files, remove).

Definition count_filter (o : Options) (files remove : list logInfo)
    : list logInfo * list logInfo :=
  if (FileMaxCount o >? 0) && (FileMaxCount o <? Z.of_nat (length files))
  then
    let '(_, remove, remaining) :=
      fold_left (count_step (CompressSuffix o) (FileMaxCount o)) files
                (∅, remove, []) in
    (remaining, remove)
  else (files, remove).

Definition age_filter (o : Options) (now : GoTime.Time)
    (files remove : list logInfo) : list logInfo * list logInfo :=
  if FileMaxAge o >? 0 then
    let cutoff := GoTime.Add now (wrap64 (-1 * FileMaxAge o)) in
    let '(remove, remaining) :=
      fold_left (age_step cutoff) files (remove, []) in
    (remaining, remove)
  else (files, remove).

(** The selection part of [millRunOnce]: from the catalog to the pair
    [(compress, remove)]. *)
Definition select (o : Options) (now : GoTime.Time) (files : list logInfo)
    : list logInfo * list logInfo :=
  let '(files, remove) := size_filter o files [] in
  let '(files, remove) := count_filter o files remove in
  let '(files, remove) := age_filter o now files remove in
  let compress :=
    if Compress o
    then filter (fun f => negb (HasSuffix (Name f) (CompressSuffix o))) files
    else [] in
  (compress, remove).

Definition first_err (err new : option error) : option error :=
  match err, new with
  | None, Some e => Some e
  | _, _ => err
  end.

Definition O_CREATE_TRUNC_WRONLY : flags := O_CREATE_WRONLY_TRUNC.

(** The deferred calls of [compressLogFile] once all three are
    registered, in their order of execution: the clean-up closure,
    [gzf.Close()], [f.Close()].  [err] is the named result at the return
    statement. *)
Definition compress_return (dst : string) (f gzf : nat) (err : option error)
    : M State (option error) :=
  err <- match err with
         | Some e =>
             _ <- sys (Remove dst) ;
             ret (Some (Errorf "failed to compress log file: %w" [] e))
         | None => ret None
         end ;
  _ <- sys (FdClose gzf) ;
  _ <- sys (FdClose f) ;
  ret err.

(** [compressLogFile(src, dst)]. *)
Definition compressLogFile (src dst : string) : M State (option error) :=
  f <- sys (Open src) ;
  match f with
  | inr e => ret (Some (Errorf "failed to open log file: %w" [] (ErrOS e)))
  | inl f =>
      fi <- sys (Stat src) ;
      match fi with
      | inr e =>
          _ <- sys (FdClose f) ;
          ret (Some (Errorf "failed to stat log file: %w" [] (ErrOS e)))
      | inl fi =>
          err <- sys (chown dst fi) ;
          match err with
          | Some e =>
              _ <- sys (FdClose f) ;
              ret (Some (Errorf "failed to chown compressed log file: %w" []
                                (ErrOS e)))
          | None =>
              (* If this file already exists, we presume it was created
                 by a previous attempt to compress the log file. *)
              gzf <- sys (OpenFile dst O_CREATE_TRUNC_WRONLY (fi_mode fi)) ;
              match gzf with
              | inr e =>
                  _ <- sys (FdClose f) ;
                  ret (Some (Errorf "failed to open compressed log file: %w"
                                    [] (ErrOS e)))
              | inl gzf =>
                  w <- get_world ;
                  let gz := gzip_NewWriter gzf w in
                  '(gz, err) <- sys (CopyGzip gz f) ;
                  match err with
                  | Some e => compress_return dst f gzf (Some (ErrOS e))
                  | None =>
                  err <- sys (GzipClose gz) ;
                  match err with
                  | Some e => compress_return dst f gzf (Some (ErrOS e))
                  | None =>
                  err <- sys (FdClose gzf) ;
                  match err with
                  | Some e => compress_return dst f gzf (Some (ErrOS e))
                  | None =>
                  err <- sys (FdClose f) ;
                  match err with
                  | Some e => compress_return dst f gzf (Some (ErrOS e))
                  | None =>
                  err <- sys (Remove src) ;
                  match err with
                  | Some e => compress_return dst f gzf (Some (ErrOS e))
                  | None => compress_return dst f gzf None
                  end end end end end
              end
          end
      end
  end.

Fixpoint remove_all (names : list logInfo) (err : option error)
    : M State (option error) :=
  match names with
  | [] => ret err
  | f :: names' =>
      r <- get_self ;
      w <- get_world ;
      errRemove <- sys (Remove (Filepath.Join (dir r w) (Name f))) ;
      remove_all names' (first_err err (ErrOS <$> errRemove))
  end.

Fixpoint compress_all (names : list logInfo) (err : option error)
    : M State (option error) :=
  match names with
  | [] => ret err
  | f :: names' =>
      r <- get_self ;
      w <- get_world ;
      let fn := Filepath.Join (dir r w) (Name f) in
      errCompress <- compressLogFile fn (fn +:+ CompressSuffix (opts r)) ;
      compress_all names' (first_err err errCompress)
  end.

(** [millRunOnce]. *)
Definition millRunOnce : M State (option error) :=
  r <- get_self ;
  if (MaxSize (opts r) =? 0) && (FileMaxCount (opts r) =? 0)
     && (FileMaxAge (opts r) =? 0) && negb (Compress (opts r))
  then ret None
  else
    files <- oldLogFiles ;
    match files with
    | inr e => ret (Some e)
    | inl files =>
        w <- get_world ;
        let '(compress, remove) := select (opts r) (Now w) files in
        err <- remove_all remove None ;
        compress_all compress err
    end.

(** One iteration of the worker loop [millRun]: take a queued signal, if
    there is one, and run a pass; its error is dropped. *)
Definition millRun_step : M State unit :=
  r <- get_self ;
  match millCh r with
  | Some (S n) =>
      _ <- put_self (set_mill r (Some n) (startMill r)) ;
      _ <- millRunOnce ;
      ret tt
  | _ => ret tt
  end.

End Lumberjack.

(** ** The composable-predicate engine (roller.go, type [Roller]) *)

Module RollerV2.
Import GoStrings OS.

(** [RotateNameFunc]: the function may consult the environment (the
    default one reads the clock). *)
Definition RotateNameFunc := World -> string -> string.

Record Options := {
  Filename : string;
  Size : Z;                          (* int64 *)
  Duration : GoTime.Duration;
  RotateName : RotateNameFunc;
  LifecycleGlob : string;
  LifecycleSize : Z;
  LifecycleCount : Z;
  LifecycleDuration : GoTime.Duration
}.

(** State of the unbuffered channel [millCh]. *)
Inductive chan := ChNil | ChOpen | ChClosed.

(** The struct [Roller]; the mutex is not represented.  [fileShredder]
    only records whether the external shredder (and with it the worker
    goroutine) exists. *)
Record Roller := {
  options : Options;
  f : option nat;                    (* *os.File, nil = None *)
  size : Z;                          (* int64 *)
  createTime : GoTime.Time;
  millCh : chan;
  fileShredder : bool
}.

Definition State : Type := Roller * World.

Definition set_file (r : Roller) (fd : option nat) (sz : Z)
    (ct : GoTime.Time) : Roller :=
  {| options := options r; f := fd; size := sz; createTime := ct;
     millCh := millCh r; fileShredder := fileShredder r |}.
Definition set_size (r : Roller) (sz : Z) : Roller :=
  {| options := options r; f := f r; size := sz;
     createTime := createTime r; millCh := millCh r;
     fileShredder := fileShredder r |}.
Definition set_millCh (r : Roller) (c : chan) : Roller :=
  {| options := options r; f := f r; size := size r;
     createTime := createTime r; millCh := c;
     fileShredder := fileShredder r |}.

Definition enter (method : string) : M State unit :=
  fun s => (Ret tt, (fst s, record (snd s) (Call method))).

(** [r.f.Write(p)]; a nil receiver yields [os.ErrInvalid]. *)
Definition file_Write (fd : option nat) (p : list Byte.byte)
    : M State (Z * option error) :=
  match fd with
  | None => ret (0, Some (ErrOS ErrInvalid))
  | Some fd => '(n, e) <- sys (FdWrite fd p) ; ret (n, ErrOS <$> e)
  end.

(** [openNew]. *)
Definition openNew : M State (nat + error) :=
  r <- get_self ;
  err <- sys (MkdirAll (Filepath.Dir (Filename (options r))) 493) ;
  match err with
  | Some e => ret (inr (ErrOS e))
  | None =>
      fd <- sys (OpenFile (Filename (options r))
                   {| O_CREATE := true; O_TRUNC := true; O_APPEND := false |}
                   420) ;
      match fd with
      | inr e => ret (inr (ErrOS e))
      | inl fd => ret (inl fd)
      end
  end.

(** [openExist]. *)
Definition openExist : M State (nat + error) :=
  r <- get_self ;
  fd <- sys (OpenFile (Filename (options r))
               {| O_CREATE := false; O_TRUNC := false; O_APPEND := true |}
               420) ;
  match fd with
  | inr e => ret (inr (ErrOS e))
  | inl fd => ret (inl fd)
  end.

(** [open]. *)
Definition open : M State (option error) :=
  r <- get_self ;
  st <- sys (Stat (Filename (options r))) ;
  opened <-
    match st with
    | inl _ => fd <- openExist ; ret (inl fd)
    | inr e =>
        if IsNotExist e then fd <- openNew ; ret (inl fd)
        else ret (inr (ErrOS e))
    end ;
  match opened with
  | inr e => ret (Some e)
  | inl (inr e) => ret (Some e)
  | inl (inl fd) =>
      info <- sys (FdStat fd) ;
      match info with
      | inr e => ret (Some (ErrOS e))
      | inl info =>
          r <- get_self ;
          w <- get_world ;
          _ <- put_self
                 (set_file r (Some fd) (fi_size info)
                    {| GoTime.unix_ns := fi_modtime info;
                       GoTime.loc := w_local w |}) ;
          ret None
      end
  end.

(** [close]: the deferred function clears handle, size and creation time
    whatever [f.Close()] returns. *)
Definition close : M State (option error) :=
  r <- get_self ;
  match f r with
  | None => ret None
  | Some fd =>
      err <- sys (FdClose fd) ;
      r <- get_self ;
      _ <- put_self (set_file r None 0 GoTime.zeroTime) ;
      ret (ErrOS <$> err)
  end.

(** [mill]: a non-blocking send on [millCh].  On an open channel the
    signal reaches the worker if it is waiting and is dropped otherwise;
    a send on a closed channel panics, a nil channel is never ready. *)
Definition mill : M State unit :=
  r <- get_self ;
  match millCh r with
  | ChClosed => panic "send on closed channel"
  | _ => ret tt
  end.

(** [rotate]. *)
Definition rotate : M State (option error) :=
  _ <- enter "rotate" ;
  err <- close ;
  match err with
  | Some e => ret (Some e)
  | None =>
      r <- get_self ;
      w <- get_world ;
      let rotateName := RotateName (options r) w (Filename (options r)) in
      err <- sys (MkdirAll (Filepath.Dir rotateName) 493) ;
      match err with
      | Some e => ret (Some (ErrOS e))
      | None =>
          err <- sys (Rename (Filename (options r)) rotateName) ;
          match err with
          | Some e => ret (Some (ErrOS e))
          | None =>
              err <- open ;
              match err with
              | Some e => ret (Some e)
              | None => _ <- mill ; ret None
              end
          end
      end
  end.

(** [isRotate(writeLen)]. *)
Definition isRotate (r : Roller) (w : World) (writeLen : Z) : bool :=
  if (Size (options r) >? 0)
     && (add64 writeLen (size r) >? Size (options r))
  then true
  else if (Duration (options r) >? 0)
          && (GoTime.Sub (Now w) (createTime r) >? Duration (options r))
  then true
  else false.

(** [Write]. *)
Definition Write (p : list Byte.byte) : M State (Z * option error) :=
  r <- get_self ;
  let writeLen := Z.of_nat (length p) in
  if (Size (options r) >? 0) && (writeLen >? Size (options r)) then
    ret (0, Some (Errorf "write length %d, max size %d: %w"
                         [writeLen; Size (options r)] ErrWriteTooLong))
  else
    w <- get_world ;
    err <- (if isRotate r w writeLen then rotate else ret None) ;
    match err with
    | Some e => ret (0, Some e)
    | None =>
        r <- get_self ;
        '(n, err) <- file_Write (f r) p ;
        r <- get_self ;
        _ <- put_self (set_size r (add64 (size r) n)) ;
        ret (n, err)
    end.

(** [Close]: [close(r.millCh)] panics on a closed or nil channel. *)
Definition Close : M State (option error) :=
  r <- get_self ;
  match millCh r with
  | ChClosed => panic "close of closed channel"
  | ChNil => panic "close of nil channel"
  | ChOpen =>
      _ <- put_self (set_millCh r ChClosed) ;
      close
  end.

(** [Rotate]. *)
Definition Rotate : M State (option error) := rotate.

(** [NewRoller]: [shredder] is the result of the external
    [fileshredder.NewFileShredder] when the lifecycle options ask for
    one. *)
Definition NewRoller (opts : Options) (shredder : option error) (w : World)
    : outcome (option error) * State :=
  let r := {| options := opts; f := None; size := 0;
              createTime := GoTime.zeroTime; millCh := ChOpen;
              fileShredder := false |} in
  if bool_decide (Filename opts = "") then
    (Ret (Some (ErrNew "filename can not empty")), (r, w))
  else
    let wants :=
      negb (bool_decide (LifecycleGlob opts = ""))
      && (negb (LifecycleSize opts =? 0) || negb (LifecycleCount opts =? 0)
          || negb (LifecycleDuration opts =? 0)) in
    match wants, shredder with
    | true, Some e => (Ret (Some e), (r, w))
    | _, _ =>
        let r := {| options := opts; f := None; size := 0;
                    createTime := GoTime.zeroTime; millCh := ChOpen;
                    fileShredder := wants |} in
        open (r, w)
    end.

End RollerV2.

(** ** Sample configurations

    Concrete engines and worlds on which the general statements below are
    instantiated. *)

Module Scenario.
Import OS.

Definition zeros (n : nat) : list Byte.byte := repeat Byte.x00 n.

Definition regular (n : nat) : node :=
  {| n_isdir := false; n_mode := 420; n_data := zeros n; n_mtime := 0 |}.

(** An empty machine: no files, no faults, clock at 2016-11-04 18:30:00.007
    UTC, local time zone UTC, mask 022, a stand-in encoder that stores its
    input and appends an eight-byte trailer. *)
Definition world0 : World :=
  {| w_fs := ∅; w_open := ∅; w_nextfd := 3; w_faults := [];
     w_now := 1478284200007000000; w_local := GoTime.UTC;
     w_gzip := fun d => (d, zeros 8);
     w_args0 := "/bin/app"; w_tmpdir := "/tmp"; w_umask := 18 (* 022 *);
     w_trace := [] |}.

Definition with_faults (w : World) (fl : list (option fault)) : World :=
  set_faults w fl.

Definition with_files (w : World) (fs : gmap string node) : World :=
  set_fs w fs.

Definition fail_with (e : errno) : option fault :=
  Some {| f_err := e; f_partial := 0 |}.

(** Size strategy, 100 bytes per file, log at /var/log/app.log. *)
Definition size100 : Lumberjack.Options :=
  {| Lumberjack.FileName := "/var/log/app.log";
     Lumberjack.FileMaxAge := 0; Lumberjack.FileMaxCount := 0;
     Lumberjack.MaxSize := 0;
     Lumberjack.Strategy := Lumberjack.SizeRotateStrategy;
     Lumberjack.FileMaxSize := 100; Lumberjack.Compress := false;
     Lumberjack.CompressSuffix := Lumberjack.DefaultCompressSuffix;
     Lumberjack.BackupTimeFormat := Lumberjack.DefaultBackupTimeFormat;
     Lumberjack.BackupTimeLocation := Some GoTime.UTC |}.


(** Direct strategy, no size threshold. *)
Definition direct : Lumberjack.Options :=
  {| Lumberjack.FileName := "/var/log/app.log";
     Lumberjack.FileMaxAge := 0; Lumberjack.FileMaxCount := 0;
     Lumberjack.MaxSize := 0;
     Lumberjack.Strategy := Lumberjack.DirectRotateStrategy;
     Lumberjack.FileMaxSize := 0; Lumberjack.Compress := false;
     Lumberjack.CompressSuffix := Lumberjack.DefaultCompressSuffix;
     Lumberjack.BackupTimeFormat := Lumberjack.DefaultBackupTimeFormat;
     Lumberjack.BackupTimeLocation := Some GoTime.UTC |}.

(** A freshly built engine for [o] on the empty machine. *)
Definition fresh (o : Lumberjack.Options) : Lumberjack.State :=
  snd (Lumberjack.NewLumberjackRollerFromOptions o world0).

(** Composable engine: 100 bytes per file, no duration trigger, backups
    named after the clock. *)
Definition v2_size100 : RollerV2.Options :=
  {| RollerV2.Filename := "/var/log/app.log"; RollerV2.Size := 100;
     RollerV2.Duration := 0;
     RollerV2.RotateName := fun w _ => "/var/log/old/app.log";
     RollerV2.LifecycleGlob := ""; RollerV2.LifecycleSize := 0;
     RollerV2.LifecycleCount := 0; RollerV2.LifecycleDuration := 0 |}.

Definition v2_fresh (o : RollerV2.Options) : RollerV2.State :=
  snd (RollerV2.NewRoller o None world0).

(** Composable engine with both triggers: 100 bytes per file and one hour
    per file. *)
Definition v2_size100_hourly : RollerV2.Options :=
  {| RollerV2.Filename := "/var/log/app.log"; RollerV2.Size := 100;
     RollerV2.Duration := 3600 * 10^9;
     RollerV2.RotateName := fun w _ => "/var/log/old/app.log";
     RollerV2.LifecycleGlob := ""; RollerV2.LifecycleSize := 0;
     RollerV2.LifecycleCount := 0; RollerV2.LifecycleDuration := 0 |}.

(** The same machine when the clock reads [d] nanoseconds more. *)
Definition later (d : Z) (w : World) : World :=
  {| w_fs := w_fs w; w_open := w_open w; w_nextfd := w_nextfd w;
     w_faults := w_faults w; w_now := w_now w + d; w_local := w_local w;
     w_gzip := w_gzip w; w_args0 := w_args0 w; w_tmpdir := w_tmpdir w;
     w_umask := w_umask w; w_trace := w_trace w |}.

(** Retention: at most two backups, no other filter, no compression. *)
Definition count2 : Lumberjack.Options :=
  {| Lumberjack.FileName := "/var/log/app.log";
     Lumberjack.FileMaxAge := 0; Lumberjack.FileMaxCount := 2;
     Lumberjack.MaxSize := 0;
     Lumberjack.Strategy := Lumberjack.SizeRotateStrategy;
     Lumberjack.FileMaxSize := 100; Lumberjack.Compress := false;
     Lumberjack.CompressSuffix := Lumberjack.DefaultCompressSuffix;
     Lumberjack.BackupTimeFormat := Lumberjack.DefaultBackupTimeFormat;
     Lumberjack.BackupTimeLocation := Some GoTime.UTC |}.

Definition engine (o : Lumberjack.Options) : Lumberjack.LumberjackRoller :=
  {| Lumberjack.opts := o; Lumberjack.size := 0; Lumberjack.file := None;
     Lumberjack.millCh := None; Lumberjack.startMill := false |}.

(** The canonical file, three backups rotated on three consecutive days
    (T1 < T2 < T3), a foreign file and a subdirectory. *)
Definition backup_T1 : string := "/var/log/app-2016-11-01T00-00-00.000.log".
Definition backup_T2 : string := "/var/log/app-2016-11-02T00-00-00.000.log".
Definition backup_T3 : string := "/var/log/app-2016-11-03T00-00-00.000.log".

Definition three_backups : World :=
  with_files world0
    (<["/var/log/app.log" := regular 5]>
       (<[backup_T1 := regular 10]>
          (<[backup_T2 := regular 20]>
             (<[backup_T3 := regular 30]>
                (<["/var/log/notes.txt" := regular 1]>
                   (<["/var/log/archive" := new_dir 493 0]> ∅)))))).


(** A log file whose extension repeats the end of its base name, and a
    directory holding one other regular file. *)
Definition overlap_opts : Lumberjack.Options :=
  {| Lumberjack.FileName := "/d/my.log.log-x";
     Lumberjack.FileMaxAge := 0; Lumberjack.FileMaxCount := 2;
     Lumberjack.MaxSize := 0;
     Lumberjack.Strategy := Lumberjack.SizeRotateStrategy;
     Lumberjack.FileMaxSize := 100; Lumberjack.Compress := false;
     Lumberjack.CompressSuffix := Lumberjack.DefaultCompressSuffix;
     Lumberjack.BackupTimeFormat := Lumberjack.DefaultBackupTimeFormat;
     Lumberjack.BackupTimeLocation := Some GoTime.UTC |}.

Definition overlap_world : World :=
  with_files world0 (<["/d/my.log-x" := regular 1]> ∅).

End Scenario.

(** * Properties *)

(** ** Facts about strings and integers *)

Module GoStringsFacts.
Import GoStrings.

Lemma chars_of_chars l : chars (of_chars l) = l.
Proof. apply String.list_ascii_of_string_of_list_ascii. Qed.

Lemma of_chars_chars s : of_chars (chars s) = s.
Proof. apply String.string_of_list_ascii_of_string. Qed.

Lemma chars_inj s1 s2 : chars s1 = chars s2 -> s1 = s2.
Proof.
  intros H. rewrite <- (of_chars_chars s1), <- (of_chars_chars s2).
  now rewrite H.
Qed.

Lemma chars_app s1 s2 : chars (s1 +:+ s2) = chars s1 ++ chars s2.
Proof. induction s1 as [|a s1 IH]; simpl; [reflexivity|]. now f_equal. Qed.

Lemma len_app s1 s2 : len (s1 +:+ s2) = len s1 + len s2.
Proof. unfold len. rewrite chars_app, length_app. lia. Qed.

Lemma len_nonneg s : 0 <= len s.
Proof. unfold len. lia. Qed.

Lemma HasPrefix_true s p :
  HasPrefix s p = true <-> exists r, s = p +:+ r.
Proof.
  unfold HasPrefix. rewrite bool_decide_eq_true. split.
  - intros [k Hk]. exists (of_chars k). apply chars_inj.
    now rewrite chars_app, chars_of_chars.
  - intros [r ->]. exists (chars r). apply chars_app.
Qed.

Lemma HasSuffix_true s x :
  HasSuffix s x = true <-> exists r, s = r +:+ x.
Proof.
  unfold HasSuffix. rewrite bool_decide_eq_true. split.
  - intros [k Hk]. exists (of_chars k). apply chars_inj.
    now rewrite chars_app, chars_of_chars.
  - intros [r ->]. exists (chars r). apply chars_app.
Qed.

Lemma slice_middle p t x :
  slice (p +:+ t +:+ x) (len p) (len (p +:+ t +:+ x) - len x) = Some t.
Proof.
  unfold slice. rewrite !len_app.
  rewrite bool_decide_eq_true_2
    by (pose proof (len_nonneg p); pose proof (len_nonneg t);
        pose proof (len_nonneg x); lia).
  f_equal. apply chars_inj. rewrite chars_of_chars, !chars_app.
  unfold len. rewrite Nat2Z.id.
  rewrite drop_app_length.
  replace (Z.to_nat _) with (length (chars t)) by lia.
  now rewrite take_app_length.
Qed.

End GoStringsFacts.

Lemma wrap64_small z : min_int64 <= z <= max_int64 -> wrap64 z = z.
Proof.
  unfold wrap64, min_int64, max_int64. intros H.
  rewrite Z.mod_small by lia. lia.
Qed.


Lemma gtb_true a b : b < a -> (a >? b) = true.
Proof. intros H. apply Z.gtb_lt. lia. Qed.

Lemma gtb_false a b : a <= b -> (a >? b) = false.
Proof. intros H. rewrite Z.gtb_ltb. apply Z.ltb_ge. lia. Qed.

(** ** Facts about the operating system model *)

Module OSFacts.
Import OS.

Lemma put_bytes_trace fd h p w : w_trace (put_bytes fd h p w) = w_trace w.
Proof. unfold put_bytes. now destruct (w_fs w !! h_path h). Qed.

Lemma put_bytes_faults fd h p w : w_faults (put_bytes fd h p w) = w_faults w.
Proof. unfold put_bytes. now destruct (w_fs w !! h_path h). Qed.

End OSFacts.

(** ** Proof automation for the embedded methods *)

(** Unfold the sequencing operators of the embedding. *)
Ltac go_unfold :=
  unfold bind, ret, panic, get_self, put_self, get_world, sys,
    Lumberjack.enter, RollerV2.enter in *; simpl in *.

(** Split on the next scrutinee, in the goal or in a hypothesis. *)
Ltac go_cases :=
  repeat (first
    [ progress simplify_eq/=
    | case_match
    | match goal with
      | H : context [fmap _ ?x] |- _ => is_var x; destruct x
      | |- context [fmap _ ?x] => is_var x; destruct x
      end ]).

(** ** The write path never produces the oversize error by itself *)

Module LumberjackFacts.
Import GoStrings OS Lumberjack.

Lemma close_not_too_long s e s' :
  close s = (Ret (Some e), s') -> is_WriteTooLong e = false.
Proof.
  unfold close. go_unfold. intros H. go_cases; done.
Qed.

Lemma openNew_not_too_long s e s' :
  openNew s = (Ret (Some e), s') -> is_WriteTooLong e = false.
Proof.
  unfold openNew, backupName. go_unfold. intros H. go_cases; done.
Qed.

Lemma rotate_not_too_long s e s' :
  rotate s = (Ret (Some e), s') -> is_WriteTooLong e = false.
Proof.
  unfold rotate. go_unfold. intros H.
  destruct (close _) as [[[err|]|] s1] eqn:Hc; simplify_eq/=.
  - eauto using close_not_too_long.
  - destruct (openNew _) as [[[err|]|] s2] eqn:Ho; simplify_eq/=.
    + eauto using openNew_not_too_long.
    + unfold mill in H. go_unfold. go_cases.
Qed.

Lemma file_Write_not_too_long f p s n e s' :
  file_Write f p s = (Ret (n, Some e), s') -> is_WriteTooLong e = false.
Proof.
  unfold file_Write. go_unfold. intros H. go_cases; done.
Qed.

End LumberjackFacts.

Module RollerV2Facts.
Import GoStrings OS RollerV2.

Lemma v2_close_not_too_long s e s' :
  close s = (Ret (Some e), s') -> is_WriteTooLong e = false.
Proof. unfold close. go_unfold. intros H. go_cases; done. Qed.

Lemma v2_open_not_too_long s e s' :
  open s = (Ret (Some e), s') -> is_WriteTooLong e = false.
Proof.
  unfold open, openExist, openNew. go_unfold. intros H. go_cases; done.
Qed.

Lemma v2_rotate_not_too_long s e s' :
  rotate s = (Ret (Some e), s') -> is_WriteTooLong e = false.
Proof.
  unfold rotate. go_unfold. intros H.
  destruct (close _) as [[[err|]|] s1] eqn:Hc; simplify_eq/=.
  - eauto using v2_close_not_too_long.
  - destruct (MkdirAll _ _ _) as [[e1|] w1]; simplify_eq/=; [done|].
    destruct (Rename _ _ _) as [[e2|] w2]; simplify_eq/=; [done|].
    destruct (open _) as [[[err|]|] s2] eqn:Ho; simplify_eq/=.
    + eauto using v2_open_not_too_long.
    + unfold mill in H. go_unfold. go_cases.
Qed.

Lemma v2_file_Write_not_too_long f p s n e s' :
  file_Write f p s = (Ret (n, Some e), s') -> is_WriteTooLong e = false.
Proof. unfold file_Write. go_unfold. intros H. go_cases; done. Qed.

End RollerV2Facts.

(** ** Oversized writes (C2) *)

(** C2.  With a max size S > 0 configured, a write longer than S returns
    count 0 and an error that wraps the WriteTooLong sentinel, and leaves
    the whole machine state as it was: the engine (tracked size, handle),
    the file table, the open descriptors and the trace, so no rotation
    started, no system call was made and nothing was written.  Without a
    size threshold (S <= 0) no error returned by Write is the WriteTooLong
    error.  Both hold for both engine variants. *)
Theorem C2_oversize_write_rejected :
  (forall (r : Lumberjack.LumberjackRoller) (w : OS.World) (p : list Byte.byte),
      0 < Lumberjack.FileMaxSize (Lumberjack.opts r) ->
      Lumberjack.FileMaxSize (Lumberjack.opts r) < Z.of_nat (length p) ->
      exists e, Lumberjack.Write p (r, w) = (Ret (0, Some e), (r, w))
                /\ is_WriteTooLong e = true)
  /\ (forall (r : RollerV2.Roller) (w : OS.World) (p : list Byte.byte),
      0 < RollerV2.Size (RollerV2.options r) ->
      RollerV2.Size (RollerV2.options r) < Z.of_nat (length p) ->
      exists e, RollerV2.Write p (r, w) = (Ret (0, Some e), (r, w))
                /\ is_WriteTooLong e = true)
  /\ (forall (r : Lumberjack.LumberjackRoller) (w : OS.World) p n e s',
      Lumberjack.FileMaxSize (Lumberjack.opts r) <= 0 ->
      Lumberjack.Write p (r, w) = (Ret (n, Some e), s') ->
      is_WriteTooLong e = false)
  /\ (forall (r : RollerV2.Roller) (w : OS.World) p n e s',
      RollerV2.Size (RollerV2.options r) <= 0 ->
      RollerV2.Write p (r, w) = (Ret (n, Some e), s') ->
      is_WriteTooLong e = false).
Proof.
  repeat split.
  - intros r w p HS Hlen. unfold Lumberjack.Write. go_unfold.
    rewrite !gtb_true by lia. simpl. eauto.
  - intros r w p HS Hlen. unfold RollerV2.Write. go_unfold.
    rewrite !gtb_true by lia. simpl. eauto.
  - intros r w p n e s' HS. unfold Lumberjack.Write. go_unfold.
    rewrite (gtb_false _ 0) by lia.
    simpl. intros H.
    destruct (_ =? Lumberjack.SizeRotateStrategy).
    + destruct (add64 _ _ >? _).
      * destruct (Lumberjack.rotate _) as [[[err|]|] s1] eqn:Hr;
          simplify_eq/=.
        { eauto using LumberjackFacts.rotate_not_too_long. }
        destruct (Lumberjack.file_Write _ _ _) as [[[n1 e1]|] s2] eqn:Hw;
          simplify_eq/=.
        eauto using LumberjackFacts.file_Write_not_too_long.
      * destruct (Lumberjack.file_Write _ _ _) as [[[n1 e1]|] s2] eqn:Hw;
          simplify_eq/=.
        eauto using LumberjackFacts.file_Write_not_too_long.
    + destruct (_ =? Lumberjack.DirectRotateStrategy); [|simplify_eq/=].
      destruct (Lumberjack.file_Write _ _ _) as [[[n1 e1]|] s2] eqn:Hw;
        simplify_eq/=.
      destruct (Lumberjack.rotate _) as [[[err|]|] s3] eqn:Hr; simplify_eq/=.
      * eauto using LumberjackFacts.rotate_not_too_long.
      * eauto using LumberjackFacts.file_Write_not_too_long.
  - intros r w p n e s' HS. unfold RollerV2.Write. go_unfold.
    rewrite (gtb_false _ 0) by lia.
    simpl. intros H.
    destruct (RollerV2.isRotate _ _ _).
    + destruct (RollerV2.rotate _) as [[[err|]|] s1] eqn:Hr; simplify_eq/=.
      { eauto using RollerV2Facts.v2_rotate_not_too_long. }
      destruct (RollerV2.file_Write _ _ _) as [[[n1 e1]|] s2] eqn:Hw;
        simplify_eq/=.
      eauto using RollerV2Facts.v2_file_Write_not_too_long.
    + destruct (RollerV2.file_Write _ _ _) as [[[n1 e1]|] s2] eqn:Hw;
        simplify_eq/=.
      eauto using RollerV2Facts.v2_file_Write_not_too_long.
Qed.

Lemma C2_witness :
  let s := Scenario.fresh Scenario.size100 in
  exists e,
    Lumberjack.Write (Scenario.zeros 101) (s.1, s.2) = (Ret (0, Some e), (s.1, s.2))
    /\ is_WriteTooLong e = true.
Proof.
  apply (proj1 C2_oversize_write_rejected); vm_compute; reflexivity.
Defined.

(** ** Direct strategy: a failed rotation hides a completed write (C9) *)

Module DirectFacts.
Import GoStrings OS Lumberjack.

Lemma close_keeps_size s o s' :
  close s = (o, s') -> size s'.1 = size s.1 /\ opts s'.1 = opts s.1.
Proof. unfold close. go_unfold. intros H. go_cases; done. Qed.

Lemma openNew_fail_keeps_size s e s' :
  openNew s = (Ret (Some e), s') -> size s'.1 = size s.1.
Proof.
  unfold openNew, backupName. go_unfold. intros H. go_cases; done.
Qed.

Lemma rotate_fail_keeps_size s e s' :
  rotate s = (Ret (Some e), s') -> size s'.1 = size s.1.
Proof.
  unfold rotate. go_unfold. intros H.
  destruct (close _) as [[[err|]|] s1] eqn:Hc; simplify_eq/=.
  - apply close_keeps_size in Hc. simpl in Hc. tauto.
  - apply close_keeps_size in Hc. simpl in Hc.
    destruct (openNew _) as [[[err|]|] s2] eqn:Ho; simplify_eq/=.
    + apply openNew_fail_keeps_size in Ho. destruct s1; simpl in *.
      destruct Hc; congruence.
    + unfold mill in H. go_unfold. go_cases.
Qed.

Lemma file_Write_full f p r w r1 w1 :
  file_Write f p (r, w) = (Ret (Z.of_nat (length p), None), (r1, w1)) ->
  r1 = r /\ exists fd, f = Some fd
    /\ w_trace w1 = w_trace w ++ [Ev (SysWrite fd (length p)) None].
Proof.
  unfold file_Write, FdWrite, next_fault. go_unfold. intros H.
  go_cases; split; try done; eexists; split; try done;
    now rewrite OSFacts.put_bytes_trace.
Qed.

End DirectFacts.

(** C9.  Under the direct strategy, when the write to the file transfers
    all of [p] without error and the rotation that follows returns the error
    [e], [Write] returns count 0 together with [e]; yet the write system
    call for all [length p] bytes is in the trace, and the tracked size
    after the call is the old size plus [length p]. *)
Theorem C9_direct_failed_rotation_reports_zero
    (r : Lumberjack.LumberjackRoller) (w : OS.World) (p : list Byte.byte)
    (r1 : Lumberjack.LumberjackRoller) (w1 : OS.World) (e : error)
    (s2 : Lumberjack.State) :
  Lumberjack.Strategy (Lumberjack.opts r) = Lumberjack.DirectRotateStrategy ->
  ~ (0 < Lumberjack.FileMaxSize (Lumberjack.opts r)
     /\ Lumberjack.FileMaxSize (Lumberjack.opts r) < Z.of_nat (length p)) ->
  Lumberjack.file_Write (Lumberjack.file r) p (r, w)
    = (Ret (Z.of_nat (length p), None), (r1, w1)) ->
  Lumberjack.rotate
      (Lumberjack.set_size r1
         (add64 (Lumberjack.size r1) (Z.of_nat (length p))), w1)
    = (Ret (Some e), s2) ->
  Lumberjack.Write p (r, w) = (Ret (0, Some e), s2)
  /\ Lumberjack.size s2.1 = add64 (Lumberjack.size r) (Z.of_nat (length p))
  /\ exists fd, Lumberjack.file r = Some fd
       /\ OS.w_trace w1
          = OS.w_trace w ++ [OS.Ev (OS.SysWrite fd (length p)) None].
Proof.
  intros Hst Hacc Hw Hr.
  pose proof (DirectFacts.file_Write_full _ _ _ _ _ _ Hw) as [-> Hfd].
  split; [|split; [|exact Hfd]].
  - unfold Lumberjack.Write. go_unfold.
    replace ((Lumberjack.FileMaxSize (Lumberjack.opts r) >? 0)
             && (Z.of_nat (length p) >? Lumberjack.FileMaxSize (Lumberjack.opts r)))
      with false.
    2:{ symmetry. apply andb_false_iff.
        destruct (Z_lt_le_dec 0 (Lumberjack.FileMaxSize (Lumberjack.opts r)));
          [right|left]; apply gtb_false; lia. }
    rewrite Hst. simpl. rewrite Hw. simpl. rewrite Hr. reflexivity.
  - apply DirectFacts.rotate_fail_keeps_size in Hr. exact Hr.
Qed.

Lemma C9_witness :
  let s := Scenario.fresh Scenario.direct in
  let w := Scenario.with_faults s.2 [None; Scenario.fail_with EIO] in
  let p := Scenario.zeros 6 in
  let s1 := (Lumberjack.file_Write (Lumberjack.file s.1) p (s.1, w)).2 in
  let s2 := (Lumberjack.rotate
               (Lumberjack.set_size s1.1
                  (add64 (Lumberjack.size s1.1) (Z.of_nat (length p))),
                s1.2)).2 in
  Lumberjack.Write p (s.1, w) = (Ret (0, Some (ErrOS EIO)), s2)
  /\ Lumberjack.size s2.1 = add64 (Lumberjack.size s.1) (Z.of_nat (length p))
  /\ exists fd, Lumberjack.file s.1 = Some fd
       /\ OS.w_trace s1.2
          = OS.w_trace w ++ [OS.Ev (OS.SysWrite fd (length p)) None].
Proof.
  pose (s := Scenario.fresh Scenario.direct).
  pose (w := Scenario.with_faults s.2 [None; Scenario.fail_with EIO]).
  pose (p := Scenario.zeros 6).
  pose (s1 := (Lumberjack.file_Write (Lumberjack.file s.1) p (s.1, w)).2).
  apply (C9_direct_failed_rotation_reports_zero s.1 w p s1.1 s1.2
           (ErrOS EIO)).
  - reflexivity.
  - vm_compute. intros [H _]. discriminate H.
  - vm_compute. reflexivity.
  - vm_compute. reflexivity.
Defined.

(** ** Closing the composable engine twice (C10) *)

Module CloseFacts.
Import GoStrings OS RollerV2.

(** The states an engine built by [NewRoller] can be in before it is
    closed: writes and rotations in any order, whatever they return, with
    the environment free to change between calls. *)
Inductive live : State -> Prop :=
| live_new opts sh w s :
    NewRoller opts sh w = (Ret None, s) -> live s
| live_Write p s o s' : live s -> Write p s = (o, s') -> live s'
| live_Rotate s o s' : live s -> Rotate s = (o, s') -> live s'
| live_env r w w' : live (r, w) -> live (r, w').

Lemma open_keeps_millCh s o s' : open s = (o, s') -> millCh s'.1 = millCh s.1.
Proof.
  unfold open, openExist, openNew. go_unfold. intros H. go_cases; done.
Qed.

Lemma close_keeps_millCh s o s' : close s = (o, s') -> millCh s'.1 = millCh s.1.
Proof. unfold close. go_unfold. intros H. go_cases; done. Qed.

Lemma rotate_keeps_millCh s o s' :
  rotate s = (o, s') -> millCh s'.1 = millCh s.1.
Proof.
  unfold rotate. go_unfold. intros H.
  destruct (close _) as [[[err|]|] s1] eqn:Hc;
    apply close_keeps_millCh in Hc; simplify_eq/=; try congruence.
  destruct (MkdirAll _ _ _) as [[e1|] w1]; simplify_eq/=; [done|].
  destruct (Rename _ _ _) as [[e2|] w2]; simplify_eq/=; [done|].
  destruct (open _) as [[[err|]|] s2] eqn:Ho;
    apply open_keeps_millCh in Ho; simplify_eq/=; try congruence.
  unfold mill in H. go_unfold. go_cases; congruence.
Qed.

Lemma Write_keeps_millCh p s o s' :
  Write p s = (o, s') -> millCh s'.1 = millCh s.1.
Proof.
  unfold Write. go_unfold. intros H.
  destruct (_ && _); simplify_eq/=; [done|].
  destruct (isRotate _ _ _).
  - destruct (rotate _) as [[[err|]|] s1] eqn:Hr;
      apply rotate_keeps_millCh in Hr; simplify_eq/=; try done.
    unfold file_Write in H. go_unfold. go_cases; done.
  - unfold file_Write in H. go_unfold. go_cases; done.
Qed.

Lemma live_open s : live s -> millCh s.1 = ChOpen.
Proof.
  induction 1 as [opts sh w s Hnew|p s o s' _ IH Hw|s o s' _ IH Hr|r w w' _ IH].
  - unfold NewRoller in Hnew.
    destruct (bool_decide _); [simplify_eq/=|].
    destruct (_ && _), sh; simplify_eq/=;
      apply open_keeps_millCh in Hnew; exact Hnew.
  - apply Write_keeps_millCh in Hw. congruence.
  - apply rotate_keeps_millCh in Hr. congruence.
  - exact IH.
Qed.

End CloseFacts.

(** C10.  [Close] of the composable engine is not idempotent.  For every
    engine built by [NewRoller] and used through [Write] and [Rotate], once
    a first [Close] has returned (with or without an error from closing the
    file), a second [Close] panics with "close of closed channel": the first
    call closed [millCh] and the second closes it again unconditionally. *)
Theorem C10_second_Close_panics
    (s : RollerV2.State) (e : option error) (s' : RollerV2.State) :
  CloseFacts.live s ->
  RollerV2.Close s = (Ret e, s') ->
  RollerV2.millCh s'.1 = RollerV2.ChClosed
  /\ RollerV2.Close s' = (Panic "close of closed channel", s').
Proof.
  intros Hlive Hclose. apply CloseFacts.live_open in Hlive.
  unfold RollerV2.Close in Hclose. go_unfold. rewrite Hlive in Hclose.
  simpl in Hclose.
  assert (Hch : RollerV2.millCh s'.1 = RollerV2.ChClosed).
  { apply CloseFacts.close_keeps_millCh in Hclose. exact Hclose. }
  split; [exact Hch|].
  unfold RollerV2.Close. go_unfold. now rewrite Hch.
Qed.

Lemma C10_witness :
  let s := Scenario.v2_fresh Scenario.v2_size100 in
  let s' := (RollerV2.Close s).2 in
  RollerV2.millCh s'.1 = RollerV2.ChClosed
  /\ RollerV2.Close s' = (Panic "close of closed channel", s').
Proof.
  apply (C10_second_Close_panics
           (Scenario.v2_fresh Scenario.v2_size100) None).
  - apply (CloseFacts.live_new Scenario.v2_size100 None Scenario.world0).
    vm_compute. reflexivity.
  - vm_compute. reflexivity.
Defined.

(** ** File names, extensions and the catalog *)

Module FilepathFacts.
Import GoStrings GoStringsFacts Filepath.

Lemma ext_rev_spec r acc :
  ext_rev r acc = []
  \/ exists r1 r2, r = r1 ++ dot :: r2 /\ ext_rev r acc = dot :: rev r1 ++ acc.
Proof.
  revert acc. induction r as [|c r IH]; intros acc; simpl; [now left|].
  destruct (is_sep c); [now left|].
  destruct (bool_decide (c = dot)) eqn:Hc.
  - apply bool_decide_eq_true in Hc as ->. right. now exists [], r.
  - destruct (IH (c :: acc)) as [H|(r1 & r2 & -> & H)]; [now left|].
    right. exists (c :: r1), r2. split; [reflexivity|].
    rewrite H. simpl. now rewrite <- app_assoc.
Qed.

(** [Ext] returns a suffix of its argument that is empty or starts with a
    dot. *)
Lemma Ext_spec p :
  exists stem, chars p = stem ++ chars (Ext p)
    /\ (chars (Ext p) = [] \/ exists t, chars (Ext p) = dot :: t).
Proof.
  unfold Ext. rewrite chars_of_chars.
  destruct (ext_rev_spec (rev (chars p)) []) as [H|(r1 & r2 & Hr & H)];
    rewrite H.
  - exists (chars p). rewrite app_nil_r. auto.
  - exists (rev r2). split; [|right; eauto].
    rewrite app_nil_r. rewrite <- (rev_involutive (chars p)), Hr.
    rewrite rev_app_distr. simpl. now rewrite <- app_assoc.
Qed.

End FilepathFacts.

Module CatalogFacts.
Import GoStrings GoStringsFacts OS Lumberjack.

Lemma cut_ext_Ext filename :
  chars filename = chars (cut_ext filename (Filepath.Ext filename))
                     ++ chars (Filepath.Ext filename).
Proof.
  destruct (FilepathFacts.Ext_spec filename) as (stem & Hs & _).
  unfold cut_ext. rewrite chars_of_chars. rewrite Hs at 1 2 3.
  rewrite length_app, Nat.add_sub, take_app_length. reflexivity.
Qed.

(** The canonical file name does not start with the backup prefix. *)
Lemma canonical_no_prefix filename :
  HasPrefix filename (cut_ext filename (Filepath.Ext filename) +:+ "-") = false.
Proof.
  apply not_true_is_false. intros [k Hk]%HasPrefix_true.
  apply (f_equal chars) in Hk. rewrite !chars_app in Hk.
  rewrite (cut_ext_Ext filename) in Hk at 1.
  rewrite <- app_assoc in Hk. apply app_inv_head in Hk.
  destruct (FilepathFacts.Ext_spec filename) as (_ & _ & [He|[t He]]);
    rewrite He in Hk; discriminate Hk.
Qed.

Lemma timeFromName_canonical r w ext' :
  timeFromName r (Filepath.Base (newFilename r w)) (prefixAndExt r w).1 ext'
  = Ret (inr (ErrNew "mismatched prefix")).
Proof.
  unfold timeFromName, prefixAndExt. cbn [fst snd].
  now rewrite canonical_no_prefix.
Qed.

Lemma classify_canonical r w f :
  fi_name f = Filepath.Base (newFilename r w) ->
  classify r (prefixAndExt r w).1 (prefixAndExt r w).2 f = Ret None.
Proof.
  intros Hn. unfold classify. destruct (fi_isdir f); [reflexivity|].
  rewrite Hn, !timeFromName_canonical. reflexivity.
Qed.

Lemma classify_info r prefix ext f li :
  classify r prefix ext f = Ret (Some li) -> info li = f.
Proof. unfold classify. intros H. go_cases; done. Qed.

(** What [classify] keeps of an entry, panics aside. *)
Definition kept (r : LumberjackRoller) (prefix ext : string) (f : FileInfo)
    : option logInfo :=
  match classify r prefix ext f with
  | Ret o => o
  | Panic _ => None
  end.

Lemma collect_inv r prefix ext files acc l :
  collect r prefix ext files acc = Ret l ->
  l = acc ++ omap (kept r prefix ext) files.
Proof.
  revert acc. induction files as [|f files IH]; intros acc; simpl.
  - intros [= <-]. now rewrite app_nil_r.
  - unfold kept at 1.
    destruct (classify r prefix ext f) as [[li|]|msg]; [| |discriminate].
    + intros H. apply IH in H. now rewrite <- app_assoc in H.
    + apply IH.
Qed.

Lemma collect_Ret r prefix ext files acc :
  Forall (fun f => exists o, classify r prefix ext f = Ret o) files ->
  collect r prefix ext files acc = Ret (acc ++ omap (kept r prefix ext) files).
Proof.
  intros H. revert acc. induction H as [|f files [o Ho] _ IH]; intros acc; simpl.
  - now rewrite app_nil_r.
  - unfold kept at 1. rewrite Ho. destruct o as [li|].
    + rewrite IH. now rewrite <- app_assoc.
    + apply IH.
Qed.

Lemma sink_perm x rp : sink x rp ≡ₚ x :: rp.
Proof.
  induction rp as [|y rp IH]; simpl; [reflexivity|].
  destruct (Less x y); [|reflexivity].
  rewrite IH. apply Permutation_swap.
Qed.

Lemma sort_fold_perm l rp :
  fold_left (fun rp x => sink x rp) l rp ≡ₚ rp ++ l.
Proof.
  revert rp. induction l as [|x l IH]; intros rp; simpl.
  - now rewrite app_nil_r.
  - rewrite IH, sink_perm. simpl. apply Permutation_middle.
Qed.

(** [sort.Sort] permutes. *)
Lemma sort_Sort_perm l : sort_Sort l ≡ₚ l.
Proof.
  unfold sort_Sort. rewrite <- Permutation_rev. rewrite sort_fold_perm. reflexivity.
Qed.

Lemma size_fold_perm m files t rm rem t' rm' rem' :
  fold_left (size_step m) files (t, rm, rem) = (t', rm', rem') ->
  rm' ++ rem' ≡ₚ rm ++ rem ++ files.
Proof.
  revert t rm rem. induction files as [|f files IH]; intros t rm rem; simpl.
  - intros [= <- <- <-]. now rewrite app_nil_r.
  - destruct (add64 t (Size f) >? m); intros H; apply IH in H; rewrite H.
    + rewrite <- !app_assoc. apply Permutation_app_head. simpl.
      apply Permutation_middle.
    + rewrite <- !app_assoc. reflexivity.
Qed.

Lemma count_fold_perm sfx m files ps rm rem ps' rm' rem' :
  fold_left (count_step sfx m) files (ps, rm, rem) = (ps', rm', rem') ->
  rm' ++ rem' ≡ₚ rm ++ rem ++ files.
Proof.
  revert ps rm rem. induction files as [|f files IH]; intros ps rm rem; simpl.
  - intros [= <- <- <-]. now rewrite app_nil_r.
  - destruct (_ >? m); intros H; apply IH in H; rewrite H.
    + rewrite <- !app_assoc. apply Permutation_app_head. simpl.
      apply Permutation_middle.
    + rewrite <- !app_assoc. reflexivity.
Qed.

Lemma age_fold_perm cutoff files rm rem rm' rem' :
  fold_left (age_step cutoff) files (rm, rem) = (rm', rem') ->
  rm' ++ rem' ≡ₚ rm ++ rem ++ files.
Proof.
  revert rm rem. induction files as [|f files IH]; intros rm rem; simpl.
  - intros [= <- <-]. now rewrite app_nil_r.
  - destruct (GoTime.Before _ _); intros H; apply IH in H; rewrite H.
    + rewrite <- !app_assoc. apply Permutation_app_head. simpl.
      apply Permutation_middle.
    + rewrite <- !app_assoc. reflexivity.
Qed.

Lemma size_filter_perm o files rm files' rm' :
  size_filter o files rm = (files', rm') -> rm' ++ files' ≡ₚ rm ++ files.
Proof.
  unfold size_filter. destruct (MaxSize o >? 0); [|now intros [= <- <-]].
  destruct (fold_left _ _ _) as [[t r1] r2] eqn:E. intros [= <- <-].
  apply size_fold_perm in E. now rewrite E.
Qed.

Lemma count_filter_perm o files rm files' rm' :
  count_filter o files rm = (files', rm') -> rm' ++ files' ≡ₚ rm ++ files.
Proof.
  unfold count_filter. destruct (_ && _); [|now intros [= <- <-]].
  destruct (fold_left _ _ _) as [[t r1] r2] eqn:E. intros [= <- <-].
  apply count_fold_perm in E. now rewrite E.
Qed.

Lemma age_filter_perm o now files rm files' rm' :
  age_filter o now files rm = (files', rm') -> rm' ++ files' ≡ₚ rm ++ files.
Proof.
  unfold age_filter. destruct (FileMaxAge o >? 0); [|now intros [= <- <-]].
  destruct (fold_left _ _ _) as [r1 r2] eqn:E. intros [= <- <-].
  apply age_fold_perm in E. now rewrite E.
Qed.

(** Whatever [select] picks comes from the catalog. *)
Lemma select_from_catalog o now files compress remove x :
  select o now files = (compress, remove) ->
  x ∈ compress ++ remove -> x ∈ files.
Proof.
  unfold select.
  destruct (size_filter o files []) as [f1 r1] eqn:E1.
  destruct (count_filter o f1 r1) as [f2 r2] eqn:E2.
  destruct (age_filter o now f2 r2) as [f3 r3] eqn:E3.
  intros [= <- <-] Hx.
  apply size_filter_perm in E1. apply count_filter_perm in E2.
  apply age_filter_perm in E3. simpl in E1.
  assert (Hin : x ∈ r3 ++ f3).
  { apply elem_of_app in Hx as [Hx|Hx]; apply elem_of_app; [right|now left].
    destruct (Compress o); [|now apply elem_of_nil in Hx].
    now apply list_elem_of_filter in Hx as [_ Hx]. }
  rewrite E3, E2, E1 in Hin. exact Hin.
Qed.

End CatalogFacts.

(** ** The canonical file is never a backup (C8) *)

Module CanonicalFacts.
Import GoStrings GoStringsFacts OS Lumberjack CatalogFacts.

Lemma oldLogFiles_inv r w files s' :
  oldLogFiles (r, w) = (Ret (inl files), s') ->
  exists entries,
    files ≡ₚ omap (kept r (prefixAndExt r w).1 (prefixAndExt r w).2) entries.
Proof.
  unfold oldLogFiles. go_unfold.
  destruct (ReadDir _ _) as [[entries|e] w1]; [|discriminate].
  destruct (collect _ _ _ _ _) as [l|msg] eqn:Hc; [|discriminate].
  intros [= <- <-]. apply collect_inv in Hc. simpl in Hc. subst l.
  exists entries. apply sort_Sort_perm.
Qed.

Lemma catalog_excludes_canonical r w files s' :
  oldLogFiles (r, w) = (Ret (inl files), s') ->
  Forall (fun x => Name x <> Filepath.Base (newFilename r w)) files.
Proof.
  intros (entries & Hp)%oldLogFiles_inv. rewrite Hp.
  apply Forall_forall. intros x (f & Hf & Hk)%list_elem_of_omap Hname.
  unfold kept in Hk.
  destruct (classify _ _ _ f) as [o|] eqn:Hc; [|discriminate]. subst o.
  pose proof (classify_info _ _ _ _ _ Hc) as Hinfo.
  rewrite classify_canonical in Hc; [discriminate|].
  unfold Name in Hname. now rewrite Hinfo in Hname.
Qed.

End CanonicalFacts.

(** C8.  The canonical file name never parses as a backup name: it does not
    start with the backup prefix (base name without extension, then "-"),
    whatever extension is tried.  Hence no entry of the catalog that
    [oldLogFiles] returns carries the canonical name, and neither does any
    entry that the retention pass selects for compression or for removal
    from that catalog, for every configuration, directory content and
    clock. *)
Theorem C8_canonical_file_never_selected :
  (forall (r : Lumberjack.LumberjackRoller) (w : OS.World) (ext' : string),
      Lumberjack.timeFromName r
        (Filepath.Base (Lumberjack.newFilename r w))
        (Lumberjack.prefixAndExt r w).1 ext'
      = Ret (inr (ErrNew "mismatched prefix")))
  /\ (forall (r : Lumberjack.LumberjackRoller) (w : OS.World) files s' now
             compress remove,
      Lumberjack.oldLogFiles (r, w) = (Ret (inl files), s') ->
      Lumberjack.select (Lumberjack.opts r) now files = (compress, remove) ->
      Forall (fun x => Lumberjack.Name x
                       <> Filepath.Base (Lumberjack.newFilename r w))
             (files ++ compress ++ remove)).
Proof.
  split.
  - intros. apply CatalogFacts.timeFromName_canonical.
  - intros r w files s' now compress remove Hcat Hsel.
    pose proof (CanonicalFacts.catalog_excludes_canonical _ _ _ _ Hcat) as Hf.
    apply Forall_app. split; [exact Hf|].
    apply Forall_forall. intros x Hx.
    eapply (proj1 (Forall_forall _ _) Hf).
    eapply CatalogFacts.select_from_catalog; eauto.
Qed.

Lemma C8_witness :
  let r := Scenario.engine Scenario.count2 in
  let w := Scenario.three_backups in
  let files :=
    match (Lumberjack.oldLogFiles (r, w)).1 with
    | Ret (inl l) => l
    | _ => []
    end in
  let sel := Lumberjack.select (Lumberjack.opts r) (OS.Now w) files in
  length sel.2 = 1%nat
  /\ Forall (fun x => Lumberjack.Name x
                      <> Filepath.Base (Lumberjack.newFilename r w))
            (files ++ sel.1 ++ sel.2).
Proof.
  split; [vm_compute; reflexivity|].
  pose (r := Scenario.engine Scenario.count2).
  pose (w := Scenario.three_backups).
  pose (out := Lumberjack.oldLogFiles (r, w)).
  pose (files := match out.1 with Ret (inl l) => l | _ => [] end).
  pose (sel := Lumberjack.select (Lumberjack.opts r) (OS.Now w) files).
  apply (proj2 C8_canonical_file_never_selected r w files out.2 (OS.Now w)
           sel.1 sel.2).
  - vm_compute. reflexivity.
  - vm_compute. reflexivity.
Defined.
(** ** The count filter (C4) *)

Module CountFacts.
Import GoStrings OS Lumberjack.

(** The logical backup an entry belongs to: its name without the
    compression suffix. *)
Definition logical (suffix : string) (f : logInfo) : string :=
  TrimSuffix (Name f) suffix.

(** Number of distinct logical backups among [files]. *)
Definition distinct (suffix : string) (files : list logInfo) : nat :=
  base.size (list_to_set (logical suffix <$> files) : gset string).

Lemma distinct_nil suffix : distinct suffix [] = 0%nat.
Proof. unfold distinct. now rewrite fmap_nil, list_to_set_nil, size_empty. Qed.

Lemma distinct_mono suffix l l' : (distinct suffix l <= distinct suffix (l ++ l'))%nat.
Proof.
  unfold distinct. apply subseteq_size. rewrite fmap_app, list_to_set_app_L.
  set_solver.
Qed.

Lemma distinct_le_length suffix l : (distinct suffix l <= length l)%nat.
Proof.
  unfold distinct. induction l as [|f l IH].
  - rewrite fmap_nil, list_to_set_nil, size_empty. simpl. lia.
  - rewrite fmap_cons, list_to_set_cons, size_union_alt, size_singleton.
    rewrite length_cons.
    assert (base.size (list_to_set (logical suffix <$> l) ∖ {[logical suffix f]}
                         : gset string)
            <= base.size (list_to_set (logical suffix <$> l) : gset string))%nat
      by (apply subseteq_size; set_solver).
    lia.
Qed.

Lemma count_fold_split suffix C files seen rm rem :
  exists k,
    fold_left (count_step suffix C) files
      (list_to_set (logical suffix <$> seen), rm, rem)
    = (list_to_set (logical suffix <$> (seen ++ files)),
       rm ++ (if decide (Z.of_nat (distinct suffix seen) <= C) then drop k files
              else files),
       rem ++ (if decide (Z.of_nat (distinct suffix seen) <= C) then take k files
               else []))
    /\ (forall i, (i < k)%nat ->
          Z.of_nat (distinct suffix (seen ++ take (S i) files)) <= C)
    /\ (forall i, (k <= i < length files)%nat ->
          C < Z.of_nat (distinct suffix (seen ++ take (S i) files)))
    /\ (~ Z.of_nat (distinct suffix seen) <= C -> k = 0%nat).
Proof.
  revert seen rm rem. induction files as [|f files IH]; intros seen rm rem.
  - exists 0%nat. simpl.
    split; [destruct (decide _); simpl; now rewrite !app_nil_r|].
    repeat split; intros; lia.
  - simpl. fold (logical suffix f).
    replace ({[logical suffix f]} ∪ list_to_set (logical suffix <$> seen))
      with (list_to_set (logical suffix <$> (seen ++ [f])) : gset string)
      by (rewrite fmap_app, list_to_set_app_L; simpl; set_solver).
    fold (distinct suffix (seen ++ [f])).
    destruct (IH (seen ++ [f]) (rm ++ [f]) rem) as (k1 & E1 & Hlo1 & Hhi1 & Hz1).
    destruct (IH (seen ++ [f]) rm (rem ++ [f])) as (k2 & E2 & Hlo2 & Hhi2 & Hz2).
    pose proof (distinct_mono suffix seen [f]) as Hmono.
    destruct (Z.of_nat (distinct suffix (seen ++ [f])) >? C) eqn:Hgt.
    + apply Z.gtb_lt in Hgt.
      rewrite E1. destruct (decide (_ (distinct suffix (seen ++ [f])) <= C));
        [lia|]. rewrite <- !app_assoc. simpl.
      exists 0%nat. destruct (decide (Z.of_nat (distinct suffix seen) <= C)).
      * simpl. rewrite app_nil_r. repeat split; try (intros; lia).
        intros i Hi. pose proof (distinct_mono suffix (seen ++ [f])
                                   (take i files)).
        rewrite <- app_assoc in H. simpl in H. lia.
      * rewrite app_nil_r. repeat split; try (intros; lia).
        intros i Hi. pose proof (distinct_mono suffix (seen ++ [f])
                                   (take i files)).
        rewrite <- app_assoc in H. simpl in H. lia.
    + assert (Hle : Z.of_nat (distinct suffix (seen ++ [f])) <= C).
      { rewrite Z.gtb_ltb in Hgt. apply Z.ltb_ge in Hgt. lia. }
      rewrite E2. destruct (decide (_ (distinct suffix (seen ++ [f])) <= C));
        [|lia]. rewrite <- !app_assoc. simpl.
      exists (S k2). destruct (decide (Z.of_nat (distinct suffix seen) <= C));
        [|lia]. simpl. repeat split; try (intros; lia).
      * intros [|i] Hi; simpl.
        { now rewrite take_0. }
        specialize (Hlo2 i ltac:(lia)). now rewrite <- app_assoc in Hlo2.
      * intros [|i] Hi; [lia|]. simpl.
        specialize (Hhi2 i ltac:(lia)). now rewrite <- app_assoc in Hhi2.
Qed.

End CountFacts.

(** C4.  With a max backup count C > 0 the count filter walks the catalog
    in its order (newest first) and keeps a running count of distinct
    logical backups, an entry and its compressed counterpart sharing one
    logical name (the name without the compression suffix).  There is a
    position [k] such that the first [k] entries stay and all later ones are
    appended to the removal list; for each entry that stays the distinct
    count up to and including it is at most C, and for each removed entry it
    exceeds C.  On the sample directory with C = 2 and backups of times
    T1 < T2 < T3 one pass removes exactly the backup of T1: the catalog then
    lists the backups of T3 and T2. *)
Theorem C4_count_filter_keeps_newest :
  (forall (o : Lumberjack.Options) (files rm : list Lumberjack.logInfo),
      0 < Lumberjack.FileMaxCount o ->
      exists k,
        Lumberjack.count_filter o files rm = (take k files, rm ++ drop k files)
        /\ (forall i, (i < k)%nat ->
              Z.of_nat (CountFacts.distinct (Lumberjack.CompressSuffix o)
                          (take (S i) files))
              <= Lumberjack.FileMaxCount o)
        /\ (forall i, (k <= i < length files)%nat ->
              Lumberjack.FileMaxCount o
              < Z.of_nat (CountFacts.distinct (Lumberjack.CompressSuffix o)
                            (take (S i) files))))
  /\ (let before := (Scenario.engine Scenario.count2, Scenario.three_backups) in
      let after := (Lumberjack.millRunOnce before).2 in
      (Lumberjack.millRunOnce before).1 = Ret None
      /\ OS.w_fs after.2
         = delete Scenario.backup_T1 (OS.w_fs Scenario.three_backups)
      /\ (Lumberjack.oldLogFiles after).1
         = Ret (inl [ {| Lumberjack.timestamp :=
                           {| GoTime.unix_ns := 1478131200 * 10^9;
                              GoTime.loc := GoTime.UTC |};
                         Lumberjack.info :=
                           OS.info_of "app-2016-11-03T00-00-00.000.log"
                             (Scenario.regular 30) |};
                      {| Lumberjack.timestamp :=
                           {| GoTime.unix_ns := 1478044800 * 10^9;
                              GoTime.loc := GoTime.UTC |};
                         Lumberjack.info :=
                           OS.info_of "app-2016-11-02T00-00-00.000.log"
                             (Scenario.regular 20) |} ])).
Proof.
  split.
  - intros o files rm HC. unfold Lumberjack.count_filter.
    rewrite gtb_true by lia. simpl.
    destruct (Lumberjack.FileMaxCount o <? Z.of_nat (length files)) eqn:Hlen.
    + destruct (CountFacts.count_fold_split (Lumberjack.CompressSuffix o)
                  (Lumberjack.FileMaxCount o) files [] rm [])
        as (k & E & Hlo & Hhi & _).
      rewrite CountFacts.distinct_nil in E.
      rewrite !decide_True in E by lia.
      rewrite fmap_nil, list_to_set_nil, !app_nil_l in E. rewrite E.
      exists k. split; [reflexivity|]. split; [exact Hlo|exact Hhi].
    + apply Z.ltb_ge in Hlen. exists (length files).
      rewrite firstn_all, drop_all, app_nil_r. repeat split; [|intros; lia].
      intros i Hi.
      pose proof (CountFacts.distinct_le_length (Lumberjack.CompressSuffix o)
                    (take (S i) files)) as Hd.
      rewrite length_take in Hd. lia.
  - cbv zeta. repeat apply conj; vm_compute; reflexivity.
Qed.

Lemma C4_witness :
  let files :=
    match (Lumberjack.oldLogFiles
             (Scenario.engine Scenario.count2, Scenario.three_backups)).1 with
    | Ret (inl l) => l
    | _ => []
    end in
  exists k,
    Lumberjack.count_filter Scenario.count2 files [] = (take k files, [] ++ drop k files)
    /\ (forall i, (i < k)%nat ->
          Z.of_nat (CountFacts.distinct ".gz" (take (S i) files)) <= 2)
    /\ (forall i, (k <= i < length files)%nat ->
          2 < Z.of_nat (CountFacts.distinct ".gz" (take (S i) files))).
Proof.
  apply (proj1 C4_count_filter_keeps_newest Scenario.count2). reflexivity.
Defined.

(** ** Traces of the write path *)

Module TraceFacts.
Import GoStrings OS.

Definition is_syscall (e : event) : Prop :=
  match e with Ev _ _ => True | Call _ => False end.

(** [w'] continues [w] by system calls only. *)
Definition extends (w w' : World) : Prop :=
  exists evs, w_trace w' = w_trace w ++ evs /\ Forall is_syscall evs.

Lemma extends_refl w : extends w w.
Proof. exists []. now rewrite app_nil_r. Qed.

Lemma extends_trans w1 w2 w3 : extends w1 w2 -> extends w2 w3 -> extends w1 w3.
Proof.
  intros (e1 & H1 & F1) (e2 & H2 & F2). exists (e1 ++ e2).
  rewrite H2, H1, app_assoc. split; [reflexivity|]. now apply Forall_app.
Qed.

Lemma extends_same w w' : w_trace w' = w_trace w -> extends w w'.
Proof. intros H. exists []. now rewrite app_nil_r. Qed.

Lemma extends_log w w' c e :
  w_trace w' = w_trace w -> extends w (log w' c e).
Proof.
  intros H. exists [Ev c e]. simpl. rewrite H. split; [reflexivity|].
  repeat constructor.
Qed.

Lemma next_fault_trace w f w' : next_fault w = (f, w') -> w_trace w' = w_trace w.
Proof. unfold next_fault. destruct (w_faults w); now intros [= <- <-]. Qed.

Ltac sys_extends :=
  intros H; go_cases;
  match goal with
  | Hf : next_fault _ = _ |- _ => apply next_fault_trace in Hf
  | _ => idtac
  end;
  first [ apply extends_refl
        | apply extends_log; simpl; rewrite ?OSFacts.put_bytes_trace; simpl;
          congruence ].

Lemma Stat_extends n w x w' : Stat n w = (x, w') -> extends w w'.
Proof. unfold Stat. sys_extends. Qed.

Lemma MkdirAll_extends n m w x w' : MkdirAll n m w = (x, w') -> extends w w'.
Proof. unfold MkdirAll. sys_extends. Qed.

Lemma Rename_extends a b w x w' : Rename a b w = (x, w') -> extends w w'.
Proof. unfold Rename. sys_extends. Qed.

Lemma OpenFile_extends n fl m w x w' :
  OpenFile n fl m w = (x, w') -> extends w w'.
Proof. unfold OpenFile. sys_extends. Qed.

Lemma FdWrite_extends fd p w x w' : FdWrite fd p w = (x, w') -> extends w w'.
Proof. unfold FdWrite. sys_extends. Qed.

Lemma FdClose_extends fd w x w' : FdClose fd w = (x, w') -> extends w w'.
Proof. unfold FdClose. sys_extends. Qed.

Lemma FdStat_extends fd w x w' : FdStat fd w = (x, w') -> extends w w'.
Proof. unfold FdStat. sys_extends. Qed.

Lemma Remove_extends n w x w' : Remove n w = (x, w') -> extends w w'.
Proof. unfold Remove. sys_extends. Qed.

Lemma chown_extends n i w x w' : chown n i w = (x, w') -> extends w w'.
Proof. unfold chown. sys_extends. Qed.

Lemma ReadDir_extends n w x w' : ReadDir n w = (x, w') -> extends w w'.
Proof. unfold ReadDir. sys_extends. Qed.

Lemma CopyGzip_extends gz src w x w' :
  CopyGzip gz src w = (x, w') -> extends w w'.
Proof. unfold CopyGzip. sys_extends. Qed.

Lemma GzipClose_extends gz w x w' : GzipClose gz w = (x, w') -> extends w w'.
Proof. unfold GzipClose. sys_extends. Qed.

End TraceFacts.

Module WriteTraceFacts.
Import GoStrings OS Lumberjack TraceFacts.

(** Turn the system-call equations in the context into [extends] facts and
    chain them. *)
Ltac to_extends :=
  repeat match goal with
  | H : Stat _ _ = _ |- _ => apply Stat_extends in H
  | H : MkdirAll _ _ _ = _ |- _ => apply MkdirAll_extends in H
  | H : Rename _ _ _ = _ |- _ => apply Rename_extends in H
  | H : OpenFile _ _ _ _ = _ |- _ => apply OpenFile_extends in H
  | H : Open _ _ = _ |- _ => apply OpenFile_extends in H
  | H : FdWrite _ _ _ = _ |- _ => apply FdWrite_extends in H
  | H : FdClose _ _ = _ |- _ => apply FdClose_extends in H
  | H : FdStat _ _ = _ |- _ => apply FdStat_extends in H
  | H : Remove _ _ = _ |- _ => apply Remove_extends in H
  | H : chown _ _ _ = _ |- _ => apply chown_extends in H
  | H : ReadDir _ _ = _ |- _ => apply ReadDir_extends in H
  | H : CopyGzip _ _ _ = _ |- _ => apply CopyGzip_extends in H
  | H : GzipClose _ _ = _ |- _ => apply GzipClose_extends in H
  end.

Ltac chain :=
  to_extends; simpl in *;
  repeat first [ apply extends_refl | eassumption
               | eapply extends_trans; [eassumption|] ].

Lemma close_extends s o s' : close s = (o, s') -> extends s.2 s'.2.
Proof. unfold close. go_unfold. intros H. go_cases; chain. Qed.

Lemma openNew_extends s o s' : openNew s = (o, s') -> extends s.2 s'.2.
Proof.
  unfold openNew, backupName. go_unfold. intros H. go_cases; chain.
Qed.

Lemma mill_world s o s' : mill s = (o, s') -> s'.2 = s.2.
Proof. unfold mill. go_unfold. intros H. go_cases; done. Qed.

Lemma file_Write_extends f p s o s' :
  file_Write f p s = (o, s') -> extends s.2 s'.2.
Proof. unfold file_Write. go_unfold. intros H. go_cases; chain. Qed.

(** A rotation contributes its entry mark, then system calls only. *)
Lemma rotate_trace s o s' :
  rotate s = (o, s') ->
  exists evs, w_trace s'.2 = w_trace s.2 ++ Call "rotate" :: evs
              /\ Forall is_syscall evs.
Proof.
  unfold rotate. go_unfold. intros H.
  assert (Hx : extends (record s.2 (Call "rotate")) s'.2).
  { destruct (close _) as [[[err|]|] s1] eqn:Hc; apply close_extends in Hc;
      simplify_eq/=; try exact Hc.
    destruct (openNew _) as [[[err|]|] s2] eqn:Ho; apply openNew_extends in Ho;
      simplify_eq/=; try (eapply extends_trans; eassumption).
    destruct (mill _) as [[[]|] s3] eqn:Hm; apply mill_world in Hm;
      simplify_eq/=; rewrite Hm; eapply extends_trans; eassumption. }
  destruct Hx as (evs & Ht & Hf). exists evs. split; [|exact Hf].
  rewrite Ht. simpl. now rewrite <- app_assoc.
Qed.

End WriteTraceFacts.

(** ** The size trigger (C1) *)

Module V2TraceFacts.
Import GoStrings OS RollerV2 TraceFacts WriteTraceFacts.

Lemma v2_close_extends s o s' : close s = (o, s') -> extends s.2 s'.2.
Proof. unfold close. go_unfold. intros H. go_cases; chain. Qed.

Lemma v2_open_extends s o s' : open s = (o, s') -> extends s.2 s'.2.
Proof.
  unfold open, openExist, openNew. go_unfold. intros H. go_cases; chain.
Qed.

Lemma v2_mill_world s o s' : mill s = (o, s') -> s'.2 = s.2.
Proof. unfold mill. go_unfold. intros H. go_cases; done. Qed.

Lemma v2_file_Write_extends f p s o s' :
  file_Write f p s = (o, s') -> extends s.2 s'.2.
Proof. unfold file_Write. go_unfold. intros H. go_cases; chain. Qed.

(** A rotation contributes its entry mark, then system calls only,
    whatever its outcome. *)
Lemma v2_rotate_trace s o s' :
  rotate s = (o, s') ->
  exists evs, w_trace s'.2 = w_trace s.2 ++ Call "rotate" :: evs
              /\ Forall is_syscall evs.
Proof.
  unfold rotate. go_unfold. intros H.
  assert (Hx : extends (record s.2 (Call "rotate")) s'.2).
  { destruct (close _) as [[[err|]|] s1] eqn:Hc; apply v2_close_extends in Hc;
      simplify_eq/=; try exact Hc.
    destruct (MkdirAll _ _ _) as [[e1|] w1] eqn:Hm;
      apply MkdirAll_extends in Hm; simplify_eq/=;
      try (eapply extends_trans; eassumption).
    destruct (Rename _ _ _) as [[e2|] w2] eqn:Hrn;
      apply Rename_extends in Hrn; simplify_eq/=;
      try (eapply extends_trans; [eassumption|];
           eapply extends_trans; eassumption).
    destruct (open _) as [[[err|]|] s2] eqn:Ho; apply v2_open_extends in Ho;
      simplify_eq/=;
      try (eapply extends_trans; [eassumption|];
           eapply extends_trans; [eassumption|];
           eapply extends_trans; eassumption).
    destruct (mill _) as [[[]|] s3] eqn:Hmi; apply v2_mill_world in Hmi;
      simplify_eq/=; rewrite Hmi;
      (eapply extends_trans; [eassumption|];
       eapply extends_trans; [eassumption|];
       eapply extends_trans; eassumption). }
  destruct Hx as (evs & Ht & Hf). exists evs. split; [|exact Hf].
  rewrite Ht. simpl. now rewrite <- app_assoc.
Qed.

(** [isRotate] spelled out, away from int64 overflow. *)
Lemma isRotate_spec r w n :
  0 <= size r -> 0 <= n -> n + size r <= max_int64 ->
  isRotate r w n = true
  <-> (0 < Size (options r) /\ Size (options r) < n + size r)
      \/ (0 < Duration (options r)
          /\ Duration (options r) < GoTime.Sub (Now w) (createTime r)).
Proof.
  intros Hsz Hn Hov. unfold isRotate, add64.
  rewrite wrap64_small by (unfold min_int64, max_int64 in *; lia).
  rewrite !Z.gtb_ltb.
  destruct (0 <? Size (options r)) eqn:E1;
    destruct (Size (options r) <? n + size r) eqn:E2;
    destruct (0 <? Duration (options r)) eqn:E3;
    destruct (Duration (options r) <? GoTime.Sub (Now w) (createTime r)) eqn:E4;
    simpl;
    rewrite ?Z.ltb_lt, ?Z.ltb_ge in *; split; intros; try done; try lia.
Qed.

End V2TraceFacts.

(** C1, as stated, fails on the composable engine when a duration trigger
    is configured beside the size trigger: with S = 100 and one hour, an
    engine that tracks 10 bytes in a file made two hours ago rotates before
    a write of 10 bytes, although 10 + 10 does not exceed 100. *)
Lemma C1_counterexample :
  let s1 := (RollerV2.Write (Scenario.zeros 10)
               (Scenario.v2_fresh Scenario.v2_size100_hourly)).2 in
  let s2 := (s1.1, Scenario.later (2 * 3600 * 10^9) s1.2) in
  let third := RollerV2.Write (Scenario.zeros 10) s2 in
  RollerV2.Size (RollerV2.options s2.1) = 100
  /\ RollerV2.size s2.1 = 10
  /\ third.1 = Ret (10, None)
  /\ OS.w_trace third.2.2
     = OS.w_trace s2.2
         ++ [OS.Call "rotate";
             OS.Ev (OS.SysClose 3) None;
             OS.Ev (OS.SysMkdirAll "/var/log/old") None;
             OS.Ev (OS.SysRename "/var/log/app.log" "/var/log/old/app.log")
               None;
             OS.Ev (OS.SysStat "/var/log/app.log") (Some ENOENT);
             OS.Ev (OS.SysMkdirAll "/var/log") None;
             OS.Ev (OS.SysOpenFile "/var/log/app.log" 4) None;
             OS.Ev (OS.SysFstat 4) None;
             OS.Ev (OS.SysWrite 4 10) None].
Proof. cbv zeta. repeat apply conj; vm_compute; reflexivity. Qed.

(** C1 (amended).  Max size S > 0, a write that is accepted (length at most
    S), tracked size non-negative, the sum within int64.  Strategy-mode
    engine, size strategy: the trace of [Write] continues with the entry
    mark of one rotation exactly when tracked size + length exceeds S, and
    every other new entry is a system call, so the write to the file comes
    after that single rotation and no rotation happens otherwise.
    Composable engine: the trace of [Write] continues with the entry mark
    of one rotation exactly when length + tracked size exceeds S or the
    duration trigger fires (a duration D > 0 is configured and the time
    since the creation time exceeds D), and every other new entry is a
    system call; with no duration trigger configured [isRotate] holds
    exactly when length + tracked size exceeds S.
    Sample runs with S = 100 on an empty machine, in both engines: the
    first write of 60 bytes returns 60 and leaves tracked size 60; the
    second performs one rotation before its write, returns 60 and leaves
    tracked size 60, a backup of 60 bytes and an active file of 60 bytes. *)
Theorem C1_size_trigger_rotates_once_before_write :
  (forall (r : Lumberjack.LumberjackRoller) (w : OS.World) (p : list Byte.byte),
      Lumberjack.Strategy (Lumberjack.opts r) = Lumberjack.SizeRotateStrategy ->
      0 < Lumberjack.FileMaxSize (Lumberjack.opts r) ->
      Z.of_nat (length p) <= Lumberjack.FileMaxSize (Lumberjack.opts r) ->
      0 <= Lumberjack.size r ->
      Lumberjack.size r + Z.of_nat (length p) <= max_int64 ->
      exists evs,
        OS.w_trace (Lumberjack.Write p (r, w)).2.2
        = OS.w_trace w
            ++ (if decide (Lumberjack.FileMaxSize (Lumberjack.opts r)
                           < Lumberjack.size r + Z.of_nat (length p))
                then [OS.Call "rotate"] else [])
            ++ evs
        /\ Forall TraceFacts.is_syscall evs)
  /\ (forall (r : RollerV2.Roller) (w : OS.World) (p : list Byte.byte),
      0 < RollerV2.Size (RollerV2.options r) ->
      Z.of_nat (length p) <= RollerV2.Size (RollerV2.options r) ->
      0 <= RollerV2.size r ->
      Z.of_nat (length p) + RollerV2.size r <= max_int64 ->
      exists evs,
        OS.w_trace (RollerV2.Write p (r, w)).2.2
        = OS.w_trace w
            ++ (if decide (RollerV2.Size (RollerV2.options r)
                             < Z.of_nat (length p) + RollerV2.size r
                           \/ (0 < RollerV2.Duration (RollerV2.options r)
                               /\ RollerV2.Duration (RollerV2.options r)
                                  < GoTime.Sub (OS.Now w)
                                      (RollerV2.createTime r)))
                then [OS.Call "rotate"] else [])
            ++ evs
        /\ Forall TraceFacts.is_syscall evs)
  /\ (forall (r : RollerV2.Roller) (w : OS.World) (writeLen : Z),
      0 < RollerV2.Size (RollerV2.options r) ->
      RollerV2.Duration (RollerV2.options r) <= 0 ->
      0 <= RollerV2.size r -> 0 <= writeLen ->
      writeLen + RollerV2.size r <= max_int64 ->
      (RollerV2.isRotate r w writeLen = true
       <-> RollerV2.Size (RollerV2.options r) < writeLen + RollerV2.size r))
  /\ (let s0 := Scenario.fresh Scenario.size100 in
      let first := Lumberjack.Write (Scenario.zeros 60) s0 in
      let second := Lumberjack.Write (Scenario.zeros 60) first.2 in
      first.1 = Ret (60, None)
      /\ Lumberjack.size first.2.1 = 60
      /\ second.1 = Ret (60, None)
      /\ Lumberjack.size second.2.1 = 60
      /\ OS.w_trace second.2.2
         = OS.w_trace first.2.2
             ++ [OS.Call "rotate";
                 OS.Ev (OS.SysClose 3) None;
                 OS.Ev (OS.SysMkdirAll "/var/log") None;
                 OS.Ev (OS.SysStat "/var/log/app.log") None;
                 OS.Ev (OS.SysRename "/var/log/app.log"
                          "/var/log/app-2016-11-04T18-30-00.007.log") None;
                 OS.Ev (OS.SysChown "/var/log/app.log") None;
                 OS.Ev (OS.SysOpenFile "/var/log/app.log" 4) None;
                 OS.Ev (OS.SysWrite 4 60) None]
      /\ (fun n => length (OS.n_data n)) <$> OS.w_fs second.2.2
         = <["/var/log/app-2016-11-04T18-30-00.007.log" := 60%nat]>
             (<["/var/log/app.log" := 60%nat]>
                (<["/var/log" := 0%nat]> ∅)))
  /\ (let s0 := Scenario.v2_fresh Scenario.v2_size100 in
      let first := RollerV2.Write (Scenario.zeros 60) s0 in
      let second := RollerV2.Write (Scenario.zeros 60) first.2 in
      first.1 = Ret (60, None)
      /\ RollerV2.size first.2.1 = 60
      /\ second.1 = Ret (60, None)
      /\ RollerV2.size second.2.1 = 60
      /\ OS.w_trace second.2.2
         = OS.w_trace first.2.2
             ++ [OS.Call "rotate";
                 OS.Ev (OS.SysClose 3) None;
                 OS.Ev (OS.SysMkdirAll "/var/log/old") None;
                 OS.Ev (OS.SysRename "/var/log/app.log"
                          "/var/log/old/app.log") None;
                 OS.Ev (OS.SysStat "/var/log/app.log") (Some ENOENT);
                 OS.Ev (OS.SysMkdirAll "/var/log") None;
                 OS.Ev (OS.SysOpenFile "/var/log/app.log" 4) None;
                 OS.Ev (OS.SysFstat 4) None;
                 OS.Ev (OS.SysWrite 4 60) None]
      /\ (fun n => length (OS.n_data n)) <$> OS.w_fs second.2.2
         = <["/var/log/old/app.log" := 60%nat]>
             (<["/var/log/app.log" := 60%nat]>
                (<["/var/log/old" := 0%nat]>
                   (<["/var/log" := 0%nat]> ∅)))).
Proof.
  split; [|split; [|split; [|split]]].
  - intros r w p Hst HS Hlen Hsz Hov.
    unfold Lumberjack.Write. go_unfold.
    rewrite gtb_true by lia. rewrite gtb_false by lia. simpl.
    rewrite Hst. simpl.
    unfold add64 at 1. rewrite wrap64_small
      by (unfold min_int64, max_int64 in *; lia).
    destruct (decide _) as [Hgt|Hle].
    + rewrite gtb_true by lia.
      destruct (Lumberjack.rotate _) as [[[err|]|msg] s1] eqn:Hr;
        apply WriteTraceFacts.rotate_trace in Hr as (evs & Ht & Hf);
        simpl in *; try (exists evs; split; [exact Ht|exact Hf]).
      destruct (Lumberjack.file_Write _ _ _) as [[[n e]|msg] s2] eqn:Hw;
        apply WriteTraceFacts.file_Write_extends in Hw as (evs2 & Ht2 & Hf2);
        simpl in *; exists (evs ++ evs2);
        (split; [rewrite Ht2, Ht; simpl; now rewrite <- app_assoc
                |now apply Forall_app]).
    + rewrite gtb_false by lia. simpl.
      destruct (Lumberjack.file_Write _ _ _) as [[[n e]|msg] s2] eqn:Hw;
        apply WriteTraceFacts.file_Write_extends in Hw as (evs2 & Ht2 & Hf2);
        simpl in *; exists evs2; (split; [exact Ht2|exact Hf2]).
  - intros r w p HS Hlen Hsz Hov.
    pose proof (V2TraceFacts.isRotate_spec r w (Z.of_nat (length p)) Hsz
                  ltac:(lia) Hov) as Hspec.
    unfold RollerV2.Write. go_unfold.
    rewrite gtb_true by lia. rewrite gtb_false by lia. simpl.
    destruct (RollerV2.isRotate r w _) eqn:E.
    + rewrite decide_True by (destruct (proj1 Hspec eq_refl); tauto).
      destruct (RollerV2.rotate _) as [[[err|]|msg] s1] eqn:Hr;
        apply V2TraceFacts.v2_rotate_trace in Hr as (evs & Ht & Hf);
        simpl in *; try (exists evs; split; [exact Ht|exact Hf]).
      destruct (RollerV2.file_Write _ _ _) as [[[n e]|msg] s2] eqn:Hw;
        apply V2TraceFacts.v2_file_Write_extends in Hw as (evs2 & Ht2 & Hf2);
        simpl in *; exists (evs ++ evs2);
        (split; [rewrite Ht2, Ht; simpl; now rewrite <- app_assoc
                |now apply Forall_app]).
    + rewrite decide_False.
      2:{ intros Hc. assert (Ht : false = true) by (apply Hspec; tauto).
          discriminate Ht. }
      simpl.
      destruct (RollerV2.file_Write _ _ _) as [[[n e]|msg] s2] eqn:Hw;
        apply V2TraceFacts.v2_file_Write_extends in Hw as (evs2 & Ht2 & Hf2);
        simpl in *; exists evs2; (split; [exact Ht2|exact Hf2]).
  - intros r w n HS HD Hsz Hn Hov. unfold RollerV2.isRotate.
    rewrite gtb_true by lia. rewrite (gtb_false _ 0) by lia. simpl.
    unfold add64. rewrite wrap64_small
      by (unfold min_int64, max_int64 in *; lia).
    destruct (n + RollerV2.size r >? _) eqn:E.
    + apply Z.gtb_lt in E. split; [lia|reflexivity].
    + rewrite Z.gtb_ltb in E. apply Z.ltb_ge in E. split; [discriminate|lia].
  - cbv zeta. repeat apply conj; vm_compute; reflexivity.
  - cbv zeta. repeat apply conj; vm_compute; reflexivity.
Qed.

Lemma C1_witness :
  let s := (RollerV2.Write (Scenario.zeros 60)
              (Scenario.v2_fresh Scenario.v2_size100_hourly)).2 in
  exists evs,
    OS.w_trace (RollerV2.Write (Scenario.zeros 60) (s.1, s.2)).2.2
    = OS.w_trace s.2
        ++ (if decide (RollerV2.Size (RollerV2.options s.1)
                         < Z.of_nat (length (Scenario.zeros 60))
                           + RollerV2.size s.1
                       \/ (0 < RollerV2.Duration (RollerV2.options s.1)
                           /\ RollerV2.Duration (RollerV2.options s.1)
                              < GoTime.Sub (OS.Now s.2)
                                  (RollerV2.createTime s.1)))
            then [OS.Call "rotate"] else [])
        ++ evs
    /\ Forall TraceFacts.is_syscall evs.
Proof.
  apply (proj1 (proj2 C1_size_trigger_rotates_once_before_write));
    vm_compute; try reflexivity; intros H; discriminate H.
Defined.

(** ** After a failed rotation (C3) *)

Module FailedRotationFacts.
Import GoStrings OS.




Lemma v2_close_file s o s' :
  RollerV2.close s = (o, s') -> RollerV2.f s'.1 = None.
Proof. unfold RollerV2.close. go_unfold. intros H. go_cases; done. Qed.

Lemma v2_open_fail_file s e s' :
  RollerV2.open s = (Ret (Some e), s') -> RollerV2.f s'.1 = RollerV2.f s.1.
Proof.
  unfold RollerV2.open, RollerV2.openExist, RollerV2.openNew. go_unfold.
  intros H. go_cases; done.
Qed.





End FailedRotationFacts.


Module ReopenFacts.
Import GoStrings OS Lumberjack TraceFacts WriteTraceFacts.



End ReopenFacts.

(** ** Which failures end a rotation *)

Module AbortFacts.
Import GoStrings OS TraceFacts.
























End AbortFacts.



Module CompressFacts.
Import GoStrings OS Lumberjack TraceFacts.

Lemma write_at_start p : write_at [] 0 p = p.
Proof. unfold write_at. simpl. now rewrite drop_nil, app_nil_r. Qed.

Lemma write_at_end data p : write_at data (length data) p = data ++ p.
Proof.
  unfold write_at. rewrite firstn_all, Nat.sub_diag. simpl.
  rewrite drop_ge by lia. now rewrite app_nil_r.
Qed.

Definition fault_of (w : World) : option fault :=
  match w_faults w with [] => None | f :: _ => f end.

Definition pop (w : World) : World := set_faults w (tail (w_faults w)).

Lemma next_fault_pop w : next_fault w = (fault_of w, pop w).
Proof.
  unfold next_fault, fault_of, pop. destruct w as [fs op nfd fl]; simpl.
  now destruct fl.
Qed.

Ltac world_cbn :=
  cbn [fst snd w_fs w_open w_nextfd w_trace w_gzip w_now log record set_fs
       set_open set_nextfd set_faults pop O_TRUNC O_CREATE O_APPEND
       O_CREATE_TRUNC_WRONLY O_CREATE_WRONLY_TRUNC h_path h_append h_off
       gz_dst gz_pending f_err fmap option_fmap option_map n_isdir n_data
       truncate new_file].

Ltac exec_step :=
  world_cbn;
  match goal with
  | |- context [next_fault ?w] => rewrite (next_fault_pop w)
  | |- context [fault_of ?w] =>
      let F := fresh "Hfault" in destruct (fault_of w) eqn:F
  | |- context [(<[?k := ?v]> ?m) !! ?k] => rewrite (lookup_insert_eq m k v)
  | |- context [(<[?k := ?v]> ?m) !! ?k'] =>
      rewrite (lookup_insert_ne m k k' v) by (congruence || lia)
  | |- context [delete ?k ?m !! ?k] => rewrite (lookup_delete_eq m k)
  | |- context [delete ?k ?m !! ?k'] =>
      rewrite (lookup_delete_ne m k k') by (congruence || lia)
  | H : ?m !! ?k = _ |- context [?m !! ?k] => rewrite H
  | |- context [match ?m !! ?k with _ => _ end] =>
      let L := fresh "Hlook" in destruct (m !! k) eqn:L
  | |- context [if n_isdir ?n then _ else _] =>
      let D := fresh "Hdir" in destruct (n_isdir n) eqn:D
  end.

Ltac exec := repeat exec_step; world_cbn.

Ltac fs_simpl :=
  repeat first
    [ rewrite lookup_delete_eq
    | rewrite lookup_insert_eq
    | rewrite lookup_insert_ne by congruence
    | rewrite lookup_delete_ne by congruence ].

Ltac find_event :=
  repeat first [ apply list_elem_of_here | apply list_elem_of_further ].

(** The new trace entries of a complete run up to the removal of the
    source: open source, stat, chown, open destination, copy, flush, close
    destination, close source, remove source. *)
Definition full_run (ps pd : string) (fd : nat) (data : list Byte.byte)
    (gz : list Byte.byte -> list Byte.byte * list Byte.byte)
    (x : option errno) : list event :=
  [Ev (SysOpenFile ps fd) None; Ev (SysStat ps) None; Ev (SysChown pd) None;
   Ev (SysOpenFile pd (S fd)) None;
   Ev (SysCopyGzip (S fd) fd (length (gz data).1)) None;
   Ev (SysGzipClose (S fd) (length (gz data).2)) None;
   Ev (SysClose (S fd)) None; Ev (SysClose fd) None;
   Ev (SysRemove ps) x].

Definition compress_post (w : World) (ps pd : string)
    (o : outcome (option error)) (s' : State) : Prop :=
  exists evs, w_trace s'.2 = w_trace w ++ evs /\
  (forall x, Ev (SysRemove ps) x ∈ evs ->
     exists nd, w_fs w !! ps = Some nd
       /\ take 9 evs = full_run ps pd (w_nextfd w) (n_data nd) (w_gzip w) x) /\
  match o with
  | Panic _ => False
  | Ret None =>
      exists nd nd',
        w_fs w !! ps = Some nd
        /\ evs = full_run ps pd (w_nextfd w) (n_data nd) (w_gzip w) None
        /\ w_fs s'.2 !! ps = None
        /\ w_fs s'.2 !! pd = Some nd'
        /\ n_data nd' = (w_gzip w (n_data nd)).1 ++ (w_gzip w (n_data nd)).2
  | Ret (Some e) =>
      w_fs s'.2 !! ps = w_fs w !! ps
      /\ (w_fs s'.2 = w_fs w
          \/ exists y, Ev (SysRemove pd) y ∈ evs
                /\ (y = None -> w_fs s'.2 !! pd = None))
  end.

Lemma compress_spec r w src dst :
  Filepath.Clean src <> Filepath.Clean dst ->
  let '(o, s') := compressLogFile src dst (r, w) in
  compress_post w (Filepath.Clean src) (Filepath.Clean dst) o s'.
Proof.
  unfold compressLogFile, compress_return, Open, OpenFile, Stat, chown,
    CopyGzip, GzipClose, FdClose, Remove, gzip_NewWriter, put_bytes, contents.
  unfold bind, ret, sys, get_world.
  set (ps := Filepath.Clean src). set (pd := Filepath.Clean dst).
  clearbody ps pd. intros Hne.
  assert (Hne' : pd <> ps) by congruence.
  exec.
  all: unfold compress_post; world_cbn; rewrite <- ?app_assoc; cbn [app];
    eexists; (split; [reflexivity|]).
  all: split.
  all: try (intros x Hin;
            repeat (apply elem_of_cons in Hin as [Hin|Hin]; [simplify_eq|]);
            try (now apply elem_of_nil in Hin)).
  all: try (split;
    [ fs_simpl; reflexivity
    | first [ left; reflexivity
            | right; eexists; split;
              [ find_event
              | intros Hy; first [ discriminate Hy | fs_simpl; reflexivity ] ] ]
    ]).
  all: repeat match goal with H : fault_of _ = _ |- _ => clear H end.
  all: try (eexists; split; [eassumption|reflexivity]).
  all: eexists _, _; split; [eassumption|]; split; [reflexivity|];
    split; [fs_simpl; reflexivity|]; split; [fs_simpl; reflexivity|];
    cbn [n_data]; rewrite write_at_start; cbn [Nat.add]; apply write_at_end.
Qed.
End CompressFacts.

(** ** Compression of a backup (C5) *)

(** C5.  [compressLogFile src dst], for distinct files.  The system call
    removing the source occurs in the trace only as the ninth call of a
    run whose first eight calls all succeeded: open source, stat, chown,
    open destination, copy of the whole compressed stream, flush of the
    trailer by the encoder's Close, close of the destination, close of the
    source.  When the function returns an error the source entry of the
    file table is what it was, and either the file table is unchanged
    (nothing was created) or the removal of the destination was issued, and
    where that removal succeeded the destination is gone.  When it returns
    nil the source is gone and the destination holds the complete encoding
    of the source's bytes. *)
Theorem C5_compress_removes_source_last
    (r : Lumberjack.LumberjackRoller) (w : OS.World) (src dst : string) :
  Filepath.Clean src <> Filepath.Clean dst ->
  let ps := Filepath.Clean src in
  let pd := Filepath.Clean dst in
  let res := Lumberjack.compressLogFile src dst (r, w) in
  exists evs,
    OS.w_trace res.2.2 = OS.w_trace w ++ evs
    /\ (forall x, OS.Ev (OS.SysRemove ps) x ∈ evs ->
          exists nd, OS.w_fs w !! ps = Some nd
            /\ take 9 evs
               = CompressFacts.full_run ps pd (OS.w_nextfd w) (OS.n_data nd)
                   (OS.w_gzip w) x)
    /\ (forall e, res.1 = Ret (Some e) ->
          OS.w_fs res.2.2 !! ps = OS.w_fs w !! ps
          /\ (OS.w_fs res.2.2 = OS.w_fs w
              \/ exists y, OS.Ev (OS.SysRemove pd) y ∈ evs
                   /\ (y = None -> OS.w_fs res.2.2 !! pd = None)))
    /\ (res.1 = Ret None ->
          exists nd nd',
            OS.w_fs w !! ps = Some nd
            /\ OS.w_fs res.2.2 !! ps = None
            /\ OS.w_fs res.2.2 !! pd = Some nd'
            /\ OS.n_data nd'
               = (OS.w_gzip w (OS.n_data nd)).1 ++ (OS.w_gzip w (OS.n_data nd)).2).
Proof.
  intros Hne ps pd res.
  pose proof (CompressFacts.compress_spec r w src dst Hne) as H.
  fold res in H. destruct res as [o s']. simpl.
  destruct H as (evs & Ht & Hguard & Hpost). exists evs.
  split; [exact Ht|]. split; [exact Hguard|]. split.
  - intros e ->. exact Hpost.
  - intros ->. destruct Hpost as (nd & nd' & H1 & _ & H3 & H4 & H5).
    now exists nd, nd'.
Qed.

Lemma C5_witness :
  let r := Scenario.engine Scenario.count2 in
  let w := Scenario.with_faults Scenario.three_backups
             [None; None; None; None; Scenario.fail_with ENOSPC] in
  let src := Scenario.backup_T1 in
  let dst := Scenario.backup_T1 +:+ ".gz" in
  let ps := Filepath.Clean src in
  let pd := Filepath.Clean dst in
  let res := Lumberjack.compressLogFile src dst (r, w) in
  exists evs,
    OS.w_trace res.2.2 = OS.w_trace w ++ evs
    /\ (forall x, OS.Ev (OS.SysRemove ps) x ∈ evs ->
          exists nd, OS.w_fs w !! ps = Some nd
            /\ take 9 evs
               = CompressFacts.full_run ps pd (OS.w_nextfd w) (OS.n_data nd)
                   (OS.w_gzip w) x)
    /\ (forall e, res.1 = Ret (Some e) ->
          OS.w_fs res.2.2 !! ps = OS.w_fs w !! ps
          /\ (OS.w_fs res.2.2 = OS.w_fs w
              \/ exists y, OS.Ev (OS.SysRemove pd) y ∈ evs
                   /\ (y = None -> OS.w_fs res.2.2 !! pd = None)))
    /\ (res.1 = Ret None ->
          exists nd nd',
            OS.w_fs w !! ps = Some nd
            /\ OS.w_fs res.2.2 !! ps = None
            /\ OS.w_fs res.2.2 !! pd = Some nd'
            /\ OS.n_data nd'
               = (OS.w_gzip w (OS.n_data nd)).1 ++ (OS.w_gzip w (OS.n_data nd)).2).
Proof.
  apply (C5_compress_removes_source_last
           (Scenario.engine Scenario.count2)
           (Scenario.with_faults Scenario.three_backups
              [None; None; None; None; Scenario.fail_with ENOSPC])
           Scenario.backup_T1 (Scenario.backup_T1 +:+ ".gz")).
  vm_compute. intros H. discriminate H.
Defined.

(** ** The backup catalog (C7) *)

Module ListingFacts.
Import GoStrings GoStringsFacts OS Lumberjack CatalogFacts.

(** Order of the catalog: no entry is followed by a more recent one. *)
Definition newer_first (a b : logInfo) : Prop :=
  GoTime.unix_ns (timestamp b) <= GoTime.unix_ns (timestamp a).

Definition older_first (a b : logInfo) : Prop :=
  GoTime.unix_ns (timestamp a) <= GoTime.unix_ns (timestamp b).

Lemma HdRel_sink y x rp :
  older_first y x -> HdRel older_first y rp -> HdRel older_first y (sink x rp).
Proof.
  intros Hyx Hhd. destruct rp as [|z rp]; simpl; [now constructor|].
  destruct (Less x z); constructor; [|exact Hyx].
  now inversion Hhd.
Qed.

Lemma sink_sorted x rp : Sorted older_first rp -> Sorted older_first (sink x rp).
Proof.
  induction 1 as [|y rp Hs IH Hhd]; simpl; [repeat constructor|].
  unfold Less, GoTime.After at 1.
  destruct (GoTime.unix_ns (timestamp y) <? GoTime.unix_ns (timestamp x)) eqn:E.
  - apply Z.ltb_lt in E. constructor; [exact IH|].
    apply HdRel_sink; [unfold older_first; lia|exact Hhd].
  - apply Z.ltb_ge in E. constructor; [now constructor|].
    constructor. exact E.
Qed.

Lemma sort_fold_sorted l rp :
  Sorted older_first rp ->
  Sorted older_first (fold_left (fun rp x => sink x rp) l rp).
Proof.
  revert rp. induction l as [|x l IH]; intros rp H; simpl; [exact H|].
  apply IH, sink_sorted, H.
Qed.

(** [sort.Sort] orders the catalog by timestamp, most recent first. *)
Lemma sort_Sort_sorted l : Sorted newer_first (sort_Sort l).
Proof.
  unfold sort_Sort. rewrite rev_alt.
  apply (Sorted_reverse older_first), sort_fold_sorted. constructor.
Qed.

(** A name whose prefix and extension run into each other. *)
Definition overlaps (name prefix ext : string) : Prop :=
  HasPrefix name prefix = true /\ HasSuffix name ext = true
  /\ len name < len prefix + len ext.

(** [name] is [prefix], a timestamp of the configured layout, [ext]. *)
Definition parses_as (r : LumberjackRoller) (name prefix ext : string)
    (t : GoTime.Time) : Prop :=
  exists ts, name = prefix +:+ ts +:+ ext
             /\ GoTime.Parse (BackupTimeFormat (opts r)) ts = Some t.

Lemma split_middle (name prefix ext : string) :
  HasPrefix name prefix = true -> HasSuffix name ext = true ->
  len prefix + len ext <= len name ->
  exists ts, name = prefix +:+ ts +:+ ext.
Proof.
  intros [k Hk]%HasPrefix_true [k' Hk']%HasSuffix_true Hlen.
  assert (Hc : chars prefix ++ chars k = chars k' ++ chars ext)
    by (rewrite <- !chars_app; congruence).
  assert (Hl : (length (chars prefix) <= length (chars k'))%nat).
  { apply (f_equal chars) in Hk'. rewrite chars_app in Hk'.
    unfold len in Hlen. rewrite Hk', length_app in Hlen. lia. }
  pose proof (f_equal (take (length (chars prefix))) Hc) as Ht.
  rewrite take_app_length, take_app_le in Ht by exact Hl.
  exists (of_chars (drop (length (chars prefix)) (chars k'))).
  apply chars_inj. rewrite !chars_app, chars_of_chars.
  rewrite Hk', chars_app. rewrite Ht at 1.
  now rewrite app_assoc, take_drop.
Qed.

Lemma timeFromName_spec r name prefix ext :
  ~ overlaps name prefix ext ->
  exists x, timeFromName r name prefix ext = Ret x
    /\ forall t, x = inl t <-> parses_as r name prefix ext t.
Proof.
  intros Hno. unfold timeFromName.
  destruct (HasPrefix name prefix) eqn:Hp; simpl.
  2:{ eexists. split; [reflexivity|]. intros t. split; [discriminate|].
      intros (ts & -> & _). rewrite (proj2 (HasPrefix_true _ _)) in Hp by eauto.
      discriminate. }
  destruct (HasSuffix name ext) eqn:Hs; simpl.
  2:{ eexists. split; [reflexivity|]. intros t. split; [discriminate|].
      intros (ts & -> & _).
      rewrite (proj2 (HasSuffix_true _ _)) in Hs; [discriminate|].
      exists (prefix +:+ ts). apply chars_inj. rewrite !chars_app.
      now rewrite app_assoc. }
  assert (Hlen : len prefix + len ext <= len name).
  { destruct (Z_le_gt_dec (len prefix + len ext) (len name)); [assumption|].
    exfalso. apply Hno. unfold overlaps. repeat split; [assumption..|lia]. }
  destruct (split_middle name prefix ext Hp Hs Hlen) as [ts ->].
  rewrite slice_middle.
  destruct (GoTime.Parse _ ts) as [t0|] eqn:Hparse.
  - eexists. split; [reflexivity|]. intros t. split.
    + intros [= <-]. now exists ts.
    + intros (ts' & Heq & Hp'). apply (f_equal chars) in Heq.
      rewrite !chars_app in Heq. apply app_inv_head, app_inv_tail in Heq.
      apply chars_inj in Heq. subst ts'. congruence.
  - eexists. split; [reflexivity|]. intros t. split; [discriminate|].
    intros (ts' & Heq & Hp'). apply (f_equal chars) in Heq.
    rewrite !chars_app in Heq. apply app_inv_head, app_inv_tail in Heq.
    apply chars_inj in Heq. subst ts'. congruence.
Qed.

(** An entry is a backup when it is no directory and its name is the
    prefix, a timestamp and the extension, with or without the compression
    suffix. *)
Definition is_backup (r : LumberjackRoller) (prefix ext : string)
    (f : FileInfo) (t : GoTime.Time) : Prop :=
  fi_isdir f = false
  /\ (parses_as r (fi_name f) prefix ext t
      \/ parses_as r (fi_name f) prefix (ext +:+ CompressSuffix (opts r)) t).

(** No slice of [timeFromName] goes out of range on [f]. *)
Definition in_range (r : LumberjackRoller) (prefix ext : string)
    (f : FileInfo) : Prop :=
  fi_isdir f = true
  \/ (~ overlaps (fi_name f) prefix ext
      /\ ~ overlaps (fi_name f) prefix (ext +:+ CompressSuffix (opts r))).

Lemma classify_spec r prefix ext f :
  in_range r prefix ext f ->
  exists o, classify r prefix ext f = Ret o
    /\ (forall li, o = Some li -> info li = f
                                  /\ is_backup r prefix ext f (timestamp li))
    /\ (o = None -> forall t, ~ is_backup r prefix ext f t).
Proof.
  intros Hr. unfold classify, is_backup.
  destruct (fi_isdir f) eqn:Hd.
  { eexists. split; [reflexivity|]. split; [discriminate|].
    intros _ t [H _]. discriminate H. }
  destruct Hr as [Hr|[H1 H2]]; [congruence|].
  destruct (timeFromName_spec r _ _ _ H1) as (x1 & -> & Hx1).
  destruct x1 as [t1|e1].
  { eexists. split; [reflexivity|]. split; [|discriminate].
    intros li [= <-]. simpl. repeat split. left. now apply (proj1 (Hx1 t1)). }
  destruct (timeFromName_spec r _ _ _ H2) as (x2 & -> & Hx2).
  destruct x2 as [t2|e2].
  { eexists. split; [reflexivity|]. split; [|discriminate].
    intros li [= <-]. simpl. repeat split. right. now apply (proj1 (Hx2 t2)). }
  eexists. split; [reflexivity|]. split; [discriminate|].
  intros _ t [_ [H|H]];
    [apply (proj2 (Hx1 t)) in H|apply (proj2 (Hx2 t)) in H]; discriminate H.
Qed.

(** Away from overlapping names, [oldLogFiles] returns the backups of the
    directory, each with the time parsed from its name, most recent
    first. *)
Lemma oldLogFiles_lists_backups r w entries w1 :
  ReadDir (dir r w) w = (inl entries, w1) ->
  Forall (in_range r (prefixAndExt r w).1 (prefixAndExt r w).2) entries ->
  exists files,
    oldLogFiles (r, w) = (Ret (inl files), (r, w1))
    /\ Sorted newer_first files
    /\ files ≡ₚ omap (kept r (prefixAndExt r w).1 (prefixAndExt r w).2) entries
    /\ (forall li, li ∈ files ->
          info li ∈ entries
          /\ is_backup r (prefixAndExt r w).1 (prefixAndExt r w).2 (info li)
               (timestamp li))
    /\ (forall f t, f ∈ entries ->
          is_backup r (prefixAndExt r w).1 (prefixAndExt r w).2 f t ->
          f ∈ info <$> files).
Proof.
  intros Hrd Hin.
  set (prefix := (prefixAndExt r w).1). set (ext := (prefixAndExt r w).2).
  assert (Hcol : collect r prefix ext entries []
                 = Ret (omap (kept r prefix ext) entries)).
  { rewrite collect_Ret; [reflexivity|].
    eapply Forall_impl; [exact Hin|]. intros f Hf.
    destruct (classify_spec r prefix ext f Hf) as (o & Ho & _). eauto. }
  exists (sort_Sort (omap (kept r prefix ext) entries)).
  split; [|split; [apply sort_Sort_sorted|split; [apply sort_Sort_perm|split]]].
  - unfold oldLogFiles, bind, get_self, get_world, sys, ret.
    cbn [fst snd]. rewrite Hrd. cbn [fst snd].
    unfold prefix, ext in Hcol. unfold prefixAndExt in *. cbn [fst snd] in *.
    now rewrite Hcol.
  - intros li Hli. rewrite sort_Sort_perm in Hli.
    apply list_elem_of_omap in Hli as (f & Hf & Hk). unfold kept in Hk.
    pose proof (proj1 (Forall_forall _ _) Hin f Hf) as Hr.
    destruct (classify_spec r prefix ext f Hr) as (o & Ho & Hsome & _).
    rewrite Ho in Hk. subst o. destruct (Hsome li eq_refl) as [Hi Hb].
    rewrite Hi. split; [exact Hf|exact Hb].
  - intros f t Hf Hb.
    pose proof (proj1 (Forall_forall _ _) Hin f Hf) as Hr.
    destruct (classify_spec r prefix ext f Hr) as (o & Ho & Hsome & Hnone).
    destruct o as [li|]; [|exfalso; exact (Hnone eq_refl t Hb)].
    destruct (Hsome li eq_refl) as [Hi _].
    apply list_elem_of_fmap. exists li. split; [now rewrite Hi|].
    rewrite sort_Sort_perm. apply list_elem_of_omap. exists f.
    split; [exact Hf|]. unfold kept. now rewrite Ho.
Qed.

End ListingFacts.

(** C7.  The listing is as claimed on every directory without a name in
    which prefix and extension overlap ([oldLogFiles_lists_backups]); on
    such a name it does not return.  With the log file "/d/my.log.log-x" the
    prefix is "my.log-" and the extension ".log-x"; the regular file
    "my.log-x" in the same directory starts with the one and ends with the
    other, the slice bounds are [7:2], and [timeFromName], [oldLogFiles]
    and the whole retention pass panic instead of skipping the entry. *)
Theorem C7_listing_panics_on_overlapping_name :
  let r := Scenario.engine Scenario.overlap_opts in
  let w := Scenario.overlap_world in
  Lumberjack.prefixAndExt r w = ("my.log-", ".log-x")
  /\ (fun f => (OS.fi_name f, OS.fi_isdir f))
       <$> OS.children (Lumberjack.dir r w) (OS.w_fs w)
     = [("my.log-x", false)]
  /\ Lumberjack.timeFromName r "my.log-x" "my.log-" ".log-x"
     = Panic "slice bounds out of range"
  /\ (Lumberjack.oldLogFiles (r, w)).1 = Panic "slice bounds out of range"
  /\ (Lumberjack.millRunOnce (r, w)).1 = Panic "slice bounds out of range".
Proof. cbv zeta. repeat apply conj; vm_compute; reflexivity. Qed.



(** ** The calendar and decimal digits *)


Module CalendarFacts.
Import GoTime.





End CalendarFacts.

Module DigitFacts.
Import GoStrings GoTime.
























End DigitFacts.

Module RoundTripFacts.
Import GoStrings GoStringsFacts GoTime CalendarFacts DigitFacts.













End RoundTripFacts.

(** ** Timestamps in backup names (C6) *)




(** * Further properties of the engines *)

(** ** Effects of the system calls *)

Module SysFacts.
Import OS CompressFacts.

(** What no system call changes: the clock, the time zone and the process
    environment (program name, temporary directory, mask). *)
Definition same_env (w w' : World) : Prop :=
  w_now w' = w_now w /\ w_local w' = w_local w
  /\ w_args0 w' = w_args0 w /\ w_tmpdir w' = w_tmpdir w
  /\ w_umask w' = w_umask w.

Lemma same_env_refl w : same_env w w.
Proof. now unfold same_env. Qed.

Lemma same_env_trans w1 w2 w3 :
  same_env w1 w2 -> same_env w2 w3 -> same_env w1 w3.
Proof. unfold same_env. intuition congruence. Qed.

Ltac world_cbn_in H :=
  cbn [fst snd w_fs w_open w_nextfd w_trace w_gzip w_now w_local w_args0
       w_tmpdir w_umask w_faults log record set_fs set_open set_nextfd
       set_faults pop created_mode
       O_TRUNC O_CREATE O_APPEND
       h_path h_append h_off f_err fmap option_fmap option_map n_isdir n_data
       n_mode truncate new_file] in H.

Lemma put_bytes_env fd h p w : same_env w (put_bytes fd h p w).
Proof. unfold put_bytes. now destruct (w_fs w !! h_path h). Qed.

Lemma Stat_env n w x w' : Stat n w = (x, w') -> same_env w w'.
Proof. intros H. unfold Stat in H. rewrite next_fault_pop in H.
  go_cases; done. Qed.

Lemma MkdirAll_env n m w x w' : MkdirAll n m w = (x, w') -> same_env w w'.
Proof. intros H. unfold MkdirAll in H. rewrite next_fault_pop in H.
  go_cases; done. Qed.

Lemma Rename_env a b w x w' : Rename a b w = (x, w') -> same_env w w'.
Proof. intros H. unfold Rename in H. rewrite next_fault_pop in H.
  go_cases; done. Qed.

Lemma OpenFile_env n fl m w x w' : OpenFile n fl m w = (x, w') -> same_env w w'.
Proof. intros H. unfold OpenFile in H. rewrite next_fault_pop in H.
  go_cases; done. Qed.

Lemma FdClose_env fd w x w' : FdClose fd w = (x, w') -> same_env w w'.
Proof. intros H. unfold FdClose in H. rewrite next_fault_pop in H.
  go_cases; done. Qed.

Lemma chown_env n i w x w' : chown n i w = (x, w') -> same_env w w'.
Proof. intros H. unfold chown in H. rewrite next_fault_pop in H.
  go_cases; done. Qed.

Lemma FdWrite_env fd p w x w' : FdWrite fd p w = (x, w') -> same_env w w'.
Proof.
  intros H. unfold FdWrite in H. rewrite next_fault_pop in H.
  go_cases; try done;
    match goal with |- same_env _ (log (put_bytes ?a ?b ?c ?d) _ _) =>
      pose proof (put_bytes_env a b c d) end; unfold same_env in *; tauto.
Qed.

(** A successful [OpenFile]: the descriptor is the next free one, its
    offset is zero, and the file table changes at the opened path only, by
    truncation or creation as the flags say. *)
Lemma OpenFile_ok name fl perm w fd w' :
  OpenFile name fl perm w = (inl fd, w') ->
  fd = w_nextfd w
  /\ w_open w' = <[fd := {| h_path := Filepath.Clean name;
                            h_append := O_APPEND fl; h_off := 0 |}]> (w_open w)
  /\ match w_fs w !! Filepath.Clean name with
     | Some n =>
         n_isdir n = false
         /\ w_fs w' = if O_TRUNC fl
                      then <[Filepath.Clean name := truncate n (w_now w)]> (w_fs w)
                      else w_fs w
     | None =>
         O_CREATE fl = true
         /\ w_fs w' = <[Filepath.Clean name :=
                         new_file (created_mode perm w) (w_now w)]> (w_fs w)
     end.
Proof.
  unfold OpenFile. rewrite next_fault_pop.
  set (p := Filepath.Clean name). clearbody p.
  intros H. destruct (fault_of w); [discriminate H|]. world_cbn_in H.
  destruct (w_fs w !! p) as [n|] eqn:Hn.
  - destruct (n_isdir n); [discriminate H|].
    destruct (O_TRUNC fl); inversion H; auto.
  - destruct (O_CREATE fl); inversion H; auto.
Qed.

(** What [File.Write] does to the file under an open descriptor: some
    prefix [q] of [p] (all of it unless the call fails) lands at the
    descriptor's position. *)
Lemma FdWrite_ok fd p w k e w' h n :
  w_open w !! fd = Some h ->
  w_fs w !! h_path h = Some n ->
  FdWrite fd p w = ((k, e), w') ->
  let off := if h_append h then length (n_data n) else h_off h in
  exists q, k = Z.of_nat (length q)
    /\ (length q <= length p)%nat /\ (e = None -> q = p)
    /\ w_open w' = <[fd := {| h_path := h_path h; h_append := h_append h;
                              h_off := (off + length q)%nat |}]> (w_open w)
    /\ w_fs w' = <[h_path h := {| n_isdir := n_isdir n; n_mode := n_mode n;
                                  n_data := write_at (n_data n) off q;
                                  n_mtime := w_now w |}]> (w_fs w).
Proof.
  intros Ho Hn. unfold FdWrite. rewrite Ho, next_fault_pop.
  unfold put_bytes. world_cbn. rewrite Hn.
  destruct (fault_of w) as [ft|]; intros H; inversion H; subst; clear H.
  - exists (take (Nat.min (f_partial ft) (length p)) p).
    rewrite length_take. repeat split; try done; lia.
  - exists p. repeat split; try done.
Qed.

Lemma Stat_fs name w x w' :
  Stat name w = (x, w') -> w_fs w' = w_fs w /\ w_open w' = w_open w.
Proof.
  unfold Stat. rewrite next_fault_pop. intros H. go_cases; done.
Qed.

(** A successful [Stat] reports the entry at the cleaned path and changes
    neither the file table nor the descriptors. *)
Lemma Stat_ok name w info w' :
  Stat name w = (inl info, w') ->
  w_fs w' = w_fs w /\ w_open w' = w_open w
  /\ exists n, w_fs w !! Filepath.Clean name = Some n
       /\ info = info_of (Filepath.Base (Filepath.Clean name)) n.
Proof.
  unfold Stat. rewrite next_fault_pop.
  set (p := Filepath.Clean name). clearbody p.
  intros H. destruct (fault_of w); [discriminate H|]. world_cbn_in H.
  destruct (w_fs w !! p) as [n|] eqn:Hn; inversion H; eauto.
Qed.

Lemma FdClose_fs fd w x w' :
  FdClose fd w = (x, w') -> w_fs w' = w_fs w /\ w_open w' = delete fd (w_open w).
Proof.
  unfold FdClose. rewrite next_fault_pop.
  destruct (w_open w !! fd) eqn:Hfd; intros H; inversion H; subst; clear H.
  - done.
  - split; [done|]. symmetry. now apply delete_id.
Qed.

Lemma chown_fs name info w x w' :
  chown name info w = (x, w') -> w_fs w' = w_fs w /\ w_open w' = w_open w.
Proof.
  unfold chown. rewrite next_fault_pop. intros H. now inversion H.
Qed.

(** A successful [MkdirAll] adds at most the directory itself. *)
Lemma MkdirAll_ok d m w w' :
  MkdirAll d m w = (None, w') ->
  w_open w' = w_open w
  /\ (forall q, q <> Filepath.Clean d -> w_fs w' !! q = w_fs w !! q)
  /\ (forall n, w_fs w !! Filepath.Clean d = Some n -> w_fs w' = w_fs w).
Proof.
  unfold MkdirAll. rewrite next_fault_pop.
  set (p := Filepath.Clean d). clearbody p.
  intros H. destruct (fault_of w); [discriminate H|]. world_cbn_in H.
  destruct (w_fs w !! p) as [n|] eqn:Hn.
  - destruct (n_isdir n); inversion H; subst; clear H. auto.
  - inversion H; subst; clear H. world_cbn_in Hn. cbn.
    split; [done|]. split; [|intros n [=]].
    intros q Hq. now rewrite lookup_insert_ne.
Qed.

(** A successful [Rename] moves the entry. *)
Lemma Rename_ok a b w w' :
  Rename a b w = (None, w') ->
  w_open w' = w_open w
  /\ exists n, w_fs w !! Filepath.Clean a = Some n
       /\ w_fs w' = <[Filepath.Clean b := n]> (delete (Filepath.Clean a) (w_fs w)).
Proof.
  unfold Rename. rewrite next_fault_pop.
  set (pa := Filepath.Clean a). set (pb := Filepath.Clean b). clearbody pa pb.
  intros H. destruct (fault_of w); [discriminate H|]. world_cbn_in H.
  destruct (w_fs w !! pa) as [n|] eqn:Hn; [|discriminate H].
  destruct (w_fs w !! pb) as [n'|] eqn:Hn'.
  - destruct (n_isdir n'); inversion H; subst; clear H. eauto.
  - inversion H; subst; clear H. eauto.
Qed.

(** On a machine without planned failures. *)
Definition calm (w : World) : Prop := w_faults w = [].

Lemma calm_next_fault w : calm w -> next_fault w = (None, w).
Proof. unfold calm, next_fault. now intros ->. Qed.

Lemma FdClose_calm fd w x w' : calm w -> FdClose fd w = (x, w') -> calm w'.
Proof.
  intros Hc. unfold FdClose. rewrite (calm_next_fault w Hc).
  destruct (w_open w !! fd); intros H; inversion H; subst; done.
Qed.

Lemma MkdirAll_calm d m w x w' : calm w -> MkdirAll d m w = (x, w') -> calm w'.
Proof.
  intros Hc. unfold MkdirAll. rewrite (calm_next_fault w Hc).
  intros H. go_cases; done.
Qed.

Lemma Stat_calm name w x w' :
  calm w -> Stat name w = (x, w') ->
  calm w'
  /\ x = match w_fs w !! Filepath.Clean name with
         | Some n => inl (info_of (Filepath.Base (Filepath.Clean name)) n)
         | None => inr ENOENT
         end.
Proof.
  intros Hc. unfold Stat. rewrite (calm_next_fault w Hc).
  set (p := Filepath.Clean name). clearbody p.
  destruct (w_fs w !! p); intros H; inversion H; subst; done.
Qed.

End SysFacts.

(** ** The tracked size is the length of the log file *)

Module SizeFacts.
Import GoStrings OS Lumberjack SysFacts CompressFacts.

(** The engine's bookkeeping agrees with the machine: the tracked size is
    not negative, and an engine that holds a handle holds it on the
    canonical path, the tracked size is the length of the file there, and
    the next write through the handle lands at the end of that file. *)
Definition tracks (s : State) : Prop :=
  0 <= size s.1
  /\ match file s.1 with
     | None => True
     | Some fd =>
         exists h n,
           w_open s.2 !! fd = Some h
           /\ h_path h = Filepath.Clean (newFilename s.1 s.2)
           /\ w_fs s.2 !! h_path h = Some n
           /\ size s.1 = Z.of_nat (length (n_data n))
           /\ (h_append h = true \/ h_off h = length (n_data n))
     end.

Lemma newFilename_env r r' w w' :
  opts r' = opts r -> same_env w w' -> newFilename r' w' = newFilename r w.
Proof.
  unfold newFilename, same_env. intros -> (_ & _ & -> & -> & _). reflexivity.
Qed.

Ltac to_env :=
  repeat match goal with
  | H : Stat _ _ = _ |- _ => apply Stat_env in H
  | H : MkdirAll _ _ _ = _ |- _ => apply MkdirAll_env in H
  | H : Rename _ _ _ = _ |- _ => apply Rename_env in H
  | H : OpenFile _ _ _ _ = _ |- _ => apply OpenFile_env in H
  | H : FdClose _ _ = _ |- _ => apply FdClose_env in H
  | H : FdWrite _ _ _ = _ |- _ => apply FdWrite_env in H
  | H : chown _ _ _ = _ |- _ => apply chown_env in H
  end.

Ltac env_chain :=
  to_env;
  repeat first [ apply same_env_refl | eassumption
               | eapply same_env_trans; [eassumption|] ].

Lemma close_tracks s o s' :
  close s = (o, s') ->
  file s'.1 = None /\ size s'.1 = size s.1 /\ opts s'.1 = opts s.1
  /\ same_env s.2 s'.2.
Proof.
  unfold close. go_unfold. intros H.
  go_cases; repeat split; try done; env_chain.
Qed.

Lemma mill_frame s :
  exists r', mill s = (Ret tt, (r', s.2))
    /\ file r' = file s.1 /\ size r' = size s.1 /\ opts r' = opts s.1.
Proof.
  unfold mill. go_unfold. destruct s as [r w]; simpl.
  destruct (startMill r); simpl; repeat case_match; eauto.
Qed.

Lemma openNew_tracks s o s' :
  openNew s = (o, s') -> file s.1 = None -> 0 <= size s.1 ->
  tracks s' /\ opts s'.1 = opts s.1 /\ same_env s.2 s'.2
  /\ (o = Ret None -> size s'.1 = 0 /\ exists fd, file s'.1 = Some fd)
  /\ (size s'.1 = 0 \/ size s'.1 = size s.1).
Proof.
  unfold openNew, backupName. go_unfold. destruct s as [r w]; simpl.
  intros H Hf Hs.
  go_cases;
    try match goal with
        | H : OpenFile _ _ _ _ = (inl _, _) |- _ =>
            pose proof (OpenFile_ok _ _ _ _ _ _ H) as (Hfd & Hop & Hfs)
        end;
    unfold tracks; simpl; rewrite ?Hf;
    (split; [split; [lia|]|]);
    try (repeat split; try done; try (now left); try (now right);
         try (now eexists); env_chain).
  all: destruct (w_fs _ !! Filepath.Clean _) as [n0|];
    destruct Hfs as (_ & Hfs); cbn [O_TRUNC O_CREATE_WRONLY_TRUNC] in Hfs.
  all: eexists _, _; (split; [rewrite Hop; apply lookup_insert_eq|]);
    cbn [h_path h_append h_off];
    (split; [f_equal; symmetry; apply newFilename_env; [done|env_chain]|]);
    (split; [rewrite Hfs; apply lookup_insert_eq|]); simpl; auto.
Qed.

Lemma tracks_frame r r' w :
  file r' = file r -> size r' = size r -> opts r' = opts r ->
  tracks (r, w) -> tracks (r', w).
Proof.
  unfold tracks. simpl. intros -> -> Ho (Hs & Ht). split; [done|].
  destruct (file r) as [fd|]; [|done].
  destruct Ht as (h & n & ? & Hp & ?). exists h, n.
  rewrite (newFilename_env r r' w w Ho (same_env_refl w)). auto.
Qed.

Lemma rotate_tracks s o s' :
  rotate s = (o, s') -> 0 <= size s.1 ->
  tracks s' /\ opts s'.1 = opts s.1 /\ same_env s.2 s'.2
  /\ (o = Ret None -> size s'.1 = 0 /\ exists fd, file s'.1 = Some fd)
  /\ (size s'.1 = 0 \/ size s'.1 = size s.1).
Proof.
  unfold rotate. go_unfold. destruct s as [r w]; simpl. intros H Hs.
  destruct (close _) as [o1 [r1 w1]] eqn:Hc.
  apply close_tracks in Hc as (Hf1 & Hs1 & Ho1 & He1). simpl in *.
  assert (He : same_env w w1) by (destruct He1 as (?&?&?&?); now split).
  assert (Ht1 : tracks (r1, w1)).
  { unfold tracks; simpl. rewrite Hf1. split; [lia|done]. }
  destruct o1 as [[e|]|msg]; simplify_eq/=;
    try (split; [exact Ht1|]; split; [done|]; split; [done|];
         split; [intros [=]|now right]).
  destruct (openNew _) as [o2 [r2 w2]] eqn:Hn.
  apply openNew_tracks in Hn as (Ht2 & Ho2 & He2 & Hz2 & Hs2);
    [|done|simpl; lia]. simpl in *.
  assert (He' : same_env w w2) by (eapply same_env_trans; eassumption).
  assert (Hs' : size r2 = 0 \/ size r2 = size r) by (rewrite <- Hs1; exact Hs2).
  destruct o2 as [[e|]|msg]; simplify_eq/=;
    try (split; [exact Ht2|]; split; [congruence|]; split; [done|];
         split; [intros [=]|exact Hs']).
  destruct (mill_frame (r2, w2)) as (r3 & Hm & Hf3 & Hs3 & Ho3).
  rewrite Hm in H. simplify_eq/=.
  split; [eapply tracks_frame; eassumption|].
  split; [congruence|]. split; [done|].
  destruct (Hz2 eq_refl) as (Hz & fd & Hfd).
  split; [intros _; split; [congruence|exists fd; congruence]|].
  rewrite Hs3. exact Hs'.
Qed.

Lemma add64_small a b :
  0 <= a -> 0 <= b -> a + b <= max_int64 -> add64 a b = a + b.
Proof.
  intros. unfold add64. apply wrap64_small. unfold min_int64, max_int64 in *.
  lia.
Qed.

(** [File.Write] through a handle that [tracks]: it always returns, the
    count is between 0 and the length of [p], and adding the count keeps
    the bookkeeping exact. *)
Lemma file_Write_tracks p s :
  tracks s -> size s.1 + Z.of_nat (length p) <= max_int64 ->
  exists n e w',
    file_Write (file s.1) p s = (Ret (n, e), (s.1, w'))
    /\ 0 <= n <= Z.of_nat (length p)
    /\ same_env s.2 w'
    /\ tracks (set_size s.1 (add64 (size s.1) n), w').
Proof.
  destruct s as [r w]. unfold tracks. simpl. intros (Hs & Ht) Hmax.
  destruct (file r) as [fd|] eqn:Hf.
  - destruct Ht as (h & n & Ho & Hp & Hn & Hsz & Hoff).
    unfold file_Write. go_unfold.
    destruct (FdWrite fd p w) as [[k e] w'] eqn:Hw.
    pose proof (FdWrite_ok _ _ _ _ _ _ _ _ Ho Hn Hw)
      as (q & Hk & Hlen & He & Hop & Hfs).
    pose proof (FdWrite_env _ _ _ _ _ Hw) as Henv.
    exists k, (ErrOS <$> e), w'.
    split; [reflexivity|]. split; [lia|]. split; [exact Henv|].
    rewrite add64_small by lia. split; [simpl; lia|].
    eexists _, _. split; [rewrite Hop; apply lookup_insert_eq|].
    cbn [h_path h_append h_off].
    split; [rewrite Hp; f_equal; symmetry; now apply newFilename_env|].
    split; [rewrite Hfs; apply lookup_insert_eq|]. cbn [n_data].
    assert (Hat : (if h_append h then length (n_data n) else h_off h)
                  = length (n_data n)).
    { destruct (h_append h); [done|]. now destruct Hoff. }
    rewrite Hat, write_at_end, length_app. split; [lia|]. right. lia.
  - exists 0, (Some (ErrOS ErrInvalid)), w.
    split; [reflexivity|]. split; [lia|]. split; [apply same_env_refl|].
    rewrite add64_small by lia. split; [simpl; lia|done].
Qed.

Lemma Write_tracks p s :
  tracks s -> size s.1 + Z.of_nat (length p) <= max_int64 ->
  tracks (Write p s).2.
Proof.
  intros Ht Hmax. pose proof Ht as (Hs & _).
  unfold Write. go_unfold. destruct s as [r w]; simpl in *.
  destruct (_ && _); [exact Ht|].
  destruct (_ =? SizeRotateStrategy).
  - destruct (add64 _ _ >? _).
    + destruct (rotate _) as [o1 [r1 w1]] eqn:Hr.
      apply rotate_tracks in Hr as (Ht1 & Ho1 & He1 & Hz1 & Hs1); [|done].
      simpl in *.
      destruct o1 as [[e|]|msg]; try exact Ht1.
      destruct (Hz1 eq_refl) as (Hz & _).
      destruct (file_Write_tracks p (r1, w1)) as (n & e & w' & Hw & Hn & _ & Ht');
        [done|simpl; lia|]. simpl in *. rewrite Hw. simpl. exact Ht'.
    + destruct (file_Write_tracks p (r, w)) as (n & e & w' & Hw & Hn & _ & Ht');
        [done|done|]. simpl in *. rewrite Hw. simpl. exact Ht'.
  - destruct (_ =? DirectRotateStrategy); [|exact Ht].
    destruct (file_Write_tracks p (r, w)) as (n & e & w' & Hw & Hn & _ & Ht');
      [done|done|]. simpl in *. rewrite Hw. simpl.
    destruct (rotate _) as [o1 [r1 w1]] eqn:Hr.
    apply rotate_tracks in Hr as (Ht1 & _); [|exact (proj1 Ht')].
    now destruct o1 as [[e0|]|msg].
Qed.

(** The size of the canonical file, should it exist, fits an int64. *)
Definition canonical_fits (s : State) (writeLen : Z) : Prop :=
  forall n, w_fs s.2 !! Filepath.Clean (newFilename s.1 s.2) = Some n ->
            Z.of_nat (length (n_data n)) + writeLen <= max_int64.

Lemma openExistingOrNew_tracks writeLen s o s' :
  openExistingOrNew writeLen s = (o, s') ->
  file s.1 = None -> size s.1 = 0 ->
  tracks s' /\ opts s'.1 = opts s.1
  /\ (o = Ret None -> exists fd, file s'.1 = Some fd)
  /\ (Strategy (opts s.1) = SizeRotateStrategy ->
      0 < FileMaxSize (opts s.1) -> 0 <= writeLen ->
      canonical_fits s writeLen ->
      size s'.1 <= FileMaxSize (opts s.1)).
Proof.
  unfold openExistingOrNew, canonical_fits. go_unfold.
  destruct s as [r w]; simpl. intros H Hf Hz.
  destruct (mill_frame (r, w)) as (r0 & Hm & Hf0 & Hs0 & Ho0). simpl in *.
  rewrite Hm in H. simpl in H.
  rewrite (newFilename_env r r0 w w Ho0 (same_env_refl w)) in H.
  rewrite Hf in Hf0. rewrite Hz in Hs0. rewrite <- Ho0.
  remember (newFilename r w) as name eqn:Hname.
  assert (Ht0 : forall w1, tracks (r0, w1)).
  { intros w1. unfold tracks; simpl. rewrite Hf0, Hs0. split; [lia|done]. }
  destruct (Stat name w) as [[info|e] w1] eqn:Hst.
  - pose proof (Stat_ok _ _ _ _ Hst) as (Hfs1 & Hop1 & n & Hn & Hinfo).
    destruct ((_ =? SizeRotateStrategy) && _) eqn:Hsz;
      [|destruct ((_ =? DirectRotateStrategy) && _) eqn:Hdir].
    + apply rotate_tracks in H as (Ht & Ho & _ & Hok & Hs); [|simpl; lia].
      simpl in *. split; [done|]. split; [done|].
      split; [intros Hr; now destruct (Hok Hr)|]. intros; lia.
    + apply rotate_tracks in H as (Ht & Ho & _ & Hok & Hs); [|simpl; lia].
      simpl in *. split; [done|]. split; [done|].
      split; [intros Hr; now destruct (Hok Hr)|]. intros; lia.
    + destruct (OpenFile _ _ _ _) as [[fd|e] w2] eqn:Hof; simpl in H.
      * simplify_eq/=.
        pose proof (OpenFile_ok _ _ _ _ _ _ Hof) as (Hfd & Hop & Hfs).
        rewrite Hfs1, Hn in Hfs. destruct Hfs as (_ & Hfs).
        cbn [O_TRUNC O_APPEND_WRONLY] in Hfs.
        assert (Hlen : forall b, fi_size (info_of b n)
                                 = Z.of_nat (length (n_data n))) by reflexivity.
        split.
        { unfold tracks; simpl. split; [lia|].
          eexists _, n. split; [rewrite Hop; apply lookup_insert_eq|].
          cbn [h_path h_append h_off].
          split; [f_equal; symmetry; apply newFilename_env;
                  [done|env_chain]|].
          split; [now rewrite Hfs|]. split; [done|now left]. }
        split; [done|]. split; [eauto|].
        intros Hstr Hpos Hw Hfit. rewrite ?Hlen.
        rewrite Hstr in Hsz. simpl in Hsz. rewrite ?Hlen in Hsz.
        specialize (Hfit n Hn).
        rewrite add64_small in Hsz by lia. lia.
      * apply openNew_tracks in H as (Ht & Ho & _ & Hok & Hs);
          [|done|simpl; lia]. simpl in *.
        split; [done|]. split; [done|].
        split; [intros Hr; now destruct (Hok Hr)|]. intros; lia.
  - destruct (IsNotExist e).
    + apply openNew_tracks in H as (Ht & Ho & _ & Hok & Hs);
        [|done|simpl; lia]. simpl in *.
      split; [done|]. split; [done|].
      split; [intros Hr; now destruct (Hok Hr)|]. intros; lia.
    + simplify_eq/=. split; [apply Ht0|]. split; [done|].
      split; [intros [=]|]. intros; lia.
Qed.

(** The engine built by the constructor, whatever its result. *)
Lemma constructor_tracks o w out s :
  NewLumberjackRollerFromOptions o w = (out, s) ->
  tracks s /\ opts s.1 = o
  /\ (out = Ret None ->
      FileName o <> ""
      /\ (Strategy o = SizeRotateStrategy -> 0 < FileMaxSize o)
      /\ exists fd, file s.1 = Some fd)
  /\ (Strategy o = SizeRotateStrategy -> 0 < FileMaxSize o ->
      (forall n, w_fs w !! Filepath.Clean (FileName o) = Some n ->
                 Z.of_nat (length (n_data n)) <= max_int64) ->
      size s.1 <= FileMaxSize o).
Proof.
  unfold NewLumberjackRollerFromOptions. intros H.
  set (r := {| opts := o; size := 0; file := None; millCh := None;
               startMill := false |}) in *.
  assert (Ht0 : tracks (r, w)) by (unfold tracks; simpl; split; [lia|done]).
  destruct (_ && _) eqn:Hcfg.
  { simplify_eq/=. split; [done|]. split; [done|]. split; [intros [=]|].
    intros; lia. }
  destruct (bool_decide _) eqn:Hname.
  { simplify_eq/=. split; [done|]. split; [done|]. split; [intros [=]|].
    intros; lia. }
  apply bool_decide_eq_false in Hname.
  unfold bind, ret in H.
  destruct (openExistingOrNew 0 (r, w)) as [o1 s1] eqn:Hopen.
  apply openExistingOrNew_tracks in Hopen as (Ht & Ho & Hok & Hsz);
    [|done|done]. simpl in Ho.
  assert (Hbound : Strategy o = SizeRotateStrategy -> 0 < FileMaxSize o ->
      (forall n, w_fs w !! Filepath.Clean (FileName o) = Some n ->
                 Z.of_nat (length (n_data n)) <= max_int64) ->
      size s1.1 <= FileMaxSize o).
  { intros Hstr Hpos Hfit. apply Hsz; try done.
    unfold canonical_fits, newFilename. simpl.
    rewrite bool_decide_eq_false_2 by done. simpl. intros n Hn.
    specialize (Hfit n Hn). lia. }
  destruct o1 as [[e|]|msg]; simplify_eq/=.
  - split; [done|]. split; [done|]. split; [intros [=]|]. exact Hbound.
  - split; [done|]. split; [done|]. split; [|exact Hbound].
    intros _. split; [done|]. split; [|now apply Hok].
    intros Hstr. rewrite Hstr in Hcfg. simpl in Hcfg.
    apply Z.leb_gt in Hcfg. lia.
  - split; [done|]. split; [done|]. split; [intros [=]|]. exact Hbound.
Qed.

(** Under the size strategy the tracked size stays within the limit. *)
Lemma Write_within p s :
  Strategy (opts s.1) = SizeRotateStrategy ->
  0 < FileMaxSize (opts s.1) ->
  2 * FileMaxSize (opts s.1) <= max_int64 ->
  tracks s -> size s.1 <= FileMaxSize (opts s.1) ->
  tracks (Write p s).2
  /\ size (Write p s).2.1 <= FileMaxSize (opts s.1)
  /\ opts (Write p s).2.1 = opts s.1.
Proof.
  intros Hstr Hpos Hmax Ht Hle. pose proof Ht as (Hs & _).
  split.
  { destruct (Z_le_gt_dec (Z.of_nat (length p)) (FileMaxSize (opts s.1)))
      as [Hp|Hp].
    - apply Write_tracks; [done|lia].
    - unfold Write. go_unfold. rewrite !gtb_true by lia. exact Ht. }
  unfold Write. go_unfold. destruct s as [r w]; simpl in *.
  set (S := FileMaxSize (opts r)) in *.
  destruct ((S >? 0) && _) eqn:Hover; [done|].
  rewrite gtb_true in Hover by lia. simpl in Hover.
  rewrite Z.gtb_ltb in Hover. apply Z.ltb_ge in Hover.
  rewrite Hstr. simpl.
  rewrite add64_small by lia.
  destruct (_ >? S) eqn:Htrig.
  - destruct (rotate _) as [o1 [r1 w1]] eqn:Hr.
    apply rotate_tracks in Hr as (Ht1 & Ho1 & He1 & Hz1 & Hs1); [|done].
    simpl in *.
    destruct o1 as [[e|]|msg]; try (simpl; split; [lia|done]).
    destruct (Hz1 eq_refl) as (Hz & _).
    destruct (file_Write_tracks p (r1, w1)) as (n & e & w' & Hw & Hn & _ & Ht');
      [done|simpl; lia|]. simpl in *. rewrite Hw. simpl.
    rewrite add64_small by lia. split; [lia|done].
  - rewrite Z.gtb_ltb in Htrig. apply Z.ltb_ge in Htrig.
    destruct (file_Write_tracks p (r, w)) as (n & e & w' & Hw & Hn & _ & Ht');
      [done|simpl; lia|]. simpl in *. rewrite Hw. simpl.
    rewrite add64_small by lia. split; [lia|done].
Qed.

(** A sequence of writes, whatever each returns. *)
Definition writes (ps : list (list Byte.byte)) (s : State) : State :=
  fold_left (fun s p => (Write p s).2) ps s.

Lemma writes_within ps s :
  Strategy (opts s.1) = SizeRotateStrategy ->
  0 < FileMaxSize (opts s.1) ->
  2 * FileMaxSize (opts s.1) <= max_int64 ->
  tracks s -> size s.1 <= FileMaxSize (opts s.1) ->
  tracks (writes ps s)
  /\ size (writes ps s).1 <= FileMaxSize (opts s.1)
  /\ opts (writes ps s).1 = opts s.1.
Proof.
  revert s. induction ps as [|p ps IH]; intros s Hstr Hpos Hmax Ht Hle.
  - done.
  - simpl.
    destruct (Write_within p s Hstr Hpos Hmax Ht Hle) as (Ht1 & Hle1 & Ho1).
    destruct (IH (Write p s).2) as (Ht2 & Hle2 & Ho2);
      rewrite ?Ho1; try done.
    rewrite Ho1 in Hle2. split; [done|]. split; [done|]. congruence.
Qed.

End SizeFacts.

(** X1.  The strategy-mode engine keeps its size counter exact.  Suppose
    the tracked size is not negative and, when the engine holds a handle,
    the handle is open on the canonical path, the tracked size is the
    length of the file there and the handle writes at its end.  Then the
    same holds after [Write] (for any strategy, whatever it returns, short
    writes and failed or panicking rotations included), after [Rotate] and
    after [Close], provided the addition to the counter does not overflow
    an int64. *)
Theorem lumberjack_size_is_file_length
    (p : list Byte.byte) (s : Lumberjack.State) :
  SizeFacts.tracks s ->
  Lumberjack.size s.1 + Z.of_nat (length p) <= max_int64 ->
  SizeFacts.tracks (Lumberjack.Write p s).2
  /\ SizeFacts.tracks (Lumberjack.Rotate s).2
  /\ SizeFacts.tracks (Lumberjack.Close s).2.
Proof.
  intros Ht Hmax. split; [now apply SizeFacts.Write_tracks|].
  pose proof Ht as (Hs & _). split.
  - destruct (Lumberjack.Rotate s) as [o s'] eqn:Hr.
    now apply SizeFacts.rotate_tracks in Hr as (? & _).
  - destruct (Lumberjack.Close s) as [o s'] eqn:Hc.
    apply SizeFacts.close_tracks in Hc as (Hf & Hsz & _).
    unfold SizeFacts.tracks. simpl. rewrite Hf, Hsz. now split.
Qed.

Lemma lumberjack_size_is_file_length_witness :
  SizeFacts.tracks
    (Lumberjack.Write (Scenario.zeros 60) (Scenario.fresh Scenario.size100)).2
  /\ SizeFacts.tracks (Lumberjack.Rotate (Scenario.fresh Scenario.size100)).2
  /\ SizeFacts.tracks (Lumberjack.Close (Scenario.fresh Scenario.size100)).2.
Proof.
  apply (lumberjack_size_is_file_length (Scenario.zeros 60)
           (Scenario.fresh Scenario.size100)).
  - split; [vm_compute; discriminate|].
    eexists _, _. repeat apply conj; try (vm_compute; reflexivity).
    right. vm_compute. reflexivity.
  - vm_compute. discriminate.
Defined.

(** X2.  What the constructor hands out.  Whatever
    [NewLumberjackRollerFromOptions] returns, the engine it built carries
    the given options and exact bookkeeping (see [SizeFacts.tracks]).  When
    it returns no error, the file name is not empty, under the size
    strategy the per-file limit is positive, and the engine holds a handle.
    Under the size strategy with a positive limit the tracked size starts
    within the limit, provided the size of an existing log file fits an
    int64. *)
Theorem constructor_opens_tracked_file (o : Lumberjack.Options) (w : OS.World) :
  let out := (Lumberjack.NewLumberjackRollerFromOptions o w).1 in
  let s := (Lumberjack.NewLumberjackRollerFromOptions o w).2 in
  SizeFacts.tracks s
  /\ Lumberjack.opts s.1 = o
  /\ (out = Ret None ->
      Lumberjack.FileName o <> ""
      /\ (Lumberjack.Strategy o = Lumberjack.SizeRotateStrategy ->
          0 < Lumberjack.FileMaxSize o)
      /\ exists fd, Lumberjack.file s.1 = Some fd)
  /\ (Lumberjack.Strategy o = Lumberjack.SizeRotateStrategy ->
      0 < Lumberjack.FileMaxSize o ->
      (forall n, OS.w_fs w !! Filepath.Clean (Lumberjack.FileName o) = Some n ->
                 Z.of_nat (length (OS.n_data n)) <= max_int64) ->
      Lumberjack.size s.1 <= Lumberjack.FileMaxSize o).
Proof.
  cbv zeta.
  destruct (Lumberjack.NewLumberjackRollerFromOptions o w) as [out s] eqn:H.
  exact (SizeFacts.constructor_tracks o w out s H).
Qed.

(** X3.  Under the size strategy the current log file never outgrows the
    per-file limit.  Let the limit S be positive and small enough that two
    lengths within it add without overflow (2 S <= max int64), and start
    from exact bookkeeping with a tracked size of at most S.  Then after any
    sequence of [Write] calls, whatever each of them returned, the
    bookkeeping is still exact, so the tracked size is the length of the
    file under the handle, and it is at most S. *)
Theorem size_strategy_keeps_file_within_max
    (ps : list (list Byte.byte)) (s : Lumberjack.State) :
  Lumberjack.Strategy (Lumberjack.opts s.1) = Lumberjack.SizeRotateStrategy ->
  0 < Lumberjack.FileMaxSize (Lumberjack.opts s.1) ->
  2 * Lumberjack.FileMaxSize (Lumberjack.opts s.1) <= max_int64 ->
  SizeFacts.tracks s ->
  Lumberjack.size s.1 <= Lumberjack.FileMaxSize (Lumberjack.opts s.1) ->
  SizeFacts.tracks (SizeFacts.writes ps s)
  /\ Lumberjack.size (SizeFacts.writes ps s).1
     <= Lumberjack.FileMaxSize (Lumberjack.opts s.1)
  /\ Lumberjack.opts (SizeFacts.writes ps s).1 = Lumberjack.opts s.1.
Proof. apply SizeFacts.writes_within. Qed.

Lemma size_strategy_keeps_file_within_max_witness :
  let s := Scenario.fresh Scenario.size100 in
  let ps := [Scenario.zeros 60; Scenario.zeros 60; Scenario.zeros 100] in
  SizeFacts.tracks (SizeFacts.writes ps s)
  /\ Lumberjack.size (SizeFacts.writes ps s).1
     <= Lumberjack.FileMaxSize (Lumberjack.opts s.1)
  /\ Lumberjack.opts (SizeFacts.writes ps s).1 = Lumberjack.opts s.1.
Proof.
  cbv zeta.
  apply (size_strategy_keeps_file_within_max
           [Scenario.zeros 60; Scenario.zeros 60; Scenario.zeros 100]
           (Scenario.fresh Scenario.size100)).
  - reflexivity.
  - vm_compute. reflexivity.
  - vm_compute. discriminate.
  - split; [vm_compute; discriminate|].
    eexists _, _. repeat apply conj; try (vm_compute; reflexivity).
    right. vm_compute. reflexivity.
  - vm_compute. discriminate.
Defined.

(** ** The retention signal and its worker *)

Module MillFacts.
Import OS Lumberjack.

(** Signals waiting in the channel. *)
Definition pending (r : LumberjackRoller) : nat :=
  match millCh r with Some n => n | None => 0%nat end.

(** [k] calls of [mill] in a row. *)
Definition mills (k : nat) (s : State) : State :=
  Nat.iter k (fun s => (mill s).2) s.

Lemma mill_idem s : (mill (mill s).2).2 = (mill s).2.
Proof.
  unfold mill. go_unfold. destruct s as [[o sz f ch st] w]; simpl.
  destruct st; simpl; [|done].
  destruct ch as [[|[|n]]|]; done.
Qed.

Lemma mills_S k s : mills (S k) s = (mill s).2.
Proof.
  induction k as [|k IH]; [done|].
  change (mills (S (S k)) s) with ((mill (mills (S k) s)).2).
  rewrite IH. apply mill_idem.
Qed.

(** A computation that leaves the engine's fields alone. *)
Definition keeps {A} (m : M State A) : Prop := forall s, (m s).2.1 = s.1.

Lemma keeps_ret {A} (a : A) : keeps (ret a).
Proof. done. Qed.

Lemma keeps_panic {A} msg : keeps (@panic State A msg).
Proof. done. Qed.

Lemma keeps_get_self : keeps (@get_self LumberjackRoller).
Proof. done. Qed.

Lemma keeps_get_world : keeps (@get_world LumberjackRoller).
Proof. done. Qed.

Lemma keeps_sys {A} (f : World -> A * World) : keeps (sys f).
Proof. intros s. unfold sys. now destruct (f s.2). Qed.

Lemma keeps_bind {A B} (m : M State A) (k : A -> M State B) :
  keeps m -> (forall a, keeps (k a)) -> keeps (bind m k).
Proof.
  intros Hm Hk s. unfold bind. specialize (Hm s).
  destruct (m s) as [[a|msg] s1]; simpl in *; [|done].
  now rewrite Hk.
Qed.

Ltac keeps_tac :=
  repeat first
    [ apply keeps_ret | apply keeps_panic | apply keeps_get_self
    | apply keeps_get_world | apply keeps_sys
    | apply keeps_bind; [|intros]
    | case_match ].

Lemma keeps_compressLogFile src dst : keeps (compressLogFile src dst).
Proof. unfold compressLogFile, compress_return. keeps_tac. Qed.

Lemma keeps_remove_all names err : keeps (remove_all names err).
Proof.
  revert err. induction names as [|f names IH]; intros err; simpl;
    keeps_tac; apply IH.
Qed.

Lemma keeps_compress_all names err : keeps (compress_all names err).
Proof.
  revert err. induction names as [|f names IH]; intros err; simpl;
    keeps_tac; first [apply keeps_compressLogFile|apply IH].
Qed.

Lemma keeps_oldLogFiles : keeps oldLogFiles.
Proof. unfold oldLogFiles. keeps_tac. Qed.

Lemma keeps_millRunOnce : keeps millRunOnce.
Proof.
  unfold millRunOnce. keeps_tac;
    first [ apply keeps_oldLogFiles | apply keeps_remove_all
          | apply keeps_compress_all ].
Qed.

End MillFacts.

(** X4.  Rotations coalesce their retention signals: [mill] always
    returns, makes no system call and touches neither the handle nor the
    tracked size; the first call starts the worker, and any number of calls
    in a row leaves the engine exactly as a single call does, with one
    signal waiting for the worker (given the channel was nil, empty or
    holding one signal). *)
Theorem mill_queues_one_signal (s : Lumberjack.State) (k : nat) :
  let s' := MillFacts.mills (S k) s in
  (Lumberjack.mill s).1 = Ret tt
  /\ s' = (Lumberjack.mill s).2
  /\ s'.2 = s.2
  /\ Lumberjack.file s'.1 = Lumberjack.file s.1
  /\ Lumberjack.size s'.1 = Lumberjack.size s.1
  /\ Lumberjack.opts s'.1 = Lumberjack.opts s.1
  /\ Lumberjack.startMill s'.1 = true
  /\ (Lumberjack.startMill s.1 = false
      \/ Lumberjack.millCh s.1 = Some 0%nat
      \/ Lumberjack.millCh s.1 = Some 1%nat ->
      Lumberjack.millCh s'.1 = Some 1%nat).
Proof.
  cbv zeta. rewrite MillFacts.mills_S.
  unfold Lumberjack.mill. go_unfold. destruct s as [[o sz f ch st] w]; simpl.
  destruct st; simpl.
  - destruct ch as [[|[|n]]|]; simpl; repeat split; try done;
      intros [H|[H|H]]; done.
  - repeat split; done.
Qed.

(** X5.  One step of the worker [millRun]: without a waiting signal it
    does nothing at all; with one it takes the signal and runs one pass of
    [millRunOnce].  Either way, and whatever the pass did or returned
    (error and panic included), the engine's options, tracked size and
    file handle are as before and one signal fewer is waiting. *)
Theorem millRun_step_consumes_one_signal (s : Lumberjack.State) :
  let s' := (Lumberjack.millRun_step s).2 in
  Lumberjack.opts s'.1 = Lumberjack.opts s.1
  /\ Lumberjack.size s'.1 = Lumberjack.size s.1
  /\ Lumberjack.file s'.1 = Lumberjack.file s.1
  /\ Lumberjack.startMill s'.1 = Lumberjack.startMill s.1
  /\ MillFacts.pending s'.1 = Nat.pred (MillFacts.pending s.1)
  /\ (MillFacts.pending s.1 = 0%nat ->
      Lumberjack.millRun_step s = (Ret tt, s))
  /\ (forall n, Lumberjack.millCh s.1 = Some (S n) ->
      s'.2 = (Lumberjack.millRunOnce
                (Lumberjack.set_mill s.1 (Some n) (Lumberjack.startMill s.1),
                 s.2)).2.2).
Proof.
  cbv zeta. unfold Lumberjack.millRun_step, MillFacts.pending. go_unfold.
  destruct s as [[o sz f ch st] w]; simpl.
  destruct ch as [[|n]|]; simpl; try (repeat split; done).
  match goal with
  | |- context [Lumberjack.millRunOnce ?s0] =>
      pose proof (MillFacts.keeps_millRunOnce s0) as Hk;
      destruct (Lumberjack.millRunOnce s0) as [[e|msg] [r1 w1]] eqn:Hrun
  end; simpl in *; subst r1; simpl; repeat split; try done;
    intros m [= <-]; now rewrite Hrun.
Qed.

(** X6.  [Close] of the strategy-mode engine can be repeated.  It always
    returns; afterwards the engine holds no handle and the descriptor it
    held is released, even when closing it reported an error; the file
    table, the tracked size and the retention channel are as before.  A
    second [Close] returns nil and changes nothing: it makes no system
    call. *)
Theorem lumberjack_Close_can_be_repeated (s : Lumberjack.State) :
  let s1 := (Lumberjack.Close s).2 in
  (exists e, (Lumberjack.Close s).1 = Ret e)
  /\ Lumberjack.file s1.1 = None
  /\ Lumberjack.size s1.1 = Lumberjack.size s.1
  /\ Lumberjack.millCh s1.1 = Lumberjack.millCh s.1
  /\ Lumberjack.opts s1.1 = Lumberjack.opts s.1
  /\ OS.w_fs s1.2 = OS.w_fs s.2
  /\ (forall fd, Lumberjack.file s.1 = Some fd -> OS.w_open s1.2 !! fd = None)
  /\ Lumberjack.Close s1 = (Ret None, s1).
Proof.
  cbv zeta. unfold Lumberjack.Close, Lumberjack.close. go_unfold.
  destruct s as [[o sz f ch st] w]; simpl.
  destruct f as [fd|]; simpl.
  - unfold OS.FdClose. rewrite CompressFacts.next_fault_pop.
    destruct (OS.w_open w !! fd) as [h|] eqn:Hfd; simpl.
    + repeat split; eauto. intros fd' [= <-]. apply lookup_delete_eq.
    + repeat split; eauto. now intros fd' [= <-].
  - repeat split; eauto. intros fd [=].
Qed.

(** ** What rotation does to the files *)

Module RotationFacts.
Import GoStrings OS Lumberjack SysFacts SizeFacts CompressFacts.

(** [backupName] reads the options and the clock only. *)
Lemma backupName_env name l r w r' w' :
  opts r' = opts r -> same_env w w' ->
  (backupName name l (r', w')).1 = (backupName name l (r, w)).1.
Proof.
  unfold backupName, Now, same_env, bind, ret, panic, get_self, get_world.
  cbn [fst snd]. intros -> (-> & -> & _). now destruct l.
Qed.

Lemma backupName_state name l s : (backupName name l s).2 = s.
Proof.
  unfold backupName, bind, ret, panic, get_self, get_world. cbn [fst snd].
  now destruct l.
Qed.

(** What a successful [openNew] does to an existing canonical file. *)
Lemma openNew_fs r w r' w' n newname :
  let name := newFilename r w in
  let po := Filepath.Clean name in
  let pn := Filepath.Clean newname in
  let pd := Filepath.Clean (dir r w) in
  w_fs w !! po = Some n ->
  (backupName name (BackupTimeLocation (opts r)) (r, w)).1 = Ret newname ->
  pn <> po ->
  openNew (r, w) = (Ret None, (r', w')) ->
  (forall q, q <> po -> q <> pn -> q <> pd -> w_fs w' !! q = w_fs w !! q)
  /\ ((w_fs w' !! pn = Some n
       /\ w_fs w' !! po = Some (new_file (created_mode (n_mode n) w) (w_now w)))
      \/ (w_fs w' !! po = Some (truncate n (w_now w))
          /\ (pn <> pd -> w_fs w' !! pn = w_fs w !! pn)))
  /\ (calm w ->
      w_fs w' !! pn = Some n
      /\ w_fs w' !! po = Some (new_file (created_mode (n_mode n) w) (w_now w))).
Proof.
  cbv zeta. unfold dir.
  remember (newFilename r w) as name eqn:Hname.
  set (po := Filepath.Clean name). set (pn := Filepath.Clean newname).
  set (pd := Filepath.Clean (Filepath.Dir name)).
  intros Hn Hb Hne H.
  unfold openNew, bind, ret, get_self, get_world, sys, dir in H.
  cbn [fst snd] in H. rewrite <- Hname in H.
  destruct (MkdirAll _ _ w) as [[e|] w2] eqn:Hmk; [discriminate H|].
  cbn [fst snd] in H.
  pose proof (MkdirAll_ok _ _ _ _ Hmk) as (_ & Hfr2 & Hsame2).
  pose proof (MkdirAll_env _ _ _ _ _ Hmk) as He2.
  fold pd in Hfr2, Hsame2.
  assert (Hn2 : w_fs w2 !! po = Some n).
  { destruct (decide (po = pd)) as [Heq|Hd].
    - rewrite (Hsame2 n); [done|]. now rewrite <- Heq.
    - now rewrite Hfr2. }
  destruct (Stat name w2) as [[info|e] w3] eqn:Hst;
    pose proof (same_env_trans _ _ _ He2 (Stat_env _ _ _ _ Hst)) as He3;
    cbn [fst snd] in H.
  - pose proof (Stat_ok _ _ _ _ Hst) as (Hfs3 & _ & n' & Hn' & Hinfo).
    fold po in Hn'. rewrite Hn2 in Hn'. injection Hn' as <-.
    pose proof (backupName_env name (BackupTimeLocation (opts r)) r w r w3
                  eq_refl) as Hbe.
    pose proof (backupName_state name (BackupTimeLocation (opts r)) (r, w3))
      as Hbs.
    rewrite Hb in Hbe.
    destruct (backupName name _ (r, w3)) as [[nm|msg] s4] eqn:Hbn;
      cbn [fst snd] in *.
    2:{ specialize (Hbe He3). discriminate Hbe. }
    assert (nm = newname) as ->.
    { specialize (Hbe He3). now inversion Hbe. }
    subst s4. cbn [fst snd] in H.
    destruct (Rename _ _ w3) as [[e|] w5] eqn:Hrn; [discriminate H|].
    cbn [fst snd] in H.
    pose proof (Rename_ok _ _ _ _ Hrn) as (_ & n' & Hn' & Hfs5).
    fold po in Hn', Hfs5. fold pn in Hfs5.
    rewrite Hfs3, Hn2 in Hn'. injection Hn' as <-.
    destruct (chown _ _ w5) as [[e|] w6] eqn:Hch; [discriminate H|].
    cbn [fst snd] in H.
    pose proof (chown_fs _ _ _ _ _ Hch) as (Hfs6 & _).
    destruct (OpenFile _ _ _ w6) as [[fd|e] w7] eqn:Hof; [|discriminate H].
    cbn [fst snd] in H.
    pose proof (OpenFile_ok _ _ _ _ _ _ Hof) as (_ & _ & Hfs7).
    fold po in Hfs7. rewrite Hfs6, Hfs5 in Hfs7.
    rewrite lookup_insert_ne, lookup_delete_eq in Hfs7 by done.
    destruct Hfs7 as (_ & Hfs7).
    assert (Hnow : w_now w6 = w_now w).
    { pose proof (same_env_trans _ _ _
                    (same_env_trans _ _ _ He3 (Rename_env _ _ _ _ _ Hrn))
                    (chown_env _ _ _ _ _ Hch)) as He.
      apply He. }
    assert (Hum : w_umask w6 = w_umask w).
    { pose proof (same_env_trans _ _ _
                    (same_env_trans _ _ _ He3 (Rename_env _ _ _ _ _ Hrn))
                    (chown_env _ _ _ _ _ Hch)) as He.
      apply He. }
    unfold created_mode in *.
    rewrite Hnow, Hum, Hfs3, Hinfo in Hfs7. cbn [fi_mode info_of] in Hfs7.
    inversion H; subst r' w'; clear H.
    assert (HA : w_fs w7 !! pn = Some n
                 /\ w_fs w7 !! po = Some (new_file (created_mode (n_mode n) w) (w_now w))).
    { rewrite Hfs7. split.
      - rewrite lookup_insert_ne by done. apply lookup_insert_eq.
      - apply lookup_insert_eq. }
    split; [|split; [now left|intros _; exact HA]].
    intros q Hq1 Hq2 Hq3. rewrite Hfs7.
    rewrite !lookup_insert_ne, lookup_delete_ne by done. now apply Hfr2.
  - cbn [fst snd] in H.
    destruct (OpenFile _ _ _ w3) as [[fd|e0] w7] eqn:Hof; [|discriminate H].
    cbn [fst snd] in H.
    pose proof (OpenFile_ok _ _ _ _ _ _ Hof) as (_ & _ & Hfs7).
    fold po in Hfs7.
    pose proof (Stat_fs _ _ _ _ Hst) as (Hfs3 & _).
    rewrite Hfs3, Hn2 in Hfs7. destruct Hfs7 as (_ & Hfs7).
    cbn [O_TRUNC O_CREATE_WRONLY_TRUNC] in Hfs7.
    assert (Hnow : w_now w3 = w_now w) by apply He3.
    rewrite Hnow in Hfs7.
    inversion H; subst r' w'; clear H.
    split; [|split].
    + intros q Hq1 Hq2 Hq3. rewrite Hfs7.
      rewrite lookup_insert_ne by done. now apply Hfr2.
    + right. rewrite Hfs7. split; [apply lookup_insert_eq|].
      intros Hd. rewrite lookup_insert_ne by done. now apply Hfr2.
    + intros Hc. exfalso.
      pose proof (MkdirAll_calm _ _ _ _ _ Hc Hmk) as Hc2.
      destruct (Stat_calm _ _ _ _ Hc2 Hst) as (_ & Hx).
      fold po in Hx. rewrite Hn2 in Hx. discriminate Hx.
Qed.

Lemma close_fs s o s' :
  close s = (o, s') ->
  w_fs s'.2 = w_fs s.2 /\ (calm s.2 -> calm s'.2).
Proof.
  unfold close, bind, ret, get_self, put_self, sys. cbn [fst snd].
  destruct (file s.1) as [fd|]; [|now intros [= <- <-]].
  destruct (FdClose fd s.2) as [x w1] eqn:Hc. cbn [fst snd].
  intros [= <- <-]. cbn [fst snd].
  split; [apply (FdClose_fs _ _ _ _ Hc)|].
  intros Hcalm. apply (FdClose_calm _ _ _ _ Hcalm Hc).
Qed.

(** What a successful [rotate] does to an existing canonical file. *)
Lemma rotate_fs r w r' w' n newname :
  let name := newFilename r w in
  let po := Filepath.Clean name in
  let pn := Filepath.Clean newname in
  let pd := Filepath.Clean (dir r w) in
  w_fs w !! po = Some n ->
  (backupName name (BackupTimeLocation (opts r)) (r, w)).1 = Ret newname ->
  pn <> po ->
  rotate (r, w) = (Ret None, (r', w')) ->
  (forall q, q <> po -> q <> pn -> q <> pd -> w_fs w' !! q = w_fs w !! q)
  /\ ((w_fs w' !! pn = Some n
       /\ w_fs w' !! po = Some (new_file (created_mode (n_mode n) w) (w_now w)))
      \/ (w_fs w' !! po = Some (truncate n (w_now w))
          /\ (pn <> pd -> w_fs w' !! pn = w_fs w !! pn)))
  /\ (calm w ->
      w_fs w' !! pn = Some n
      /\ w_fs w' !! po = Some (new_file (created_mode (n_mode n) w) (w_now w))).
Proof.
  cbv zeta. intros Hn Hb Hne H.
  unfold rotate, bind, ret, enter in H. cbn [fst snd] in H.
  destruct (close _) as [o1 [r1 w1]] eqn:Hc.
  pose proof (close_tracks _ _ _ Hc) as (_ & _ & Ho1 & He1).
  pose proof (close_fs _ _ _ Hc) as (Hfs1 & Hcalm1).
  cbn [fst snd] in *.
  assert (He : same_env w w1) by (destruct He1 as (?&?&?&?); now split).
  destruct o1 as [[e|]|msg]; try discriminate H.
  destruct (openNew _) as [o2 [r2 w2]] eqn:Hopen.
  destruct o2 as [[e|]|msg]; try discriminate H.
  destruct (mill_frame (r2, w2)) as (r3 & Hm & _). rewrite Hm in H.
  cbn [fst snd] in H. inversion H; subst r' w'; clear H.
  pose proof (newFilename_env r r1 w w1 Ho1 He) as Hname.
  pose proof (openNew_fs r1 w1 r2 w2 n newname) as Hspec.
  cbv zeta in Hspec. unfold dir in *. rewrite Hname, Ho1 in Hspec.
  rewrite (backupName_env _ _ r w r1 w1 Ho1 He) in Hspec.
  assert (Hnow : w_now w1 = w_now w) by apply He.
  assert (Hum : w_umask w1 = w_umask w) by apply He.
  unfold created_mode in *.
  rewrite Hnow, Hum, Hfs1 in Hspec. cbn [w_fs record] in Hspec.
  destruct (Hspec Hn Hb Hne Hopen) as (Hfr & Hcase & Hcalm).
  split; [|split]; [exact Hfr|exact Hcase|].
  intros Hc0. apply Hcalm, Hcalm1. exact Hc0.
Qed.

(** A size-100 engine that has taken 60 bytes, the entry of its log file
    and the backup name a rotation would choose. *)
Definition sample : State :=
  (Write (Scenario.zeros 60) (Scenario.fresh Scenario.size100)).2.

Definition sample_entry : node :=
  {| n_isdir := false; n_mode := 384; n_data := Scenario.zeros 60;
     n_mtime := 1478284200007000000 |}.

Definition sample_backup : string :=
  "/var/log/app-2016-11-04T18-30-00.007.log".

End RotationFacts.

(** X7.  What a successful rotation of the strategy-mode engine does to
    the log.  Let the canonical file exist, with entry [n], and let the
    backup name that [backupName] computes differ from the canonical path.
    When [rotate] returns nil, no file other than the canonical one, the
    backup and the log directory has changed, and either
    - the backup path now holds the old entry itself (contents, mode and
      modification time) and the canonical path a new empty file, created
      with the old mode less the bits of the process's mask; or
    - the canonical file was truncated in place and no backup was made,
      which happens when [Stat] reported an error: any error of [Stat] is
      taken to mean that there is no file to move.
    On a machine whose system calls do not fail it is always the first. *)
Theorem rotation_moves_log_to_backup
    (r r' : Lumberjack.LumberjackRoller) (w w' : OS.World) (n : OS.node)
    (newname : string) :
  let name := Lumberjack.newFilename r w in
  let po := Filepath.Clean name in
  let pn := Filepath.Clean newname in
  let pd := Filepath.Clean (Lumberjack.dir r w) in
  OS.w_fs w !! po = Some n ->
  (Lumberjack.backupName name
     (Lumberjack.BackupTimeLocation (Lumberjack.opts r)) (r, w)).1
  = Ret newname ->
  pn <> po ->
  Lumberjack.rotate (r, w) = (Ret None, (r', w')) ->
  (forall q, q <> po -> q <> pn -> q <> pd ->
             OS.w_fs w' !! q = OS.w_fs w !! q)
  /\ ((OS.w_fs w' !! pn = Some n
       /\ OS.w_fs w' !! po
          = Some (OS.new_file (OS.created_mode (OS.n_mode n) w) (OS.w_now w)))
      \/ (OS.w_fs w' !! po = Some (OS.truncate n (OS.w_now w))
          /\ (pn <> pd -> OS.w_fs w' !! pn = OS.w_fs w !! pn)))
  /\ (SysFacts.calm w ->
      OS.w_fs w' !! pn = Some n
      /\ OS.w_fs w' !! po
         = Some (OS.new_file (OS.created_mode (OS.n_mode n) w) (OS.w_now w))).
Proof. exact (RotationFacts.rotate_fs r w r' w' n newname). Qed.

Lemma rotation_moves_log_to_backup_witness :
  let r := RotationFacts.sample.1 in
  let w := RotationFacts.sample.2 in
  let w' := (Lumberjack.rotate (r, w)).2.2 in
  let n := RotationFacts.sample_entry in
  let po := Filepath.Clean (Lumberjack.newFilename r w) in
  let pn := Filepath.Clean RotationFacts.sample_backup in
  let pd := Filepath.Clean (Lumberjack.dir r w) in
  (forall q, q <> po -> q <> pn -> q <> pd ->
             OS.w_fs w' !! q = OS.w_fs w !! q)
  /\ ((OS.w_fs w' !! pn = Some n
       /\ OS.w_fs w' !! po
          = Some (OS.new_file (OS.created_mode (OS.n_mode n) w) (OS.w_now w)))
      \/ (OS.w_fs w' !! po = Some (OS.truncate n (OS.w_now w))
          /\ (pn <> pd -> OS.w_fs w' !! pn = OS.w_fs w !! pn)))
  /\ (SysFacts.calm w ->
      OS.w_fs w' !! pn = Some n
      /\ OS.w_fs w' !! po
         = Some (OS.new_file (OS.created_mode (OS.n_mode n) w) (OS.w_now w))).
Proof.
  cbv zeta.
  apply (rotation_moves_log_to_backup
           RotationFacts.sample.1
           (Lumberjack.rotate (RotationFacts.sample.1, RotationFacts.sample.2)).2.1
           RotationFacts.sample.2
           (Lumberjack.rotate (RotationFacts.sample.1, RotationFacts.sample.2)).2.2
           RotationFacts.sample_entry RotationFacts.sample_backup).
  - vm_compute. reflexivity.
  - vm_compute. reflexivity.
  - vm_compute. intros H. discriminate H.
  - vm_compute. reflexivity.
Defined.

(** ** The filters of the retention pass *)

Module FilterFacts.
Import GoStrings OS Lumberjack CatalogFacts.

(** Sum of the sizes of [files]. *)
Definition total (files : list logInfo) : Z :=
  foldr (fun f a => Size f + a) 0 files.

Lemma total_app l l' : total (l ++ l') = total l + total l'.
Proof. induction l as [|f l IH]; simpl; [done|]. rewrite IH. lia. Qed.

Lemma total_nonneg l : Forall (fun f => 0 <= Size f) l -> 0 <= total l.
Proof. induction 1; simpl; lia. Qed.

Lemma total_take_le l i :
  Forall (fun f => 0 <= Size f) l -> total (take i l) <= total l.
Proof.
  intros H. rewrite <- (take_drop i l) at 2. rewrite total_app.
  pose proof (total_nonneg (drop i l)) as Hd.
  assert (Forall (fun f => 0 <= Size f) (drop i l)) by now apply Forall_drop.
  specialize (Hd H0). lia.
Qed.

(** The total-size loop splits the catalog at one position: entries go to
    [remaining] while the running total stays within [m], and to [remove]
    from the first entry that takes it beyond [m]. *)
Lemma size_fold_split m files t rm rem :
  0 <= t -> Forall (fun f => 0 <= Size f) files ->
  t + total files <= max_int64 ->
  exists k,
    fold_left (size_step m) files (t, rm, rem)
    = (t + total files, rm ++ drop k files, rem ++ take k files)
    /\ (forall i, (i < k)%nat -> t + total (take (S i) files) <= m)
    /\ (forall i, (k <= i < length files)%nat ->
          m < t + total (take (S i) files)).
Proof.
  revert t rm rem. induction files as [|f files IH]; intros t rm rem Ht Hf Hmax.
  - exists 0%nat. simpl. rewrite !app_nil_r, Z.add_0_r.
    repeat split; intros; lia.
  - inversion Hf as [|? ? Hf0 Hfs]; subst. simpl in Hmax |- *.
    pose proof (total_nonneg files Hfs) as Hnn.
    rewrite SizeFacts.add64_small by lia.
    destruct (t + Size f >? m) eqn:Hgt.
    + apply Z.gtb_lt in Hgt.
      destruct (IH (t + Size f) (rm ++ [f]) rem) as (k & E & Hlo & Hhi);
        [lia|done|lia|].
      assert (k = 0%nat) as ->.
      { destruct k as [|k]; [done|]. specialize (Hlo 0%nat ltac:(lia)).
        destruct files as [|g files]; simpl in *.
        - lia.
        - inversion Hfs; subst. lia. }
      exists 0%nat. rewrite E. rewrite drop_0, take_0, <- !app_assoc. simpl.
      split; [now rewrite Z.add_assoc|].
      split; [intros; lia|]. intros i Hi.
      pose proof (total_nonneg (take i files) (Forall_take _ _ _ Hfs)). lia.
    + rewrite Z.gtb_ltb in Hgt. apply Z.ltb_ge in Hgt.
      destruct (IH (t + Size f) rm (rem ++ [f])) as (k & E & Hlo & Hhi);
        [lia|done|lia|].
      exists (S k). rewrite E. rewrite <- !app_assoc. simpl.
      split; [now rewrite Z.add_assoc|].
      split.
      * intros [|i] Hi; simpl; [rewrite ?take_0; simpl; lia|].
        specialize (Hlo i ltac:(lia)). simpl in Hlo. lia.
      * intros [|i] Hi; [lia|]. simpl.
        specialize (Hhi i ltac:(lia)). simpl in Hhi. lia.
Qed.

(** The age loop is a pair of filters. *)
Lemma age_fold_filter cutoff files rm rem :
  fold_left (age_step cutoff) files (rm, rem)
  = (rm ++ filter (fun f => GoTime.Before (timestamp f) cutoff = true) files,
     rem ++ filter (fun f => GoTime.Before (timestamp f) cutoff = false) files).
Proof.
  revert rm rem. induction files as [|f files IH]; intros rm rem; simpl.
  - now rewrite !app_nil_r.
  - rewrite !filter_cons. destruct (GoTime.Before (timestamp f) cutoff) eqn:Hb.
    + rewrite IH. rewrite decide_True, decide_False by done.
      now rewrite <- app_assoc.
    + rewrite IH. rewrite decide_False, decide_True by done.
      now rewrite <- app_assoc.
Qed.

(** Retention by total size only: at most 50 bytes of backups. *)
Definition max_size_50 : Options :=
  {| FileName := "/var/log/app.log"; FileMaxAge := 0; FileMaxCount := 0;
     MaxSize := 50; Strategy := SizeRotateStrategy; FileMaxSize := 100;
     Compress := false; CompressSuffix := DefaultCompressSuffix;
     BackupTimeFormat := DefaultBackupTimeFormat;
     BackupTimeLocation := Some GoTime.UTC |}.

(** Retention by age only: backups of the last two days. *)
Definition max_age_2d : Options :=
  {| FileName := "/var/log/app.log"; FileMaxAge := 172800 * 10^9;
     FileMaxCount := 0; MaxSize := 0; Strategy := SizeRotateStrategy;
     FileMaxSize := 100; Compress := false;
     CompressSuffix := DefaultCompressSuffix;
     BackupTimeFormat := DefaultBackupTimeFormat;
     BackupTimeLocation := Some GoTime.UTC |}.

End FilterFacts.

(** X8.  The total-size filter of the retention pass.  With MaxSize > 0,
    sizes that are not negative and a sum that fits an int64, the filter
    cuts the catalog, which is ordered newest first, at one position [k]:
    the first [k] entries stay, all later ones are appended to the removal
    list.  The entries that stay are those up to which the running total of
    sizes is at most MaxSize; from the first entry that takes the total
    beyond MaxSize on, every entry is removed, smaller ones included. *)
Theorem size_filter_keeps_newest_within_total
    (o : Lumberjack.Options) (files rm : list Lumberjack.logInfo) :
  0 < Lumberjack.MaxSize o ->
  Forall (fun f => 0 <= Lumberjack.Size f) files ->
  FilterFacts.total files <= max_int64 ->
  exists k,
    Lumberjack.size_filter o files rm = (take k files, rm ++ drop k files)
    /\ FilterFacts.total (take k files) <= Lumberjack.MaxSize o
    /\ (forall i, (i < k)%nat ->
          FilterFacts.total (take (S i) files) <= Lumberjack.MaxSize o)
    /\ (forall i, (k <= i < length files)%nat ->
          Lumberjack.MaxSize o < FilterFacts.total (take (S i) files)).
Proof.
  intros Hm Hf Hmax. unfold Lumberjack.size_filter.
  rewrite gtb_true by lia.
  destruct (FilterFacts.size_fold_split (Lumberjack.MaxSize o) files 0 rm [])
    as (k & E & Hlo & Hhi); [lia|done|lia|].
  rewrite E. exists k. simpl. split; [done|].
  split; [|split; [exact Hlo|exact Hhi]].
  destruct k as [|k]; [rewrite take_0; simpl; lia|].
  destruct (Nat.lt_ge_cases k (length files)) as [Hk|Hk].
  - exact (Hlo k ltac:(lia)).
  - rewrite take_ge by lia.
    destruct (Nat.eq_dec (length files) 0%nat) as [H0|H0].
    + destruct files; [simpl; lia|discriminate H0].
    + specialize (Hlo (length files - 1)%nat ltac:(lia)).
      rewrite take_ge in Hlo by lia. exact Hlo.
Qed.

Lemma size_filter_keeps_newest_within_total_witness :
  let files :=
    match (Lumberjack.oldLogFiles
             (Scenario.engine Scenario.count2, Scenario.three_backups)).1 with
    | Ret (inl l) => l
    | _ => []
    end in
  let o := FilterFacts.max_size_50 in
  exists k,
    Lumberjack.size_filter o files [] = (take k files, [] ++ drop k files)
    /\ FilterFacts.total (take k files) <= Lumberjack.MaxSize o
    /\ (forall i, (i < k)%nat ->
          FilterFacts.total (take (S i) files) <= Lumberjack.MaxSize o)
    /\ (forall i, (k <= i < length files)%nat ->
          Lumberjack.MaxSize o < FilterFacts.total (take (S i) files)).
Proof.
  cbv zeta.
  apply (size_filter_keeps_newest_within_total FilterFacts.max_size_50).
  - reflexivity.
  - vm_compute. repeat constructor; discriminate.
  - vm_compute. discriminate.
Defined.

(** X9.  The age filter of the retention pass.  With 0 < FileMaxAge the
    cutoff is the clock reading minus FileMaxAge; the filter keeps, in
    their order, the entries whose timestamp is at or after the cutoff, and
    appends to the removal list, in their order, those strictly before
    it. *)
Theorem age_filter_removes_older_than_cutoff
    (o : Lumberjack.Options) (now : GoTime.Time)
    (files rm : list Lumberjack.logInfo) :
  0 < Lumberjack.FileMaxAge o <= max_int64 ->
  Lumberjack.age_filter o now files rm
  = (filter (fun f => GoTime.unix_ns now - Lumberjack.FileMaxAge o
                      <= GoTime.unix_ns (Lumberjack.timestamp f)) files,
     rm ++ filter (fun f => GoTime.unix_ns (Lumberjack.timestamp f)
                            < GoTime.unix_ns now - Lumberjack.FileMaxAge o)
                  files).
Proof.
  intros Hage. unfold Lumberjack.age_filter. rewrite gtb_true by lia.
  rewrite FilterFacts.age_fold_filter. simpl.
  rewrite wrap64_small by (unfold min_int64, max_int64 in *; lia).
  f_equal; [|f_equal]; apply list_filter_iff; intros f;
    unfold GoTime.Before, GoTime.Add; simpl.
  - rewrite Z.ltb_ge. lia.
  - rewrite Z.ltb_lt. lia.
Qed.

Lemma age_filter_removes_older_than_cutoff_witness :
  let files :=
    match (Lumberjack.oldLogFiles
             (Scenario.engine Scenario.count2, Scenario.three_backups)).1 with
    | Ret (inl l) => l
    | _ => []
    end in
  let o := FilterFacts.max_age_2d in
  let now := OS.Now Scenario.three_backups in
  Lumberjack.age_filter o now files []
  = (filter (fun f => GoTime.unix_ns now - Lumberjack.FileMaxAge o
                      <= GoTime.unix_ns (Lumberjack.timestamp f)) files,
     [] ++ filter (fun f => GoTime.unix_ns (Lumberjack.timestamp f)
                            < GoTime.unix_ns now - Lumberjack.FileMaxAge o)
                  files).
Proof.
  cbv zeta.
  apply (age_filter_removes_older_than_cutoff FilterFacts.max_age_2d).
  vm_compute. split; [reflexivity|discriminate].
Defined.

(** X10.  The selection made by a retention pass splits the catalog.
    Every entry of the catalog is either put on the removal list or kept,
    once each.  The entries picked for compression are kept entries: those
    whose name lacks the compression suffix, and none at all unless
    compression is on.  So in a catalog without repeated entries no file is
    both removed and compressed in the same pass. *)
Theorem retention_selection_splits_catalog
    (o : Lumberjack.Options) (now : GoTime.Time)
    (files : list Lumberjack.logInfo) :
  exists kept,
    (Lumberjack.select o now files).2 ++ kept ≡ₚ files
    /\ (forall x, x ∈ (Lumberjack.select o now files).1 <->
          Lumberjack.Compress o = true /\ x ∈ kept
          /\ GoStrings.HasSuffix (Lumberjack.Name x)
               (Lumberjack.CompressSuffix o) = false)
    /\ (NoDup files ->
        forall x, x ∈ (Lumberjack.select o now files).1 ->
                  x ∉ (Lumberjack.select o now files).2).
Proof.
  unfold Lumberjack.select.
  destruct (Lumberjack.size_filter o files []) as [f1 r1] eqn:E1.
  destruct (Lumberjack.count_filter o f1 r1) as [f2 r2] eqn:E2.
  destruct (Lumberjack.age_filter o now f2 r2) as [f3 r3] eqn:E3.
  apply CatalogFacts.size_filter_perm in E1.
  apply CatalogFacts.count_filter_perm in E2.
  apply CatalogFacts.age_filter_perm in E3. simpl in *.
  assert (Hperm : r3 ++ f3 ≡ₚ files) by now rewrite E3, E2, E1.
  assert (Hc : forall x,
    x ∈ (if Lumberjack.Compress o
         then filter (fun f => negb (GoStrings.HasSuffix (Lumberjack.Name f)
                                       (Lumberjack.CompressSuffix o))) f3
         else []) <->
    Lumberjack.Compress o = true /\ x ∈ f3
    /\ GoStrings.HasSuffix (Lumberjack.Name x) (Lumberjack.CompressSuffix o)
       = false).
  { intros x. destruct (Lumberjack.Compress o).
    - rewrite list_elem_of_filter.
      destruct (GoStrings.HasSuffix _ _); simpl; intuition congruence.
    - split; [intros H; now apply elem_of_nil in H|now intros [? _]]. }
  exists f3. split; [exact Hperm|]. split; [exact Hc|].
  intros Hnd x Hx Hr. apply Hc in Hx as (_ & Hx & _).
  rewrite <- Hperm in Hnd. apply NoDup_app in Hnd as (_ & Hnd & _).
  exact (Hnd x Hr Hx).
Qed.

(** ** The retention pass on the machine *)

Module PassFacts.
Import GoStrings OS Lumberjack SysFacts CompressFacts MillFacts.

Lemma Remove_env name w x w' : Remove name w = (x, w') -> same_env w w'.
Proof.
  intros H. unfold Remove in H. rewrite next_fault_pop in H. go_cases; done.
Qed.

Lemma Remove_event name w x w' :
  Remove name w = (x, w') ->
  w_trace w' = w_trace w ++ [Ev (SysRemove (Filepath.Clean name)) x].
Proof.
  unfold Remove. rewrite next_fault_pop.
  set (p := Filepath.Clean name). clearbody p. intros H.
  destruct (fault_of w); [now inversion H|].
  destruct (w_fs (pop w) !! p); now inversion H.
Qed.

(** Files only disappear: every entry of [w'] is an entry of [w], and the
    open descriptors are the same. *)
Definition shrinks (w w' : World) : Prop :=
  w_open w' = w_open w
  /\ forall p n, w_fs w' !! p = Some n -> w_fs w !! p = Some n.

Lemma shrinks_refl w : shrinks w w.
Proof. now split. Qed.

Lemma shrinks_same w w' :
  w_open w' = w_open w -> w_fs w' = w_fs w -> shrinks w w'.
Proof. intros Ho Hf. split; [done|]. now rewrite Hf. Qed.

Lemma shrinks_trans w1 w2 w3 : shrinks w1 w2 -> shrinks w2 w3 -> shrinks w1 w3.
Proof.
  intros (Ho1 & Hf1) (Ho2 & Hf2). split; [congruence|]. eauto.
Qed.

Lemma Remove_shrinks name w x w' : Remove name w = (x, w') -> shrinks w w'.
Proof.
  unfold Remove. rewrite next_fault_pop.
  set (p := Filepath.Clean name). clearbody p. intros H.
  destruct (fault_of w); [inversion H; now apply shrinks_same|].
  destruct (w_fs (pop w) !! p) as [n0|] eqn:Hp; inversion H; subst; clear H;
    [|now apply shrinks_same].
  split; [done|]. cbn. intros q n Hq.
  now apply lookup_delete_Some in Hq as (_ & Hq).
Qed.

Lemma ReadDir_shrinks name w x w' : ReadDir name w = (x, w') -> shrinks w w'.
Proof.
  unfold ReadDir. rewrite next_fault_pop. intros H.
  destruct (fault_of w); inversion H; now apply shrinks_same.
Qed.

Lemma ReadDir_env name w x w' : ReadDir name w = (x, w') -> same_env w w'.
Proof.
  unfold ReadDir. rewrite next_fault_pop. intros H.
  destruct (fault_of w); now inversion H.
Qed.

(** The removal loop: one [Remove] per entry, in order, each at the entry's
    path in the log directory; the loop goes on after a failure and
    reports the first error. *)
Lemma remove_all_spec names err r w :
  exists results : list (option errno),
    length results = length names
    /\ (remove_all names err (r, w)).1
       = Ret (fold_left first_err ((fmap (M:=option) ErrOS) <$> results) err)
    /\ w_trace (remove_all names err (r, w)).2.2
       = w_trace w
         ++ zip_with (fun f x =>
                        Ev (SysRemove
                              (Filepath.Clean
                                 (Filepath.Join (dir r w) (Name f)))) x)
              names results
    /\ (remove_all names err (r, w)).2.1 = r
    /\ shrinks w (remove_all names err (r, w)).2.2
    /\ same_env w (remove_all names err (r, w)).2.2.
Proof.
  revert err w. induction names as [|f names IH]; intros err w.
  - exists []. simpl. rewrite app_nil_r.
    repeat split; try done; apply same_env_refl.
  - simpl. unfold bind, get_self, get_world, sys. cbn [fst snd].
    destruct (Remove _ w) as [x w1] eqn:Hrm. cbn [fst snd].
    destruct (IH (first_err err (ErrOS <$> x)) w1)
      as (results & Hlen & Hres & Htr & Hself & Hsh & Henv).
    pose proof (Remove_env _ _ _ _ Hrm) as He1.
    exists (x :: results). simpl.
    split; [now rewrite Hlen|]. split; [exact Hres|].
    split.
    { rewrite Htr, (Remove_event _ _ _ _ Hrm), <- app_assoc. simpl.
      unfold dir. now rewrite (SizeFacts.newFilename_env r r w w1 eq_refl He1). }
    split; [exact Hself|].
    split; [eapply shrinks_trans; [exact (Remove_shrinks _ _ _ _ Hrm)|exact Hsh]|].
    eapply same_env_trans; eassumption.
Qed.

Lemma oldLogFiles_shrinks s : shrinks s.2 (oldLogFiles s).2.2.
Proof.
  unfold oldLogFiles, bind, ret, panic, get_self, get_world, sys.
  cbn [fst snd].
  destruct (ReadDir _ s.2) as [[files|e] w1] eqn:Hrd; cbn [fst snd];
    pose proof (ReadDir_shrinks _ _ _ _ Hrd) as Hs; [|exact Hs].
  destruct (prefixAndExt _ _) as [prefix ext].
  now destruct (collect _ _ _ _ _).
Qed.

Lemma select_no_compress o now files :
  Compress o = false -> (select o now files).1 = [].
Proof.
  intros Hc. unfold select.
  destruct (size_filter _ _ _) as [f1 r1].
  destruct (count_filter _ _ _) as [f2 r2].
  destruct (age_filter _ _ _ _) as [f3 r3]. now rewrite Hc.
Qed.

Lemma millRunOnce_shrinks s :
  Compress (opts s.1) = false -> shrinks s.2 (millRunOnce s).2.2.
Proof.
  intros Hc. unfold millRunOnce, bind, ret, get_self, get_world.
  cbn [fst snd].
  destruct (_ && _); [apply shrinks_refl|].
  pose proof (oldLogFiles_shrinks s) as Hs.
  pose proof (keeps_oldLogFiles s) as Hk.
  destruct (oldLogFiles s) as [[[files|e]|msg] [r1 w1]]; cbn [fst snd] in *;
    try exact Hs.
  pose proof (select_no_compress (opts s.1) (Now w1) files Hc) as Hsel.
  destruct (select _ _ _) as [compress remove]. cbn [fst] in Hsel. subst.
  destruct (remove_all_spec remove None s.1 w1)
    as (results & _ & Hres & _ & Hself & Hsh & _).
  destruct (remove_all remove None (s.1, w1)) as [o2 [r2 w2]].
  cbn [fst snd] in *. subst o2. simpl.
  eapply shrinks_trans; eassumption.
Qed.

End PassFacts.

(** X11.  The removal loop of the retention pass tries every selected
    file.  It issues exactly one [Remove] per entry of the list, in order,
    each for the entry's name joined to the log directory; a failure stops
    nothing; the result is the error passed in, or else the first error
    among the removals, or nil when there was none.  The engine's fields
    are untouched, no descriptor is opened or closed, and the only change
    to the file table is that entries disappear. *)
Theorem remove_all_tries_every_file
    (names : list Lumberjack.logInfo) (err : option error)
    (r : Lumberjack.LumberjackRoller) (w : OS.World) :
  exists results : list (option errno),
    length results = length names
    /\ (Lumberjack.remove_all names err (r, w)).1
       = Ret (fold_left Lumberjack.first_err ((fmap (M:=option) ErrOS) <$> results) err)
    /\ OS.w_trace (Lumberjack.remove_all names err (r, w)).2.2
       = OS.w_trace w
         ++ zip_with (fun f x =>
                        OS.Ev (OS.SysRemove
                                 (Filepath.Clean
                                    (Filepath.Join (Lumberjack.dir r w)
                                       (Lumberjack.Name f)))) x)
              names results
    /\ (Lumberjack.remove_all names err (r, w)).2.1 = r
    /\ PassFacts.shrinks w (Lumberjack.remove_all names err (r, w)).2.2.
Proof.
  destruct (PassFacts.remove_all_spec names err r w)
    as (results & H1 & H2 & H3 & H4 & H5 & _).
  exists results. auto.
Qed.

(** X12.  A retention pass without compression only deletes.  Whatever
    [millRunOnce] returns, the open descriptors are as before and every
    file present afterwards was present before, with the same contents,
    mode and modification time: the pass creates, renames, truncates and
    writes nothing. *)
Theorem retention_without_compression_only_deletes (s : Lumberjack.State) :
  Lumberjack.Compress (Lumberjack.opts s.1) = false ->
  OS.w_open (Lumberjack.millRunOnce s).2.2 = OS.w_open s.2
  /\ (forall p n, OS.w_fs (Lumberjack.millRunOnce s).2.2 !! p = Some n ->
                  OS.w_fs s.2 !! p = Some n)
  /\ (Lumberjack.millRunOnce s).2.1 = s.1.
Proof.
  intros Hc. pose proof (PassFacts.millRunOnce_shrinks s Hc) as (Ho & Hf).
  split; [exact Ho|]. split; [exact Hf|]. apply MillFacts.keeps_millRunOnce.
Qed.

Lemma retention_without_compression_only_deletes_witness :
  let s := (Scenario.engine Scenario.count2, Scenario.three_backups) in
  OS.w_open (Lumberjack.millRunOnce s).2.2 = OS.w_open s.2
  /\ (forall p n, OS.w_fs (Lumberjack.millRunOnce s).2.2 !! p = Some n ->
                  OS.w_fs s.2 !! p = Some n)
  /\ (Lumberjack.millRunOnce s).2.1 = s.1.
Proof.
  cbv zeta.
  apply (retention_without_compression_only_deletes
           (Scenario.engine Scenario.count2, Scenario.three_backups)).
  reflexivity.
Defined.

(** ** Opening an existing log file *)

Module ConstructorFacts.
Import GoStrings OS Lumberjack SysFacts CompressFacts.

Lemma calm_log w c e : calm w -> calm (log w c e).
Proof. done. Qed.

(** [Stat] of an existing file on a machine without planned failures. *)
Lemma Stat_calm_ok name w n :
  calm w -> w_fs w !! Filepath.Clean name = Some n ->
  Stat name w
  = (inl (info_of (Filepath.Base (Filepath.Clean name)) n),
     log w (SysStat (Filepath.Clean name)) None).
Proof.
  intros Hc Hn. unfold Stat. rewrite (calm_next_fault w Hc). now rewrite Hn.
Qed.

(** [OpenFile] for appending to an existing regular file, likewise. *)
Lemma OpenFile_append_calm name perm w n :
  calm w -> w_fs w !! Filepath.Clean name = Some n -> n_isdir n = false ->
  OpenFile name O_APPEND_WRONLY perm w
  = (inl (w_nextfd w),
     log (set_nextfd
            (set_open w
               (<[w_nextfd w := {| h_path := Filepath.Clean name;
                                   h_append := true; h_off := 0 |}]>
                  (w_open w)))
            (S (w_nextfd w)))
       (SysOpenFile (Filepath.Clean name) (w_nextfd w)) None).
Proof.
  intros Hc Hn Hd. unfold OpenFile. rewrite (calm_next_fault w Hc).
  rewrite Hn, Hd. cbn [O_TRUNC O_APPEND O_APPEND_WRONLY].
  now destruct w.
Qed.

(** The empty machine with a 40-byte log file in place. *)
Definition existing_40 : World :=
  Scenario.with_files Scenario.world0
    (<["/var/log/app.log" := Scenario.regular 40]> ∅).

End ConstructorFacts.

(** X13.  The constructor and an existing log file, under the size
    strategy, on a machine whose system calls do not fail.  A regular file
    shorter than FileMaxSize is opened for appending: the constructor
    returns nil after exactly two system calls ([Stat] and [OpenFile]), the
    file table is unchanged, and the tracked size is the length of the
    file.  A file of FileMaxSize bytes or more, the limit itself included,
    is rotated away: the first thing after [Stat] is the rotation. *)
Theorem constructor_appends_below_limit
    (o : Lumberjack.Options) (w : OS.World) (n : OS.node) :
  SysFacts.calm w ->
  Lumberjack.FileName o <> "" ->
  Lumberjack.Strategy o = Lumberjack.SizeRotateStrategy ->
  0 < Lumberjack.FileMaxSize o ->
  OS.w_fs w !! Filepath.Clean (Lumberjack.FileName o) = Some n ->
  OS.n_isdir n = false ->
  Z.of_nat (length (OS.n_data n)) <= max_int64 ->
  let p := Filepath.Clean (Lumberjack.FileName o) in
  let res := Lumberjack.NewLumberjackRollerFromOptions o w in
  (Z.of_nat (length (OS.n_data n)) < Lumberjack.FileMaxSize o ->
   res.1 = Ret None
   /\ OS.w_fs res.2.2 = OS.w_fs w
   /\ Lumberjack.size res.2.1 = Z.of_nat (length (OS.n_data n))
   /\ Lumberjack.file res.2.1 = Some (OS.w_nextfd w)
   /\ OS.w_open res.2.2 !! OS.w_nextfd w
      = Some {| OS.h_path := p; OS.h_append := true; OS.h_off := 0 |}
   /\ OS.w_trace res.2.2
      = OS.w_trace w ++ [OS.Ev (OS.SysStat p) None;
                         OS.Ev (OS.SysOpenFile p (OS.w_nextfd w)) None])
  /\ (Lumberjack.FileMaxSize o <= Z.of_nat (length (OS.n_data n)) ->
      exists evs,
        OS.w_trace res.2.2
        = OS.w_trace w ++ OS.Ev (OS.SysStat p) None :: OS.Call "rotate" :: evs).
Proof.
  intros Hc Hname Hstr Hpos Hn Hd Hfit p res.
  assert (Hres : res = Lumberjack.NewLumberjackRollerFromOptions o w)
    by reflexivity.
  clearbody res. subst p.
  unfold Lumberjack.NewLumberjackRollerFromOptions in Hres.
  rewrite Hstr in Hres.
  cbn [Z.eqb Lumberjack.SizeRotateStrategy andb] in Hres.
  assert (Hpos' : (Lumberjack.FileMaxSize o <=? 0) = false)
    by (apply Z.leb_gt; lia).
  rewrite Hpos', bool_decide_eq_false_2 in Hres by done.
  unfold Lumberjack.openExistingOrNew, Lumberjack.mill, bind, ret, get_self,
    put_self, get_world, sys in Hres.
  cbn [fst snd Lumberjack.startMill Lumberjack.millCh Lumberjack.set_mill
       Lumberjack.opts] in Hres.
  unfold Lumberjack.newFilename in Hres.
  cbn [Lumberjack.opts Lumberjack.set_mill] in Hres.
  rewrite bool_decide_eq_false_2 in Hres by done.
  cbn [negb] in Hres.
  rewrite (ConstructorFacts.Stat_calm_ok _ w n Hc Hn) in Hres.
  cbn [fst snd Lumberjack.opts OS.fi_size OS.info_of] in Hres.
  rewrite Hstr in Hres.
  cbn [Z.eqb Lumberjack.SizeRotateStrategy Lumberjack.DirectRotateStrategy
       andb] in Hres.
  rewrite SizeFacts.add64_small, Z.add_0_r in Hres by lia.
  split.
  - intros Hlt.
    assert (Hge : (Z.of_nat (length (OS.n_data n))
                   >=? Lumberjack.FileMaxSize o) = false).
    { rewrite Z.geb_leb. apply Z.leb_gt. lia. }
    rewrite Hge in Hres.
    rewrite (ConstructorFacts.OpenFile_append_calm _ 420 _ n) in Hres;
      [|now apply ConstructorFacts.calm_log|exact Hn|exact Hd].
    cbn [fst snd] in Hres. subst res. cbn.
    rewrite lookup_insert_eq, <- app_assoc. done.
  - intros Hle.
    assert (Hge : (Z.of_nat (length (OS.n_data n))
                   >=? Lumberjack.FileMaxSize o) = true).
    { rewrite Z.geb_leb. apply Z.leb_le. lia. }
    rewrite Hge in Hres.
    match type of Hres with
    | context [Lumberjack.rotate ?s0] =>
        destruct (Lumberjack.rotate s0) as [o1 s1] eqn:Hr
    end.
    apply WriteTraceFacts.rotate_trace in Hr as (evs & Ht & _).
    cbn [fst snd OS.w_trace OS.log OS.record] in Ht.
    exists evs. destruct o1 as [[e|]|msg]; subst res; cbn [fst snd];
      rewrite Ht, <- app_assoc; reflexivity.
Qed.

Lemma constructor_appends_below_limit_witness :
  let o := Scenario.size100 in
  let w := ConstructorFacts.existing_40 in
  let n := Scenario.regular 40 in
  let p := Filepath.Clean (Lumberjack.FileName o) in
  let res := Lumberjack.NewLumberjackRollerFromOptions o w in
  (Z.of_nat (length (OS.n_data n)) < Lumberjack.FileMaxSize o ->
   res.1 = Ret None
   /\ OS.w_fs res.2.2 = OS.w_fs w
   /\ Lumberjack.size res.2.1 = Z.of_nat (length (OS.n_data n))
   /\ Lumberjack.file res.2.1 = Some (OS.w_nextfd w)
   /\ OS.w_open res.2.2 !! OS.w_nextfd w
      = Some {| OS.h_path := p; OS.h_append := true; OS.h_off := 0 |}
   /\ OS.w_trace res.2.2
      = OS.w_trace w ++ [OS.Ev (OS.SysStat p) None;
                         OS.Ev (OS.SysOpenFile p (OS.w_nextfd w)) None])
  /\ (Lumberjack.FileMaxSize o <= Z.of_nat (length (OS.n_data n)) ->
      exists evs,
        OS.w_trace res.2.2
        = OS.w_trace w ++ OS.Ev (OS.SysStat p) None :: OS.Call "rotate" :: evs).
Proof.
  apply (constructor_appends_below_limit Scenario.size100
           ConstructorFacts.existing_40 (Scenario.regular 40)).
  - reflexivity.
  - discriminate.
  - reflexivity.
  - reflexivity.
  - vm_compute. reflexivity.
  - reflexivity.
  - vm_compute. discriminate.
Defined.

(** ** The backup catalog *)

(** X14.  What [oldLogFiles] returns when the directory can be read and
    holds no name in which the backup prefix and the extension run into
    each other (the case in which [timeFromName] slices out of range).  It
    returns, having made that one system call, a list that is ordered by
    the time parsed from the names, most recent first, and that is, up to
    order, the directory listing cut down to the backups: every entry of
    the list is a non-directory entry of the directory whose name is the
    prefix, a timestamp in the configured layout and the extension, with or
    without the compression suffix, paired with that time; and every such
    entry of the directory is in the list. *)
Theorem catalog_lists_backups_newest_first
    (r : Lumberjack.LumberjackRoller) (w w1 : OS.World)
    (entries : list OS.FileInfo) :
  let prefix := (Lumberjack.prefixAndExt r w).1 in
  let ext := (Lumberjack.prefixAndExt r w).2 in
  OS.ReadDir (Lumberjack.dir r w) w = (inl entries, w1) ->
  Forall (ListingFacts.in_range r prefix ext) entries ->
  exists files,
    Lumberjack.oldLogFiles (r, w) = (Ret (inl files), (r, w1))
    /\ Sorted ListingFacts.newer_first files
    /\ files ≡ₚ omap (CatalogFacts.kept r prefix ext) entries
    /\ (forall li, li ∈ files ->
          Lumberjack.info li ∈ entries
          /\ ListingFacts.is_backup r prefix ext (Lumberjack.info li)
               (Lumberjack.timestamp li))
    /\ (forall f t, f ∈ entries ->
          ListingFacts.is_backup r prefix ext f t ->
          f ∈ Lumberjack.info <$> files).
Proof. cbv zeta. apply ListingFacts.oldLogFiles_lists_backups. Qed.

Lemma catalog_lists_backups_newest_first_witness :
  let r := Scenario.engine Scenario.count2 in
  let w := Scenario.three_backups in
  let entries :=
    match (OS.ReadDir (Lumberjack.dir r w) w).1 with
    | inl l => l
    | inr _ => []
    end in
  let w1 := (OS.ReadDir (Lumberjack.dir r w) w).2 in
  let prefix := (Lumberjack.prefixAndExt r w).1 in
  let ext := (Lumberjack.prefixAndExt r w).2 in
  exists files,
    Lumberjack.oldLogFiles (r, w) = (Ret (inl files), (r, w1))
    /\ Sorted ListingFacts.newer_first files
    /\ files ≡ₚ omap (CatalogFacts.kept r prefix ext) entries
    /\ (forall li, li ∈ files ->
          Lumberjack.info li ∈ entries
          /\ ListingFacts.is_backup r prefix ext (Lumberjack.info li)
               (Lumberjack.timestamp li))
    /\ (forall f t, f ∈ entries ->
          ListingFacts.is_backup r prefix ext f t ->
          f ∈ Lumberjack.info <$> files).
Proof.
  cbv zeta.
  apply (catalog_lists_backups_newest_first
           (Scenario.engine Scenario.count2) Scenario.three_backups).
  - vm_compute. reflexivity.
  - match goal with
    | |- Forall ?P ?l =>
        let l' := eval vm_compute in l in
        replace l with l' by (vm_compute; reflexivity)
    end.
    repeat (apply List.Forall_cons;
            [first [ left; reflexivity
                   | right; split; intros (H1 & H2 & H3);
                     vm_compute in H1, H2, H3;
                     first [discriminate H1|discriminate H2|discriminate H3] ]
            |]).
    apply List.Forall_nil.
Defined.

(** ** The composable engine: size bookkeeping *)

Module V2SizeFacts.
Import GoStrings OS RollerV2 SysFacts CompressFacts.

(** The bookkeeping of the composable engine agrees with the machine: see
    [SizeFacts.tracks]. *)
Definition tracks (s : State) : Prop :=
  0 <= size s.1
  /\ match f s.1 with
     | None => True
     | Some fd =>
         exists h n,
           w_open s.2 !! fd = Some h
           /\ h_path h = Filepath.Clean (Filename (options s.1))
           /\ w_fs s.2 !! h_path h = Some n
           /\ size s.1 = Z.of_nat (length (n_data n))
           /\ (h_append h = true \/ h_off h = length (n_data n))
     end.

Lemma FdStat_ok fd w info w' h :
  w_open w !! fd = Some h ->
  FdStat fd w = (inl info, w') ->
  w_fs w' = w_fs w /\ w_open w' = w_open w
  /\ forall n, w_fs w !! h_path h = Some n ->
               info = info_of (Filepath.Base (h_path h)) n.
Proof.
  intros Ho. unfold FdStat. rewrite Ho, next_fault_pop.
  destruct (fault_of w); [intros H; discriminate H|]. cbn.
  destruct (w_fs w !! h_path h) as [n|] eqn:Hn; intros H; inversion H;
    subst; clear H; repeat split; try done.
  now intros n' [= <-].
Qed.

(** After a successful [OpenFile] that truncates or appends, the next
    write through the new descriptor lands at the end of the file. *)
Lemma OpenFile_at_end name fl perm w fd w' :
  OpenFile name fl perm w = (inl fd, w') ->
  O_TRUNC fl = true \/ O_APPEND fl = true ->
  exists h n,
    w_open w' !! fd = Some h
    /\ h_path h = Filepath.Clean name
    /\ w_fs w' !! h_path h = Some n
    /\ (h_append h = true \/ h_off h = length (n_data n)).
Proof.
  intros H Hfl. pose proof (OpenFile_ok _ _ _ _ _ _ H) as (_ & Hop & Hfs).
  rewrite Hop, lookup_insert_eq.
  destruct (w_fs w !! Filepath.Clean name) as [n|] eqn:Hn.
  - destruct Hfs as (_ & Hfs). destruct (O_TRUNC fl) eqn:Ht.
    + eexists _, _. split; [done|]. cbn [h_path h_append h_off].
      split; [done|]. rewrite Hfs, lookup_insert_eq. split; [done|].
      now right.
    + destruct Hfl as [Hfl|Hfl]; [discriminate Hfl|].
      eexists _, n. split; [done|]. cbn [h_path h_append h_off].
      split; [done|]. rewrite Hfs. split; [done|]. now left.
  - destruct Hfs as (_ & Hfs).
    eexists _, _. split; [done|]. cbn [h_path h_append h_off].
    split; [done|]. rewrite Hfs, lookup_insert_eq. split; [done|].
    now right.
Qed.

Lemma FdStat_env fd w x w' : FdStat fd w = (x, w') -> same_env w w'.
Proof.
  intros H. unfold FdStat in H. rewrite next_fault_pop in H. go_cases; done.
Qed.

(** [open]: on success the engine holds a handle with exact bookkeeping;
    otherwise handle and size are as before. *)
Lemma open_tracks s o s' :
  open s = (o, s') ->
  options s'.1 = options s.1 /\ millCh s'.1 = millCh s.1
  /\ (o = Ret None -> tracks s' /\ exists fd, f s'.1 = Some fd)
  /\ (o <> Ret None -> f s'.1 = f s.1 /\ size s'.1 = size s.1).
Proof.
  unfold open, openExist, openNew. go_unfold. destruct s as [r w]; simpl.
  intros H.
  go_cases;
    lazymatch goal with
    | H : FdStat _ _ = (inl _, _), H' : OpenFile _ _ _ _ = (inl _, _) |- _ =>
        pose proof (OpenFile_at_end _ _ _ _ _ _ H')
          as (h & nd & Ho & Hp & Hn & He);
        [first [now left|now right]|];
        pose proof (FdStat_ok _ _ _ _ _ Ho H) as (Hfs & Hop & Hinfo);
        specialize (Hinfo nd Hn); subst;
        (split; [done|]); (split; [done|]);
        (split; [|intros Hx; now destruct Hx]);
        intros _; (split; [|eauto]);
        unfold tracks; simpl; (split; [lia|]);
        exists h, nd; rewrite Hop, Hfs; auto
    | |- _ =>
        (split; [done|]); (split; [done|]); (split; [intros [=]|done])
    end.
Qed.

Lemma v2_close_tracks s o s' :
  close s = (o, s') ->
  f s'.1 = None /\ options s'.1 = options s.1 /\ millCh s'.1 = millCh s.1
  /\ (size s'.1 = 0 \/ size s'.1 = size s.1)
  /\ w_fs s'.2 = w_fs s.2.
Proof.
  unfold close. go_unfold. destruct s as [r w]; simpl. intros H.
  destruct (f r) as [fd|] eqn:Hf; simplify_eq/=; [|auto 10].
  destruct (FdClose fd w) as [x w1] eqn:Hc. simplify_eq/=.
  repeat split; auto. apply (FdClose_fs _ _ _ _ Hc).
Qed.

Lemma v2_rotate_tracks s o s' :
  rotate s = (o, s') -> 0 <= size s.1 ->
  tracks s' /\ options s'.1 = options s.1
  /\ (o = Ret None -> exists fd, f s'.1 = Some fd)
  /\ (o <> Ret None -> f s'.1 = None \/ millCh s.1 = ChClosed).
Proof.
  unfold rotate. go_unfold. destruct s as [r w]; simpl. intros H Hs.
  destruct (close _) as [o1 [r1 w1]] eqn:Hc.
  apply v2_close_tracks in Hc as (Hf1 & Ho1 & Hm1 & Hs1 & _). simpl in *.
  assert (Ht1 : forall w0, tracks (r1, w0)).
  { intros w0. unfold tracks; simpl. rewrite Hf1. split; [lia|done]. }
  destruct o1 as [[e|]|msg]; simplify_eq/=;
    try (split; [apply Ht1|]; split; [done|]; split; [intros [=]|now left]).
  destruct (MkdirAll _ _ _) as [[e|] w2]; simplify_eq/=;
    try (split; [apply Ht1|]; split; [done|]; split; [intros [=]|now left]).
  destruct (Rename _ _ _) as [[e|] w3]; simplify_eq/=;
    try (split; [apply Ht1|]; split; [done|]; split; [intros [=]|now left]).
  destruct (open _) as [o2 [r2 w4]] eqn:Hopen.
  apply open_tracks in Hopen as (Ho2 & Hm2 & Hok & Hfail). simpl in *.
  destruct o2 as [[e|]|msg]; simplify_eq/=.
  - destruct Hfail as (Hf2 & Hs2); [done|].
    split; [|split; [congruence|split; [intros [=]|left; congruence]]].
    unfold tracks; simpl. rewrite Hf2, Hf1. split; [lia|done].
  - destruct (Hok eq_refl) as (Ht2 & fd & Hfd).
    unfold mill in H. go_unfold.
    destruct (millCh r2) eqn:Hch; simplify_eq/=.
    + split; [done|]. split; [congruence|]. split; [eauto|]. now intros Hx.
    + split; [done|]. split; [congruence|]. split; [eauto|]. now intros Hx.
    + split; [done|]. split; [congruence|]. split; [intros [=]|].
      intros _. right. congruence.
  - destruct Hfail as (Hf2 & Hs2); [done|].
    split; [|split; [congruence|split; [intros [=]|left; congruence]]].
    unfold tracks; simpl. rewrite Hf2, Hf1. split; [lia|done].
Qed.

(** [File.Write] through a handle that [tracks]. *)
Lemma v2_file_Write_tracks p s :
  tracks s -> size s.1 + Z.of_nat (length p) <= max_int64 ->
  exists n e w',
    file_Write (f s.1) p s = (Ret (n, e), (s.1, w'))
    /\ 0 <= n <= Z.of_nat (length p)
    /\ tracks (set_size s.1 (add64 (size s.1) n), w').
Proof.
  destruct s as [r w]. unfold tracks. simpl. intros (Hs & Ht) Hmax.
  destruct (f r) as [fd|] eqn:Hf.
  - destruct Ht as (h & n & Ho & Hp & Hn & Hsz & Hoff).
    unfold file_Write. go_unfold.
    destruct (FdWrite fd p w) as [[k e] w'] eqn:Hw.
    pose proof (FdWrite_ok _ _ _ _ _ _ _ _ Ho Hn Hw)
      as (q & Hk & Hlen & He & Hop & Hfs).
    exists k, (ErrOS <$> e), w'.
    split; [reflexivity|]. split; [lia|].
    rewrite SizeFacts.add64_small by lia. split; [simpl; lia|].
    eexists _, _. split; [rewrite Hop; apply lookup_insert_eq|].
    cbn [h_path h_append h_off].
    split; [exact Hp|].
    split; [rewrite Hfs; apply lookup_insert_eq|]. cbn [n_data].
    assert (Hat : (if h_append h then length (n_data n) else h_off h)
                  = length (n_data n)).
    { destruct (h_append h); [done|]. now destruct Hoff. }
    rewrite Hat, write_at_end, length_app. split; [lia|]. right. lia.
  - exists 0, (Some (ErrOS ErrInvalid)), w.
    split; [reflexivity|]. split; [lia|].
    rewrite SizeFacts.add64_small by lia. split; [simpl; lia|done].
Qed.

(** No file is longer than [B] bytes. *)
Definition fits (B : Z) (w : World) : Prop :=
  forall q n, w_fs w !! q = Some n -> Z.of_nat (length (n_data n)) <= B.

Lemma fits_same B w w' : w_fs w' = w_fs w -> fits B w -> fits B w'.
Proof. unfold fits. now intros ->. Qed.

Lemma fits_insert_empty B w w' p n :
  0 <= B -> n_data n = [] -> w_fs w' = <[p := n]> (w_fs w) ->
  fits B w -> fits B w'.
Proof.
  unfold fits. intros HB Hd -> Hf q n' Hq.
  apply lookup_insert_Some in Hq as [(_ & <-)|(_ & Hq)]; [|eauto].
  rewrite Hd. simpl. lia.
Qed.

Lemma MkdirAll_fits B d m w x w' :
  0 <= B -> MkdirAll d m w = (x, w') -> fits B w -> fits B w'.
Proof.
  intros HB. unfold MkdirAll. rewrite next_fault_pop.
  set (p := Filepath.Clean d). clearbody p. intros H Hf.
  destruct (fault_of w); [inversion H; subst; exact Hf|].
  destruct (w_fs (pop w) !! p) as [n|] eqn:Hn.
  - destruct (n_isdir n); inversion H; subst; exact Hf.
  - inversion H; subst. eapply (fits_insert_empty B w); eauto. done.
Qed.

Lemma Rename_fits B a b w x w' :
  Rename a b w = (x, w') -> fits B w -> fits B w'.
Proof.
  unfold Rename. rewrite next_fault_pop.
  set (pa := Filepath.Clean a). set (pb := Filepath.Clean b). clearbody pa pb.
  intros H Hf.
  assert (Hmv : forall n, w_fs w !! pa = Some n ->
                fits B (log (set_fs (pop w) (<[pb := n]> (delete pa (w_fs w))))
                          (SysRename pa pb) None)).
  { intros n Hn q n' Hq. cbn in Hq.
    apply lookup_insert_Some in Hq as [(_ & <-)|(_ & Hq)]; [eauto|].
    apply lookup_delete_Some in Hq as (_ & Hq). eauto. }
  destruct (fault_of w); [inversion H; subst; exact Hf|].
  cbn in H. destruct (w_fs w !! pa) as [n|] eqn:Hn;
    [|inversion H; subst; exact Hf].
  destruct (w_fs w !! pb) as [n'|] eqn:Hn'.
  - destruct (n_isdir n'); inversion H; subst; [exact Hf|now apply Hmv].
  - inversion H; subst. now apply Hmv.
Qed.

Lemma OpenFile_fits B name fl perm w x w' :
  0 <= B -> OpenFile name fl perm w = (x, w') -> fits B w -> fits B w'.
Proof.
  intros HB. unfold OpenFile. rewrite next_fault_pop.
  set (p := Filepath.Clean name). clearbody p. intros H Hf.
  destruct (fault_of w); [inversion H; subst; exact Hf|]. cbn in H.
  destruct (w_fs w !! p) as [n|] eqn:Hn.
  - destruct (n_isdir n); [inversion H; subst; exact Hf|].
    destruct (O_TRUNC fl); inversion H; subst; [|exact Hf].
    eapply (fits_insert_empty B w); eauto. done.
  - destruct (O_CREATE fl); inversion H; subst; [|exact Hf].
    eapply (fits_insert_empty B w); eauto. done.
Qed.

Lemma FdStat_fs fd w x w' : FdStat fd w = (x, w') -> w_fs w' = w_fs w.
Proof.
  unfold FdStat. rewrite next_fault_pop. intros H. go_cases; done.
Qed.

Lemma open_fits B s o s' :
  0 <= B -> open s = (o, s') -> fits B s.2 -> fits B s'.2.
Proof.
  intros HB. unfold open, openExist, openNew. go_unfold.
  destruct s as [r w]; simpl. intros H Hf.
  go_cases;
    repeat match goal with
    | H : Stat _ _ = _ |- _ => apply Stat_fs in H as (H & _)
    | H : FdStat _ _ = _ |- _ => apply FdStat_fs in H
    | H : MkdirAll _ _ ?w0 = (_, ?w1) |- _ =>
        assert (fits B w0 -> fits B w1) by (eapply MkdirAll_fits; eauto);
        clear H
    | H : OpenFile _ _ _ ?w0 = (_, ?w1) |- _ =>
        assert (fits B w0 -> fits B w1) by (eapply OpenFile_fits; eauto);
        clear H
    end;
    eauto 10 using fits_same.
Qed.

Lemma rotate_fits B s o s' :
  0 <= B -> rotate s = (o, s') -> fits B s.2 -> fits B s'.2.
Proof.
  intros HB. unfold rotate. go_unfold. destruct s as [r w]; simpl.
  intros H Hf.
  destruct (close _) as [o1 [r1 w1]] eqn:Hc.
  apply v2_close_tracks in Hc as (_ & _ & _ & _ & Hfs1). simpl in *.
  assert (Hf1 : fits B w1) by (eapply fits_same; [exact Hfs1|exact Hf]).
  destruct o1 as [[e|]|msg]; simplify_eq/=; try exact Hf1.
  destruct (MkdirAll _ _ _) as [[e|] w2] eqn:Hmk; simplify_eq/=;
    pose proof (MkdirAll_fits B _ _ _ _ _ HB Hmk Hf1) as Hf2; try exact Hf2.
  destruct (Rename _ _ _) as [[e|] w3] eqn:Hrn; simplify_eq/=;
    pose proof (Rename_fits B _ _ _ _ _ Hrn Hf2) as Hf3; try exact Hf3.
  destruct (open _) as [o2 [r2 w4]] eqn:Hopen.
  pose proof (open_fits B _ _ _ HB Hopen Hf3) as Hf4. simpl in *.
  destruct o2 as [[e|]|msg]; simplify_eq/=; try exact Hf4.
  unfold mill in H. go_unfold. destruct (millCh r2); simplify_eq/=; exact Hf4.
Qed.

(** With exact bookkeeping the tracked size is the length of a file. *)
Lemma tracks_fits B s :
  tracks s -> fits B s.2 -> f s.1 <> None -> size s.1 <= B.
Proof.
  intros (_ & Ht) Hf Hsome. destruct (f s.1) as [fd|]; [|done].
  destruct Ht as (h & n & _ & _ & Hn & -> & _). eauto.
Qed.

Lemma v2_Write_tracks p s :
  tracks s -> size s.1 + Z.of_nat (length p) <= max_int64 ->
  fits (max_int64 - Z.of_nat (length p)) s.2 ->
  Z.of_nat (length p) <= max_int64 ->
  tracks (Write p s).2.
Proof.
  intros Ht Hmax Hfit Hp. pose proof Ht as (Hs & _).
  unfold Write. go_unfold. destruct s as [r w]; simpl in *.
  destruct (_ && _); [exact Ht|].
  destruct (isRotate _ _ _).
  - destruct (rotate _) as [o1 [r1 w1]] eqn:Hr.
    assert (HB : 0 <= max_int64 - Z.of_nat (length p)) by lia.
    pose proof (rotate_fits _ _ _ _ HB Hr Hfit) as Hfit1.
    apply v2_rotate_tracks in Hr as (Ht1 & _ & Hok & _); [|done]. simpl in *.
    destruct o1 as [[e|]|msg]; try exact Ht1.
    destruct (Hok eq_refl) as (fd & Hfd).
    assert (Hsz : size r1 <= max_int64 - Z.of_nat (length p)).
    { apply (tracks_fits _ (r1, w1)); [done|done|]. simpl. congruence. }
    destruct (v2_file_Write_tracks p (r1, w1)) as (n & e & w' & Hw & Hn & Ht');
      [done|simpl; lia|]. simpl in *. rewrite Hw. simpl. exact Ht'.
  - destruct (v2_file_Write_tracks p (r, w)) as (n & e & w' & Hw & Hn & Ht');
      [done|done|]. simpl in *. rewrite Hw. simpl. exact Ht'.
Qed.

(** [open] sets the creation time to the modification time of the file it
    opened. *)
Lemma open_createTime s s' :
  open s = (Ret None, s') ->
  exists fd h n,
    f s'.1 = Some fd /\ w_open s'.2 !! fd = Some h
    /\ w_fs s'.2 !! h_path h = Some n
    /\ createTime s'.1
       = {| GoTime.unix_ns := n_mtime n; GoTime.loc := w_local s'.2 |}.
Proof.
  unfold open, openExist, openNew. go_unfold. destruct s as [r w]; simpl.
  intros H.
  go_cases;
    lazymatch goal with
    | H : FdStat _ _ = (inl _, _), H' : OpenFile _ _ _ _ = (inl _, _) |- _ =>
        pose proof (OpenFile_at_end _ _ _ _ _ _ H')
          as (h & nd & Ho & Hp & Hn & He);
        [first [now left|now right]|];
        pose proof (FdStat_ok _ _ _ _ _ Ho H) as (Hfs & Hop & Hinfo);
        specialize (Hinfo nd Hn); subst;
        eexists _, h, nd; rewrite Hop, Hfs; auto
    end.
Qed.

Lemma Close_tracks s : tracks s -> tracks (Close s).2.
Proof.
  intros Ht. pose proof Ht as (Hs & _).
  unfold Close. go_unfold. destruct s as [r w]; simpl in *.
  destruct (millCh r); try exact Ht.
  destruct (close _) as [o1 [r1 w1]] eqn:Hc.
  apply v2_close_tracks in Hc as (Hf1 & _ & _ & Hs1 & _). simpl in *.
  assert (tracks (r1, w1)).
  { unfold tracks; simpl. rewrite Hf1. split; [lia|done]. }
  now destruct o1.
Qed.

End V2SizeFacts.

(** X15.  The composable engine keeps its size counter exact, in the
    sense of X1: a non-negative tracked size and, when a handle is held, a
    handle on the configured file name whose file has the tracked length
    and is written at its end.  This is preserved by [Write], whatever it
    returns, by [Rotate] and by [Close] (a panicking [Close] included),
    provided neither the tracked size nor the length of any file comes
    within the length of the write of the largest int64. *)
Theorem composable_size_is_file_length
    (p : list Byte.byte) (s : RollerV2.State) :
  V2SizeFacts.tracks s ->
  RollerV2.size s.1 + Z.of_nat (length p) <= max_int64 ->
  V2SizeFacts.fits (max_int64 - Z.of_nat (length p)) s.2 ->
  V2SizeFacts.tracks (RollerV2.Write p s).2
  /\ V2SizeFacts.tracks (RollerV2.Rotate s).2
  /\ V2SizeFacts.tracks (RollerV2.Close s).2.
Proof.
  intros Ht Hmax Hfit. pose proof Ht as (Hs & _).
  split; [apply V2SizeFacts.v2_Write_tracks; try done; lia|].
  split; [|now apply V2SizeFacts.Close_tracks].
  destruct (RollerV2.Rotate s) as [o s'] eqn:Hr.
  now apply V2SizeFacts.v2_rotate_tracks in Hr as (? & _).
Qed.

Lemma composable_size_is_file_length_witness :
  let s := Scenario.v2_fresh Scenario.v2_size100 in
  V2SizeFacts.tracks (RollerV2.Write (Scenario.zeros 60) s).2
  /\ V2SizeFacts.tracks (RollerV2.Rotate s).2
  /\ V2SizeFacts.tracks (RollerV2.Close s).2.
Proof.
  cbv zeta.
  apply (composable_size_is_file_length (Scenario.zeros 60)
           (Scenario.v2_fresh Scenario.v2_size100)).
  - split; [vm_compute; discriminate|].
    eexists _, _. repeat apply conj; try (vm_compute; reflexivity).
    right. vm_compute. reflexivity.
  - vm_compute. discriminate.
  - intros q n.
    apply (map_Forall_lookup_1
             (fun _ n => Z.of_nat (length (OS.n_data n))
                         <= max_int64 - Z.of_nat (length (Scenario.zeros 60)))).
    apply (proj1 (bool_decide_eq_true
             (map_Forall
                (fun (_ : string) n =>
                   Z.of_nat (length (OS.n_data n))
                   <= max_int64 - Z.of_nat (length (Scenario.zeros 60)))
                (OS.w_fs (Scenario.v2_fresh Scenario.v2_size100).2)))).
    vm_compute. reflexivity.
Defined.

(** X16.  What [NewRoller] hands out.  With an empty file name it
    returns an error without a system call.  Whatever it returns, the
    engine it built carries the given options, an open retention channel
    and exact bookkeeping.  When it returns no error the file name is not
    empty, the engine holds a handle on an existing file, and the recorded
    creation time is that file's modification time, in the local zone: for
    a log file that was already there, the time of its last change, not of
    its creation. *)
Theorem NewRoller_opens_tracked_file
    (opts : RollerV2.Options) (shredder : option error) (w : OS.World) :
  let out := (RollerV2.NewRoller opts shredder w).1 in
  let s := (RollerV2.NewRoller opts shredder w).2 in
  V2SizeFacts.tracks s
  /\ RollerV2.options s.1 = opts
  /\ RollerV2.millCh s.1 = RollerV2.ChOpen
  /\ (RollerV2.Filename opts = "" ->
      out = Ret (Some (ErrNew "filename can not empty")) /\ s.2 = w)
  /\ (out = Ret None ->
      RollerV2.Filename opts <> ""
      /\ exists fd h n,
           RollerV2.f s.1 = Some fd /\ OS.w_open s.2 !! fd = Some h
           /\ OS.w_fs s.2 !! OS.h_path h = Some n
           /\ RollerV2.createTime s.1
              = {| GoTime.unix_ns := OS.n_mtime n;
                   GoTime.loc := OS.w_local s.2 |}).
Proof.
  cbv zeta. unfold RollerV2.NewRoller.
  assert (Ht0 : forall fs,
    V2SizeFacts.tracks
      ({| RollerV2.options := opts; RollerV2.f := None; RollerV2.size := 0;
          RollerV2.createTime := GoTime.zeroTime;
          RollerV2.millCh := RollerV2.ChOpen;
          RollerV2.fileShredder := fs |}, w)).
  { intros fs. unfold V2SizeFacts.tracks; simpl. split; [lia|done]. }
  destruct (bool_decide (RollerV2.Filename opts = "")) eqn:Hname.
  { apply bool_decide_eq_true in Hname. simpl.
    split; [apply Ht0|]. repeat split; try done. }
  apply bool_decide_eq_false in Hname.
  set (wants := _ && _).
  assert (Hopen : forall fs,
    let r := {| RollerV2.options := opts; RollerV2.f := None;
                RollerV2.size := 0; RollerV2.createTime := GoTime.zeroTime;
                RollerV2.millCh := RollerV2.ChOpen;
                RollerV2.fileShredder := fs |} in
    V2SizeFacts.tracks (RollerV2.open (r, w)).2
    /\ RollerV2.options (RollerV2.open (r, w)).2.1 = opts
    /\ RollerV2.millCh (RollerV2.open (r, w)).2.1 = RollerV2.ChOpen
    /\ (RollerV2.Filename opts = "" ->
        (RollerV2.open (r, w)).1 = Ret (Some (ErrNew "filename can not empty"))
        /\ (RollerV2.open (r, w)).2.2 = w)
    /\ ((RollerV2.open (r, w)).1 = Ret None ->
        RollerV2.Filename opts <> ""
        /\ exists fd h n,
             RollerV2.f (RollerV2.open (r, w)).2.1 = Some fd
             /\ OS.w_open (RollerV2.open (r, w)).2.2 !! fd = Some h
             /\ OS.w_fs (RollerV2.open (r, w)).2.2 !! OS.h_path h = Some n
             /\ RollerV2.createTime (RollerV2.open (r, w)).2.1
                = {| GoTime.unix_ns := OS.n_mtime n;
                     GoTime.loc := OS.w_local (RollerV2.open (r, w)).2.2 |})).
  { intros fs r.
    destruct (RollerV2.open (r, w)) as [o s'] eqn:Ho.
    pose proof (V2SizeFacts.open_tracks _ _ _ Ho) as (Hopt & Hm & Hok & Hfail).
    simpl in *.
    split.
    { destruct o as [[e|]|msg].
      - destruct Hfail as (Hf & Hs); [done|].
        unfold V2SizeFacts.tracks. rewrite Hf, Hs. simpl. split; [lia|done].
      - now destruct (Hok eq_refl).
      - destruct Hfail as (Hf & Hs); [done|].
        unfold V2SizeFacts.tracks. rewrite Hf, Hs. simpl. split; [lia|done]. }
    split; [done|]. split; [done|]. split; [done|].
    intros ->. split; [done|]. now apply V2SizeFacts.open_createTime in Ho. }
  destruct wants; [destruct shredder as [e|]|]; try apply Hopen.
  simpl. split; [apply Ht0|]. repeat split; try done.
Qed.

(** ** The composable engine: closing and missing files *)

Module V2Facts.
Import GoStrings OS RollerV2 SysFacts CompressFacts.

Lemma MkdirAll_lookup d m w x w' q :
  MkdirAll d m w = (x, w') -> q <> Filepath.Clean d ->
  w_fs w' !! q = w_fs w !! q.
Proof.
  unfold MkdirAll. rewrite next_fault_pop.
  set (p := Filepath.Clean d). clearbody p. intros H Hq.
  destruct (fault_of w); [now inversion H|]. cbn in H.
  destruct (w_fs w !! p) as [n|] eqn:Hn.
  - destruct (n_isdir n); now inversion H.
  - inversion H; subst. cbn. now rewrite lookup_insert_ne.
Qed.

Lemma Rename_missing a b w x w' :
  w_fs w !! Filepath.Clean a = None ->
  Rename a b w = (x, w') -> w_fs w' = w_fs w /\ exists e, x = Some e.
Proof.
  unfold Rename. rewrite next_fault_pop.
  set (pa := Filepath.Clean a). set (pb := Filepath.Clean b). clearbody pa pb.
  intros Hn H. destruct (fault_of w); [inversion H; eauto|]. cbn in H.
  rewrite Hn in H. inversion H; eauto.
Qed.

(** An engine without handle whose file is gone. *)
Definition lost (s : State) : Prop :=
  f s.1 = None
  /\ w_fs s.2 !! Filepath.Clean (Filename (options s.1)) = None
  /\ forall w0,
       Filepath.Clean
         (Filepath.Dir (RotateName (options s.1) w0 (Filename (options s.1))))
       <> Filepath.Clean (Filename (options s.1)).

Lemma rotate_lost s :
  lost s ->
  (exists e, (rotate s).1 = Ret (Some e))
  /\ lost (rotate s).2 /\ size (rotate s).2.1 = size s.1.
Proof.
  destruct s as [r w]. unfold lost. simpl. intros (Hf & Hn & Hd).
  unfold rotate, close, bind, ret, get_self, get_world, sys, enter.
  cbn [fst snd]. rewrite Hf. cbn [fst snd].
  destruct (MkdirAll _ _ _) as [[e|] w2] eqn:Hmk; cbn [fst snd].
  - split; [eauto|]. split; [|done]. split; [done|]. split; [|done].
    rewrite (MkdirAll_lookup _ _ _ _ _ _ Hmk); [done|]. apply not_eq_sym, Hd.
  - assert (Hn2 : w_fs w2 !! Filepath.Clean (Filename (options r)) = None).
    { rewrite (MkdirAll_lookup _ _ _ _ _ _ Hmk); [done|].
      apply not_eq_sym, Hd. }
    destruct (Rename _ _ w2) as [x w3] eqn:Hrn. cbn [fst snd].
    destruct (Rename_missing _ _ _ _ _ Hn2 Hrn) as (Hfs & e & ->).
    cbn [fst snd]. split; [eauto|]. split; [|done]. split; [done|].
    split; [now rewrite Hfs|done].
Qed.

Lemma Write_lost p s :
  lost s ->
  (exists e, (Write p s).1 = Ret (0, Some e)) /\ lost (Write p s).2.
Proof.
  intros Hl. pose proof (rotate_lost s Hl) as ((e & He) & Hl' & _).
  destruct s as [r w]. pose proof Hl as (Hf & Hn & Hd). simpl in *.
  unfold Write, bind, ret, get_self, get_world, put_self. cbn [fst snd].
  destruct (_ && _); [split; [eauto|exact Hl]|].
  destruct (isRotate _ _ _).
  - destruct (rotate (r, w)) as [o1 s1]. simpl in He. subst o1.
    cbn [fst snd]. split; [eauto|exact Hl'].
  - simpl. rewrite Hf. unfold file_Write, ret. simpl.
    split; [eauto|]. unfold lost. simpl. auto.
Qed.

(** After [Close] has returned. *)
Lemma Close_returned s o s1 :
  Close s = (Ret o, s1) -> millCh s1.1 = ChClosed /\ f s1.1 = None.
Proof.
  unfold Close, bind, get_self, put_self, panic. cbn [fst snd].
  destruct (millCh s.1) eqn:Hm; try (intros H; discriminate H).
  intros H. split.
  - apply CloseFacts.close_keeps_millCh in H. exact H.
  - now apply FailedRotationFacts.v2_close_file in H.
Qed.

Lemma close_returns s msg s' : close s <> (Panic msg, s').
Proof. unfold close. go_unfold. intros H. go_cases. Qed.

Lemma open_returns s msg s' : open s <> (Panic msg, s').
Proof.
  unfold open, openExist, openNew. go_unfold. intros H. go_cases.
Qed.

(** With the channel closed no rotation completes: it returns an error,
    or it panics in [mill], after the new file has been opened. *)
Lemma rotate_closed s o s' :
  millCh s.1 = ChClosed -> rotate s = (o, s') ->
  match o with
  | Ret e => (exists e', e = Some e') /\ f s'.1 = None
  | Panic msg =>
      msg = "send on closed channel"
      /\ exists fd, f s'.1 = Some fd /\ is_Some (w_open s'.2 !! fd)
  end.
Proof.
  intros Hm. unfold rotate. go_unfold. intros H.
  destruct (close _) as [[[err|]|msg] s1] eqn:Hc.
  - apply FailedRotationFacts.v2_close_file in Hc. simplify_eq/=. eauto.
  - pose proof (CloseFacts.close_keeps_millCh _ _ _ Hc) as Hm1.
    apply FailedRotationFacts.v2_close_file in Hc. simpl in Hm1, H.
    destruct (MkdirAll _ _ _) as [[e1|] w1]; simplify_eq/=; [eauto|].
    destruct (Rename _ _ _) as [[e2|] w2]; simplify_eq/=; [eauto|].
    destruct (open _) as [[[err|]|msg] s2] eqn:Ho.
    + apply FailedRotationFacts.v2_open_fail_file in Ho. simplify_eq/=.
      split; [eauto|congruence].
    + pose proof (CloseFacts.open_keeps_millCh _ _ _ Ho) as Hm2.
      apply V2SizeFacts.open_createTime in Ho as (fd & h & n & Hf & Hh & _).
      unfold mill in H. go_unfold. rewrite Hm2, Hm1, Hm in H.
      simplify_eq/=. split; [done|]. exists fd. split; [done|]. eauto.
    + now apply open_returns in Ho.
  - now apply close_returns in Hc.
Qed.

(** A one-hour duration trigger and no size trigger. *)
Definition hourly : Options :=
  {| Filename := "/var/log/app.log"; Size := 0;
     Duration := 3600 * 10^9;
     RotateName := fun w _ => "/var/log/old/app.log";
     LifecycleGlob := ""; LifecycleSize := 0;
     LifecycleCount := 0; LifecycleDuration := 0 |}.

End V2Facts.

(** X17.  The composable engine does not recover a missing log file.
    Take an engine without handle whose file does not exist, for instance
    after the file was removed and a rotation failed, and a [RotateName]
    whose directory is not the log file itself.  Then every [Write] returns
    count 0 with an error and every [Rotate] returns an error, and both
    leave the engine without handle and the file missing, so this goes on
    for ever: [rotate] renames before it opens, the rename fails, and no
    other path opens the file. *)
Theorem composable_engine_does_not_recreate_missing_file
    (p : list Byte.byte) (s : RollerV2.State) :
  V2Facts.lost s ->
  (exists e, (RollerV2.Write p s).1 = Ret (0, Some e))
  /\ V2Facts.lost (RollerV2.Write p s).2
  /\ (exists e, (RollerV2.Rotate s).1 = Ret (Some e))
  /\ V2Facts.lost (RollerV2.Rotate s).2.
Proof.
  intros Hl. destruct (V2Facts.Write_lost p s Hl) as (Hw & Hlw).
  destruct (V2Facts.rotate_lost s Hl) as (Hr & Hlr & _). auto.
Qed.

Lemma composable_engine_does_not_recreate_missing_file_witness :
  let s := ((RollerV2.close (Scenario.v2_fresh Scenario.v2_size100)).2.1,
            Scenario.world0) in
  (exists e, (RollerV2.Write (Scenario.zeros 10) s).1 = Ret (0, Some e))
  /\ V2Facts.lost (RollerV2.Write (Scenario.zeros 10) s).2
  /\ (exists e, (RollerV2.Rotate s).1 = Ret (Some e))
  /\ V2Facts.lost (RollerV2.Rotate s).2.
Proof.
  cbv zeta.
  apply (composable_engine_does_not_recreate_missing_file (Scenario.zeros 10)).
  split; [vm_compute; reflexivity|]. split; [vm_compute; reflexivity|].
  intros w0. vm_compute. intros H. discriminate H.
Defined.

(** X18.  After [Close] of the composable engine no rotation completes.
    [Close] leaves the channel closed and the handle nil, and neither
    [Write] nor [Rotate] changes the channel, so it stays closed whatever
    is called later.  With the channel closed, [Rotate] returns an error
    and leaves the handle nil, or it panics with "send on closed channel";
    a [Write] for which a trigger fires, or that finds the handle nil,
    returns count 0 with an error or panics the same way; the [Write]
    that follows [Close] is such a call.  The panic comes after [rotate]
    has renamed the file and opened a new one: it leaves the engine with an
    open handle, through which a later [Write] can write.  Sample run:
    [Close], then [Rotate] panics, then a [Write] of 10 bytes returns 10
    without error and the new log file holds the 10 bytes. *)
Theorem no_rotation_completes_after_Close :
  (forall (s0 s : RollerV2.State) (o : option error),
      RollerV2.Close s0 = (Ret o, s) ->
      RollerV2.millCh s.1 = RollerV2.ChClosed /\ RollerV2.f s.1 = None)
  /\ (forall (p : list Byte.byte) (s : RollerV2.State),
      RollerV2.millCh s.1 = RollerV2.ChClosed ->
      RollerV2.millCh (RollerV2.Write p s).2.1 = RollerV2.ChClosed
      /\ RollerV2.millCh (RollerV2.Rotate s).2.1 = RollerV2.ChClosed
      /\ match (RollerV2.Rotate s).1 with
         | Ret e =>
             (exists e', e = Some e') /\ RollerV2.f (RollerV2.Rotate s).2.1 = None
         | Panic msg =>
             msg = "send on closed channel"
             /\ exists fd,
                  RollerV2.f (RollerV2.Rotate s).2.1 = Some fd
                  /\ is_Some (OS.w_open (RollerV2.Rotate s).2.2 !! fd)
         end
      /\ match (RollerV2.Write p s).1 with
         | Ret (n, e) =>
             RollerV2.isRotate s.1 s.2 (Z.of_nat (length p)) = true
             \/ RollerV2.f s.1 = None ->
             n = 0 /\ exists e', e = Some e'
         | Panic msg =>
             msg = "send on closed channel"
             /\ RollerV2.isRotate s.1 s.2 (Z.of_nat (length p)) = true
             /\ exists fd,
                  RollerV2.f (RollerV2.Write p s).2.1 = Some fd
                  /\ is_Some (OS.w_open (RollerV2.Write p s).2.2 !! fd)
         end)
  /\ (let s1 := (RollerV2.Close (Scenario.v2_fresh Scenario.v2_size100)).2 in
      let s2 := (RollerV2.Rotate s1).2 in
      let s3 := (RollerV2.Write (Scenario.zeros 10) s2).2 in
      (RollerV2.Close (Scenario.v2_fresh Scenario.v2_size100)).1 = Ret None
      /\ (RollerV2.Rotate s1).1 = Panic "send on closed channel"
      /\ RollerV2.f s2.1 = Some 4%nat
      /\ (RollerV2.Write (Scenario.zeros 10) s2).1 = Ret (10, None)
      /\ (fun n => length (OS.n_data n)) <$> OS.w_fs s3.2
         = <["/var/log/app.log" := 10%nat]>
             (<["/var/log/old/app.log" := 0%nat]>
                (<["/var/log/old" := 0%nat]>
                   (<["/var/log" := 0%nat]> ∅)))).
Proof.
  split; [|split].
  - intros s0 s o Hc. now apply V2Facts.Close_returned in Hc.
  - intros p s Hm.
    split; [|split; [|split]].
    + destruct (RollerV2.Write p s) as [o1 s1] eqn:Hw.
      apply CloseFacts.Write_keeps_millCh in Hw. simpl in *. congruence.
    + unfold RollerV2.Rotate. destruct (RollerV2.rotate s) as [o1 s1] eqn:Hr.
      apply CloseFacts.rotate_keeps_millCh in Hr. simpl in *. congruence.
    + unfold RollerV2.Rotate. destruct (RollerV2.rotate s) as [o1 s1] eqn:Hr.
      exact (V2Facts.rotate_closed _ _ _ Hm Hr).
    + unfold RollerV2.Write, bind, ret, get_self, get_world, put_self.
      cbn [fst snd].
      destruct (_ && _); [cbn; eauto|].
      destruct (RollerV2.isRotate _ _ _) eqn:Hrot.
      * destruct (RollerV2.rotate s) as [o1 s1] eqn:Hr.
        pose proof (V2Facts.rotate_closed _ _ _ Hm Hr) as Hcl.
        destruct o1 as [[e|]|msg]; cbn [fst snd].
        -- intros _. eauto.
        -- destruct Hcl as ((e' & He') & _). discriminate He'.
        -- destruct Hcl as (-> & Hfd). auto.
      * cbn [fst snd].
        destruct (RollerV2.f s.1) as [fd|] eqn:Hf.
        -- destruct (RollerV2.file_Write _ _ _) as [[[n e]|msg] s2] eqn:Hw;
             cbn [fst snd].
           ++ intros [Hx|Hx]; discriminate Hx.
           ++ exfalso. unfold RollerV2.file_Write, bind, ret, sys in Hw.
              cbn [fst snd] in Hw.
              destruct (OS.FdWrite _ _ _) as [[k e] w2]. discriminate Hw.
        -- cbn. eauto.
  - cbv zeta. repeat apply conj; vm_compute; reflexivity.
Qed.

Lemma no_rotation_completes_after_Close_witness :
  let s := (RollerV2.Close (Scenario.v2_fresh Scenario.v2_size100)).2 in
  let p := Scenario.zeros 10 in
  RollerV2.millCh (RollerV2.Write p s).2.1 = RollerV2.ChClosed
  /\ RollerV2.millCh (RollerV2.Rotate s).2.1 = RollerV2.ChClosed
  /\ match (RollerV2.Rotate s).1 with
     | Ret e =>
         (exists e', e = Some e') /\ RollerV2.f (RollerV2.Rotate s).2.1 = None
     | Panic msg =>
         msg = "send on closed channel"
         /\ exists fd,
              RollerV2.f (RollerV2.Rotate s).2.1 = Some fd
              /\ is_Some (OS.w_open (RollerV2.Rotate s).2.2 !! fd)
     end
  /\ match (RollerV2.Write p s).1 with
     | Ret (n, e) =>
         RollerV2.isRotate s.1 s.2 (Z.of_nat (length p)) = true
         \/ RollerV2.f s.1 = None ->
         n = 0 /\ exists e', e = Some e'
     | Panic msg =>
         msg = "send on closed channel"
         /\ RollerV2.isRotate s.1 s.2 (Z.of_nat (length p)) = true
         /\ exists fd,
              RollerV2.f (RollerV2.Write p s).2.1 = Some fd
              /\ is_Some (OS.w_open (RollerV2.Write p s).2.2 !! fd)
     end.
Proof.
  cbv zeta.
  apply (proj1 (proj2 no_rotation_completes_after_Close)
           (Scenario.zeros 10)
           (RollerV2.Close (Scenario.v2_fresh Scenario.v2_size100)).2).
  vm_compute. reflexivity.
Defined.

(** X19.  [close] of the composable engine arms the duration trigger.
    Closing a held file resets the tracked size to 0 and the creation time
    to the zero time, and the elapsed time since the zero time saturates at
    the largest duration.  So with a duration limit below that, on a clock
    that an int64 of nanoseconds can express, [isRotate] holds for every
    write length once the file has been closed: after a rotation that
    failed, the next [Write] starts with a rotation again. *)
Theorem duration_trigger_fires_after_close
    (s : RollerV2.State) (fd : nat) (writeLen : Z) :
  RollerV2.f s.1 = Some fd ->
  0 < RollerV2.Duration (RollerV2.options s.1) < max_int64 ->
  min_int64 <= OS.w_now s.2 ->
  let s1 := (RollerV2.close s).2 in
  RollerV2.f s1.1 = None
  /\ RollerV2.size s1.1 = 0
  /\ RollerV2.createTime s1.1 = GoTime.zeroTime
  /\ RollerV2.isRotate s1.1 s1.2 writeLen = true.
Proof.
  intros Hf HD Hnow. cbv zeta.
  unfold RollerV2.close, bind, ret, get_self, put_self, sys.
  cbn [fst snd]. rewrite Hf.
  destruct (OS.FdClose fd s.2) as [x w1] eqn:Hc. cbn [fst snd].
  pose proof (SysFacts.FdClose_env _ _ _ _ Hc) as (Hn1 & _).
  repeat split.
  unfold RollerV2.isRotate. cbn [RollerV2.options RollerV2.set_file
    RollerV2.size RollerV2.createTime].
  destruct (_ && _); [done|].
  assert (Hsub : GoTime.Sub (OS.Now w1) GoTime.zeroTime = max_int64).
  { unfold GoTime.Sub, OS.Now, GoTime.zeroTime, GoTime.zero_unix_sec.
    cbn [GoTime.unix_ns]. rewrite Hn1.
    rewrite gtb_true; [done|]. unfold min_int64, max_int64 in *. lia. }
  rewrite Hsub. rewrite !gtb_true by lia. done.
Qed.

Lemma duration_trigger_fires_after_close_witness :
  let s := Scenario.v2_fresh V2Facts.hourly in
  let s1 := (RollerV2.close s).2 in
  RollerV2.f s1.1 = None
  /\ RollerV2.size s1.1 = 0
  /\ RollerV2.createTime s1.1 = GoTime.zeroTime
  /\ RollerV2.isRotate s1.1 s1.2 5 = true.
Proof.
  apply (duration_trigger_fires_after_close
           (Scenario.v2_fresh V2Facts.hourly) 3%nat 5).
  - vm_compute. reflexivity.
  - vm_compute. split; reflexivity.
  - vm_compute. discriminate.
Defined.
